(** * github-sync: a shallow embedding of the sync engine

    The development follows the JavaScript sources of the add-on:

    - the HTTP server: webhook signature check, the webhook route and the
      routes of the backups
    - [syncHistory.js]: the bounded ledger of sync attempts
    - [backup.js]: archives, the protection list, retention pruning and
      rollback
    - [trackedSync.js]: reconciliation of the target against the Git file set
    - [restartManager.js]: the one-shot restart timer
    - [gitSync.js] and [utils.js]: the pipeline backup, clone, validate, apply

    Asynchronous functions are run to completion one after the other (the
    process is single threaded and every call is awaited), so an [async]
    function is a state transformer that either returns or throws.  File
    system and network calls that can fail take their outcome from an
    explicit description of the environment. *)

From Stdlib Require Import ZArith Lia Ascii String List DecimalString DecimalZ.
From stdpp Require Import base option list strings gmap sorting.
Import ListNotations.

(** ** Exceptions and state *)

Module JS.

(** The JavaScript errors the modelled code can raise. *)
Inductive error : Type :=
| TypeError (msg : string)
| RangeError (msg : string)
| SyntaxError (msg : string)
| Error (msg : string).

Definition message (e : error) : string :=
  match e with
  | TypeError m | RangeError m | SyntaxError m | Error m => m
  end.

(** Outcome of a call: a returned value or a thrown error. *)
Inductive result (A : Type) : Type :=
| Ok (a : A)
| Throw (e : error).
Arguments Ok {A} a.
Arguments Throw {A} e.

Definition returns {A} (r : result A) : bool :=
  match r with Ok _ => true | Throw _ => false end.

(** A computation over a store [S]: the store survives a throw, as the
    effects of a JavaScript function survive its exception. *)
Definition M (S A : Type) : Type := S -> result A * S.

Definition ret {S A} (a : A) : M S A := fun s => (Ok a, s).

Definition throw {S A} (e : error) : M S A := fun s => (Throw e, s).

Definition bind {S A B} (m : M S A) (k : A -> M S B) : M S B :=
  fun s => match m s with
           | (Ok a, s') => k a s'
           | (Throw e, s') => (Throw e, s')
           end.

(** [try { m } catch (error) { h error }] *)
Definition try_catch {S A} (m : M S A) (h : error -> M S A) : M S A :=
  fun s => match m s with
           | (Ok a, s') => (Ok a, s')
           | (Throw e, s') => h e s'
           end.

Definition get {S} : M S S := fun s => (Ok s, s).
Definition gets {S A} (f : S -> A) : M S A := fun s => (Ok (f s), s).
Definition modify {S} (f : S -> S) : M S unit := fun s => (Ok tt, f s).

(** [for (const x of xs) { body x }] *)
Fixpoint for_of {S A} (xs : list A) (body : A -> M S unit) : M S unit :=
  match xs with
  | [] => ret tt
  | x :: rest => bind (body x) (fun _ => for_of rest body)
  end.

(** [for (const x of xs) { body x }] with local counters [acc]. *)
Fixpoint fold_of {S A B} (xs : list A) (body : A -> B -> M S B) (acc : B) : M S B :=
  match xs with
  | [] => ret acc
  | x :: rest => bind (body x acc) (fun acc' => fold_of rest body acc')
  end.

(** [await Promise.all(xs.map(async x => f x))] for an [f] that only reads. *)
Fixpoint mapM {S A B} (f : A -> M S B) (xs : list A) : M S (list B) :=
  match xs with
  | [] => ret []
  | x :: rest => bind (f x) (fun y => bind (mapM f rest) (fun ys => ret (y :: ys)))
  end.

(** The [log] utility of utils.js: lines are kept with their level. *)
Inductive level : Type := INFO | ERROR | WARN | DEBUG.

Class Logging (S : Type) : Type := append_log : level * string -> S -> S.

Definition log_info {S} `{Logging S} (msg : string) : M S unit :=
  modify (append_log (INFO, msg)).
Definition log_error {S} `{Logging S} (msg : string) : M S unit :=
  modify (append_log (ERROR, msg)).
Definition log_warn {S} `{Logging S} (msg : string) : M S unit :=
  modify (append_log (WARN, msg)).

(** Run a computation of a component on its part of a larger store. *)
Definition zoom {S T A} (proj : S -> T) (upd : T -> S -> S) (m : M T A) : M S A :=
  fun s => match m (proj s) with (r, t) => (r, upd t s) end.

End JS.

Export JS (Ok, Throw).

(** ** Persisted JSON documents *)

Module Fs.

(** A JSON state file as the code can find it: missing, present but not
    readable, readable but not JSON, or holding a document. Writing a
    document and reading it back gives the document. *)
Inductive file (A : Type) : Type :=
| Absent
| Unreadable
| Invalid
| Parsed (doc : A).
Arguments Absent {A}.
Arguments Unreadable {A}.
Arguments Invalid {A}.
Arguments Parsed {A} doc.

(** [await exists(path)], that is [fs.access(path)] succeeding. *)
Definition exists_ {A} (f : file A) : bool :=
  match f with Absent => false | _ => true end.

(** [JSON.parse(await fs.readFile(path, 'utf8'))] *)
Definition read_json {A} (f : file A) : JS.result A :=
  match f with
  | Absent => Throw (JS.Error "ENOENT: no such file or directory")
  | Unreadable => Throw (JS.Error "EACCES: permission denied")
  | Invalid => Throw (JS.SyntaxError "Unexpected token in JSON")
  | Parsed d => Ok d
  end.

End Fs.

Declare Scope js_scope.
Delimit Scope js_scope with js.
Notation "'await' x <- m ; k" := (JS.bind m (fun x => k))
(at level 10, x name, m at level 100, k at level 200) : js_scope.
Notation "'call' m ; k" := (JS.bind m (fun _ => k))
(at level 10, m at level 100, k at level 200) : js_scope.

(** ** Webhook signature verification (the HTTP server) *)

Module Webhook.

Local Open Scope Z_scope.

(** A JavaScript string is a sequence of UTF-16 code units, a [Buffer] a
    sequence of bytes; both are lists of integers here. *)
Definition jsstring := list Z.
Definition buffer := list Z.

(** A literal of the source as a JavaScript string. *)
Definition js (s : string) : jsstring :=
  map (fun a => Z.of_N (N_of_ascii a)) (list_ascii_of_string s).

Definition is_high_surrogate (c : Z) : bool := (0xD800 <=? c) && (c <=? 0xDBFF).
Definition is_low_surrogate (c : Z) : bool := (0xDC00 <=? c) && (c <=? 0xDFFF).

Definition utf8_3 (c : Z) : buffer :=
  [Z.lor 0xE0 (Z.shiftr c 12);
   Z.lor 0x80 (Z.land (Z.shiftr c 6) 0x3F);
   Z.lor 0x80 (Z.land c 0x3F)].

Definition utf8_4 (c : Z) : buffer :=
  [Z.lor 0xF0 (Z.shiftr c 18);
   Z.lor 0x80 (Z.land (Z.shiftr c 12) 0x3F);
   Z.lor 0x80 (Z.land (Z.shiftr c 6) 0x3F);
   Z.lor 0x80 (Z.land c 0x3F)].

(** [Buffer.from(str)] with the default encoding ['utf8']: surrogate
    pairs are combined, a lone surrogate becomes U+FFFD. *)
Fixpoint Buffer_from (s : jsstring) : buffer :=
  match s with
  | [] => []
  | c :: rest =>
      if c <? 0x80 then c :: Buffer_from rest
      else if c <? 0x800 then
        Z.lor 0xC0 (Z.shiftr c 6) :: Z.lor 0x80 (Z.land c 0x3F) :: Buffer_from rest
      else if is_high_surrogate c then
        match rest with
        | d :: rest' =>
            if is_low_surrogate d
            then utf8_4 (0x10000 + Z.shiftl (c - 0xD800) 10 + (d - 0xDC00))
                   ++ Buffer_from rest'
            else utf8_3 0xFFFD ++ Buffer_from rest
        | [] => utf8_3 0xFFFD
        end
      else if is_low_surrogate c then utf8_3 0xFFFD ++ Buffer_from rest
      else utf8_3 c ++ Buffer_from rest
  end.

(** [buf.toString('utf8')]: the decoder of the Encoding standard; every
    maximal ill-formed subsequence becomes U+FFFD. *)
Inductive decoder : Type :=
| Idle
| Pending (cp : Z) (remaining : nat) (lower upper : Z).

Definition utf16 (cp : Z) : jsstring :=
  if cp <? 0x10000 then [cp]
  else [0xD800 + Z.shiftr (cp - 0x10000) 10; 0xDC00 + Z.land (cp - 0x10000) 0x3FF].

Definition decode_lead (b : Z) : decoder * jsstring :=
  if b <=? 0x7F then (Idle, [b])
  else if (0xC2 <=? b) && (b <=? 0xDF) then
    (Pending (Z.land b 0x1F) 1 0x80 0xBF, [])
  else if (0xE0 <=? b) && (b <=? 0xEF) then
    (Pending (Z.land b 0xF) 2
       (if b =? 0xE0 then 0xA0 else 0x80) (if b =? 0xED then 0x9F else 0xBF), [])
  else if (0xF0 <=? b) && (b <=? 0xF4) then
    (Pending (Z.land b 0x7) 3
       (if b =? 0xF0 then 0x90 else 0x80) (if b =? 0xF4 then 0x8F else 0xBF), [])
  else (Idle, [0xFFFD]).

Definition decode_byte (st : decoder) (b : Z) : decoder * jsstring :=
  match st with
  | Idle => decode_lead b
  | Pending cp remaining lower upper =>
      if (lower <=? b) && (b <=? upper) then
        let cp' := Z.lor (Z.shiftl cp 6) (Z.land b 0x3F) in
        match remaining with
        | S (S r) => (Pending cp' (S r) 0x80 0xBF, [])
        | _ => (Idle, utf16 cp')
        end
      else
        let (st', out) := decode_lead b in (st', 0xFFFD :: out)
  end.

Fixpoint decode (st : decoder) (bs : buffer) : jsstring :=
  match bs with
  | [] => match st with Idle => [] | Pending _ _ _ _ => [0xFFFD] end
  | b :: rest =>
      let (st', out) := decode_byte st b in out ++ decode st' rest
  end.

Definition Buffer_toString (bs : buffer) : jsstring := decode Idle bs.

(** *** SHA-256 (FIPS 180-4) and HMAC (RFC 2104), as Node's [crypto] *)

Definition w32 (x : Z) : Z := Z.land x 0xFFFFFFFF.
Definition add32 (x y : Z) : Z := w32 (x + y).
Definition rotr (n x : Z) : Z := Z.lor (Z.shiftr x n) (w32 (Z.shiftl x (32 - n))).
Definition Ch (x y z : Z) : Z :=
  Z.lxor (Z.land x y) (Z.land (Z.lxor x 0xFFFFFFFF) z).
Definition Maj (x y z : Z) : Z :=
  Z.lxor (Z.lxor (Z.land x y) (Z.land x z)) (Z.land y z).
Definition Sigma0 (x : Z) : Z := Z.lxor (Z.lxor (rotr 2 x) (rotr 13 x)) (rotr 22 x).
Definition Sigma1 (x : Z) : Z := Z.lxor (Z.lxor (rotr 6 x) (rotr 11 x)) (rotr 25 x).
Definition sigma0 (x : Z) : Z := Z.lxor (Z.lxor (rotr 7 x) (rotr 18 x)) (Z.shiftr x 3).
Definition sigma1 (x : Z) : Z := Z.lxor (Z.lxor (rotr 17 x) (rotr 19 x)) (Z.shiftr x 10).

(** The round constants are the first 32 bits of the fractional parts of
    the cube roots of the first 64 primes, the initial hash value those of
    the square roots of the first 8 primes. *)
Fixpoint primes_from (fuel : nat) (n : Z) (found : list Z) : list Z :=
  match fuel with
  | O => found
  | S f =>
      if forallb (fun p => negb (n mod p =? 0)) found
      then primes_from f (n + 1) (found ++ [n])
      else primes_from f (n + 1) found
  end.

Definition primes (count : nat) : list Z := firstn count (primes_from 320 2 []).

(** The largest [r] below [2 ^ bits] with [r ^ 3 <= n], bit by bit. *)
Fixpoint cube_root (bits : nat) (n r : Z) : Z :=
  match bits with
  | O => r
  | S b =>
      let r' := r + 2 ^ Z.of_nat b in
      cube_root b n (if r' * r' * r' <=? n then r' else r)
  end.

Definition K256 : list Z :=
  Eval vm_compute in map (fun p => w32 (cube_root 40 (p * 2 ^ 96) 0)) (primes 64).

Definition H256 : list Z :=
  Eval vm_compute in map (fun p => w32 (Z.sqrt (p * 2 ^ 64))) (primes 8).

(** Big-endian bytes of [x], [n] of them. *)
Fixpoint be_bytes (n : nat) (x : Z) : buffer :=
  match n with
  | O => []
  | S n' => Z.land (Z.shiftr x (8 * Z.of_nat n')) 0xFF :: be_bytes n' x
  end.

Definition pad (msg : buffer) : buffer :=
  let len := Z.of_nat (length msg) in
  let zeros := Z.to_nat ((55 - len) mod 64) in
  msg ++ [0x80] ++ repeat 0 zeros ++ be_bytes 8 (8 * len).

(** Words of a byte sequence, four bytes each, most significant first. *)
Fixpoint words (fuel : nat) (bs : buffer) : list Z :=
  match fuel, bs with
  | S f, b0 :: b1 :: b2 :: b3 :: rest =>
      (Z.shiftl b0 24 + Z.shiftl b1 16 + Z.shiftl b2 8 + b3) :: words f rest
  | _, _ => []
  end.

(** The message schedule, newest word first: [ws] holds W[t-1], W[t-2], ... *)
Fixpoint schedule (n : nat) (ws : list Z) : list Z :=
  match n with
  | O => ws
  | S n' =>
      let w := add32 (add32 (sigma1 (nth 1 ws 0)) (nth 6 ws 0))
                     (add32 (sigma0 (nth 14 ws 0)) (nth 15 ws 0)) in
      schedule n' (w :: ws)
  end.

Definition round (st : list Z) (kw : Z * Z) : list Z :=
  match st with
  | [a; b; c; d; e; f; g; h] =>
      let t1 := add32 (add32 (add32 h (Sigma1 e)) (add32 (Ch e f g) (fst kw))) (snd kw) in
      let t2 := add32 (Sigma0 a) (Maj a b c) in
      [add32 t1 t2; a; b; c; add32 d t1; e; f; g]
  | _ => st
  end.

Definition compress (h : list Z) (block : list Z) : list Z :=
  let w := rev (schedule 48 (rev block)) in
  let st := fold_left round (combine K256 w) h in
  map (fun p => add32 (fst p) (snd p)) (combine h st).

Fixpoint blocks (fuel : nat) (ws : list Z) : list (list Z) :=
  match fuel, ws with
  | S f, _ :: _ => firstn 16 ws :: blocks f (skipn 16 ws)
  | _, _ => []
  end.

Definition sha256 (msg : buffer) : buffer :=
  let p := pad msg in
  let ws := words (length p) p in
  let h := fold_left compress (blocks (length ws) ws) H256 in
  flat_map (be_bytes 4) h.

Definition xor_pad (c : Z) (key : buffer) : buffer :=
  map (Z.lxor c) (key ++ repeat 0 (64 - length key)%nat).

Definition hmac_sha256 (key msg : buffer) : buffer :=
  let k := if (64 <? Z.of_nat (length key)) then sha256 key else key in
  sha256 (xor_pad 0x5c k ++ sha256 (xor_pad 0x36 k ++ msg)).

(** [digest('hex')]: two lowercase hexadecimal digits per byte. *)
Definition hex_digit (n : Z) : Z :=
  if n <? 10 then 48 + n else 87 + n.

Definition hex (bs : buffer) : jsstring :=
  flat_map (fun b => [hex_digit (Z.shiftr b 4); hex_digit (Z.land b 0xF)]) bs.

(** [crypto.timingSafeEqual(a, b)]: throws when the lengths differ. *)
Definition timingSafeEqual (a b : buffer) : JS.result bool :=
  if bool_decide (length a = length b)
  then Ok (bool_decide (a = b))
  else Throw (JS.RangeError "Input buffers must have the same byte length").

(** The parts of the request and of [process.env] the check reads;
    [None] is JavaScript's [undefined]. *)
Record request : Type := {
  x_hub_signature_256 : option jsstring;
  rawBody : option jsstring
}.

(** [!x] for an optional string: [undefined] and [''] are falsy. *)
Definition falsy (x : option jsstring) : bool :=
  match x with
  | None | Some [] => true
  | Some (_ :: _) => false
  end.

Definition calculatedSignature (secret body : jsstring) : jsstring :=
  js "sha256=" ++ hex (hmac_sha256 (Buffer_from secret) (Buffer_from body)).

Definition verifyGitHubSignature (req : request) (WEBHOOK_SECRET : option jsstring)
  : JS.result bool :=
  match x_hub_signature_256 req, WEBHOOK_SECRET with
  | Some signature, Some secret =>
      if falsy (Some signature) || falsy (Some secret) then Ok false
      else
        match rawBody req with
        | None =>
            Throw (JS.TypeError "The data argument must be of type string or an instance of Buffer, TypedArray, or DataView. Received undefined")
        | Some body =>
            timingSafeEqual (Buffer_from signature)
                            (Buffer_from (calculatedSignature secret body))
        end
  | _, _ => Ok false
  end.

(** The [verify] hook of [express.json]: [req.rawBody = buf.toString('utf8')]
    for a request whose JSON body arrived as the bytes [buf]. *)
Definition json_request (signature : option jsstring) (buf : buffer) : request :=
  {| x_hub_signature_256 := signature; rawBody := Some (Buffer_toString buf) |}.

(** What the [/webhook] route answers up to the signature check: 401 when
    the check returns false, 500 when anything in the handler throws. *)
Inductive gate : Type := Accepted | Status401 | Status500.

Definition webhook_gate (req : request) (WEBHOOK_SECRET : option jsstring) : gate :=
  match verifyGitHubSignature req WEBHOOK_SECRET with
  | Ok true => Accepted
  | Ok false => Status401
  | Throw _ => Status500
  end.

End Webhook.

(** ** The sync history ledger (syncHistory.js) *)

Module History.

Local Open Scope js_scope.

(** Field values of a ledger entry. *)
Inductive jsval : Type :=
| VNull
| VBool (b : bool)
| VNum (n : Z)
| VStr (s : string).

#[global] Instance jsval_eq_dec : EqDecision jsval.
Proof. solve_decision. Defined.

(** An entry is a JavaScript object: a finite map from field names. *)
Abbreviation entry := (gmap string jsval).

(** What [JSON.parse] can give for the ledger file: an array of entries,
    or a document that is not an array. *)
Inductive ledger : Type :=
| LArray (es : list entry)
| LOther.

Record store : Type := {
  HISTORY_FILE : Fs.file ledger;
  log : list (JS.level * string)
}.

#[global] Instance store_logging : JS.Logging store :=
  fun l s => {| HISTORY_FILE := HISTORY_FILE s; log := log s ++ [l] |}.

Definition set_file (f : Fs.file ledger) (s : store) : store :=
  {| HISTORY_FILE := f; log := log s |}.

(** What one call reads from its environment: the clock, the random
    suffix [Math.random().toString(36).substr(2, 9)] and whether the
    disk accepts the write. *)
Record env : Type := {
  Date_now : Z;
  toISOString : string;
  random36 : string;
  write_fails : bool
}.

Definition MAX_HISTORY_ENTRIES : nat := 100.

Definition loadHistory : JS.M store ledger :=
  JS.try_catch
    (await s <- JS.get;
     if negb (Fs.exists_ (HISTORY_FILE s)) then JS.ret (LArray [])
     else
       match Fs.read_json (HISTORY_FILE s) with
       | Ok d => JS.ret d
       | Throw e => JS.throw e
       end)
    (fun error =>
       call JS.log_error ("Failed to load sync history: " ++ JS.message error);
       JS.ret (LArray [])).

Definition saveHistory (ev : env) (history : list entry) : JS.M store unit :=
  JS.try_catch
    (let trimmedHistory := take MAX_HISTORY_ENTRIES history in
     if write_fails ev then JS.throw (JS.Error "ENOSPC: no space left on device")
     else JS.modify (set_file (Fs.Parsed (LArray trimmedHistory))))
    (fun error =>
       JS.log_error ("Failed to save sync history: " ++ JS.message error)).

Definition string_of_Z (n : Z) : string :=
  DecimalString.NilZero.string_of_int (Z.to_int n).

Definition generateId (ev : env) : string :=
  "sync_" ++ string_of_Z (Date_now ev) ++ "_" ++ random36 ev.

(** [{ id: generateId(), timestamp: ..., status: 'in_progress', ...entry }]:
    the fields of [entry] are spread last and win. *)
Definition newEntry (ev : env) (e : entry) : entry :=
  e ∪ {[ "id" := VStr (generateId ev);
         "timestamp" := VStr (toISOString ev);
         "status" := VStr "in_progress" ]}.

(** Returns [newEntry.id], [None] standing for [undefined]. *)
Definition addSyncEntry (ev : env) (e : entry) : JS.M store (option jsval) :=
  await history <- loadHistory;
  let n := newEntry ev e in
  match history with
  | LArray h =>
      call saveHistory ev (n :: h);
      JS.ret (n !! "id")
  | LOther => JS.throw (JS.TypeError "history.unshift is not a function")
  end.

(** [history.findIndex(e => e.id === id)] *)
Fixpoint findIndex (id : option jsval) (h : list entry) : option nat :=
  match h with
  | [] => None
  | e :: rest =>
      if bool_decide (e !! "id" = id) then Some O
      else S <$> findIndex id rest
  end.

Definition updateSyncEntry (ev : env) (id : option jsval) (updates : entry)
  : JS.M store unit :=
  await history <- loadHistory;
  match history with
  | LArray h =>
      match findIndex id h with
      | None => JS.log_warn "Sync entry not found"
      | Some index =>
          saveHistory ev (alter (fun old => updates ∪ old) index h)
      end
  | LOther => JS.throw (JS.TypeError "history.findIndex is not a function")
  end.

(** The entries a later call finds: [loadHistory] on an intact file. *)
Definition entries (s : store) : list entry :=
  match HISTORY_FILE s with
  | Fs.Parsed (LArray es) => es
  | _ => []
  end.

(** A sequence of [addSyncEntry] calls, each with its own environment. *)
Fixpoint addAll (calls : list (env * entry)) : JS.M store unit :=
  match calls with
  | [] => JS.ret tt
  | (ev, e) :: rest => await _ <- addSyncEntry ev e; addAll rest
  end.

End History.

(** ** Backups, protection and retention (backup.js) *)

Module Backup.

Local Open Scope js_scope.

(** What [fs.stat] reports for a file of the backup directory. *)
Record Stats : Type := { mtime : Z; st_size : Z }.

(** What [JSON.parse] can give for the protection list. *)
Inductive protected_doc : Type :=
| PArray (names : list string)
| POther.

(** The directory /backup/github-sync: its files by name ([None] when the
    directory does not exist), the protection list kept in it, and the
    [fs.unlink] calls made so far. A path [path.join(BACKUP_DIR, f)] is
    represented by the file name [f]. *)
Record store : Type := {
  BACKUP_DIR : option (gmap string Stats);
  PROTECTED_BACKUPS_FILE : Fs.file protected_doc;
  unlink_calls : list string;
  log : list (JS.level * string)
}.

#[global] Instance store_logging : JS.Logging store :=
  fun l s => {| BACKUP_DIR := BACKUP_DIR s;
                PROTECTED_BACKUPS_FILE := PROTECTED_BACKUPS_FILE s;
                unlink_calls := unlink_calls s;
                log := log s ++ [l] |}.

(** The file system calls that fail: [fs.unlink] and [fs.stat] by file
    name, and whether the protection list can be written. *)
Record env : Type := {
  unlink_fails : gset string;
  stat_fails : gset string;
  write_fails : bool
}.

Definition files (s : store) : gmap string Stats := default ∅ (BACKUP_DIR s).

Definition exists_ (f : string) : JS.M store bool :=
  JS.gets (fun s => bool_decide (is_Some (files s !! f))).

Definition stat (ev : env) (f : string) : JS.M store Stats :=
  await s <- JS.get;
  match files s !! f with
  | Some st =>
      if bool_decide (f ∈ stat_fails ev)
      then JS.throw (JS.Error "EIO: i/o error, stat")
      else JS.ret st
  | None => JS.throw (JS.Error "ENOENT: no such file or directory, stat")
  end.

(** [fs.unlink] of a file of the directory other than the protection
    list, whose content is kept apart from the files. *)
Definition unlink (ev : env) (f : string) : JS.M store unit :=
  await s <- JS.get;
  call JS.modify (fun s => {| BACKUP_DIR := BACKUP_DIR s;
                               PROTECTED_BACKUPS_FILE := PROTECTED_BACKUPS_FILE s;
                               unlink_calls := unlink_calls s ++ [f];
                               log := log s |});
  if bool_decide (f ∈ unlink_fails ev)
  then JS.throw (JS.Error "EACCES: permission denied, unlink")
  else if bool_decide (is_Some (files s !! f))
  then JS.modify (fun s => {| BACKUP_DIR := delete f <$> BACKUP_DIR s;
                              PROTECTED_BACKUPS_FILE := PROTECTED_BACKUPS_FILE s;
                              unlink_calls := unlink_calls s;
                              log := log s |})
  else JS.throw (JS.Error "ENOENT: no such file or directory, unlink").

Definition loadProtectedBackups : JS.M store protected_doc :=
  JS.try_catch
    (await s <- JS.get;
     if Fs.exists_ (PROTECTED_BACKUPS_FILE s) then
       match Fs.read_json (PROTECTED_BACKUPS_FILE s) with
       | Ok d => JS.ret d
       | Throw e => JS.throw e
       end
     else JS.ret (PArray []))
    (fun error =>
       call JS.log_error ("Failed to load protected backups: " ++ JS.message error);
       JS.ret (PArray [])).

Definition saveProtectedBackups (ev : env) (protectedList : list string)
  : JS.M store unit :=
  JS.try_catch
    (if write_fails ev then JS.throw (JS.Error "ENOSPC: no space left on device")
     else JS.modify (fun s => {| BACKUP_DIR := BACKUP_DIR s;
                                 PROTECTED_BACKUPS_FILE := Fs.Parsed (PArray protectedList);
                                 unlink_calls := unlink_calls s;
                                 log := log s |}))
    (fun error =>
       JS.log_error ("Failed to save protected backups: " ++ JS.message error)).

(** [protectedList.includes(x)]; only an array has the method. *)
Definition includes (d : protected_doc) (x : string) : JS.result bool :=
  match d with
  | PArray names => Ok (bool_decide (x ∈ names))
  | POther => Throw (JS.TypeError "protectedList.includes is not a function")
  end.

Definition isBackupProtected (backupPath : string) : JS.M store bool :=
  await protected <- loadProtectedBackups;
  match includes protected backupPath with
  | Ok b => JS.ret b
  | Throw e => JS.throw e
  end.

Definition protectBackup (ev : env) (backupPath : string) : JS.M store bool :=
  JS.try_catch
    (await present <- exists_ backupPath;
     if negb present then JS.throw (JS.Error ("Backup not found: " ++ backupPath))
     else
       await protected <- loadProtectedBackups;
       match protected with
       | PArray names =>
           if bool_decide (backupPath ∈ names) then JS.ret true
           else
             call saveProtectedBackups ev (names ++ [backupPath]);
             call JS.log_info ("Protected backup: " ++ backupPath);
             JS.ret true
       | POther => JS.throw (JS.TypeError "protected.includes is not a function")
       end)
    (fun error =>
       call JS.log_error ("Failed to protect backup: " ++ JS.message error);
       JS.throw error).

(** An element of the listing. *)
Record backup : Type := {
  path : string;
  name : string;
  created : Z;
  size : Z;
  protected : bool
}.

(** [f.endsWith(suffix)] *)
Definition endsWith (f suffix : string) : bool :=
  let n := String.length f in
  let m := String.length suffix in
  (m <=? n)%nat && String.eqb (substring (n - m) m f) suffix.

(** The order [(a, b) => b.created - a.created] sorts by: newest first. *)
Definition newer_first (a b : backup) : Prop := (created b <= created a)%Z.

#[global] Instance newer_first_dec a b : Decision (newer_first a b).
Proof. unfold newer_first. apply _. Defined.

Definition listBackups (ev : env) : JS.M store (list backup) :=
  JS.try_catch
    (await s <- JS.get;
     match BACKUP_DIR s with
     | None => JS.ret []
     | Some dir =>
         let files := fst <$> map_to_list dir in
         let backups := filter (fun f => endsWith f ".tar.gz" = true) files in
         await protectedList <- loadProtectedBackups;
         await backupStats <-
           JS.mapM (fun f =>
                      await stats <- stat ev f;
                      match includes protectedList f with
                      | Ok p => JS.ret {| path := f; name := f; created := mtime stats;
                                          size := st_size stats; protected := p |}
                      | Throw e => JS.throw e
                      end) backups;
         JS.ret (merge_sort newer_first backupStats)
     end)
    (fun error =>
       call JS.log_error ("Failed to list backups: " ++ JS.message error);
       JS.ret []).

(** [xs.slice(start)] for an integer [start]. *)
Definition slice {A} (start : Z) (xs : list A) : list A :=
  let len := Z.of_nat (length xs) in
  drop (Z.to_nat (if (start <? 0)%Z then Z.max (len + start) 0 else start)) xs.

(** [retention] is the value of
    [parseInt(process.env.BACKUP_RETENTION || '5', 10)]. *)
Definition cleanOldBackups (ev : env) (retention : Z) : JS.M store unit :=
  JS.try_catch
    (await allBackups <- listBackups ev;
     let unprotectedBackups := filter (fun b => protected b = false) allBackups in
     let protectedBackups := filter (fun b => protected b = true) allBackups in
     if (Z.of_nat (length unprotectedBackups) <=? retention)%Z then
       JS.log_info "Current backups within retention"
     else
       let toRemove := slice retention unprotectedBackups in
       call JS.log_info "Removing old backup(s)...";
       call JS.for_of toRemove (fun b =>
              call unlink ev (path b);
              JS.log_info ("Removed old backup: " ++ name b));
       JS.log_info "Backups cleaned")
    (fun error =>
       JS.log_error ("Failed to clean old backups: " ++ JS.message error)).

Definition deleteBackup (ev : env) (backupPath : string) : JS.M store bool :=
  JS.try_catch
    (await present <- exists_ backupPath;
     if negb present then JS.throw (JS.Error ("Backup not found: " ++ backupPath))
     else
       call unlink ev backupPath;
       call JS.log_info ("Deleted backup: " ++ backupPath);
       JS.ret true)
    (fun error =>
       call JS.log_error ("Failed to delete backup: " ++ JS.message error);
       JS.throw error).

(** The route [DELETE /api/backups/:filename] of the HTTP server. *)
Inductive response : Type :=
| Json200 (message : string)
| Json500 (error : string).

(** The route for a [filename] that [path.join(BACKUP_DIR, filename)]
    leaves in the directory under that name: one without a slash that is
    not empty, [.] or [..]. *)
Definition delete_route (ev : env) (filename : string) : JS.M store response :=
  JS.try_catch
    (await _ <- deleteBackup ev filename;
     JS.ret (Json200 "Backup deleted"))
    (fun error =>
       call JS.log_error ("Failed to delete backup: " ++ JS.message error);
       JS.ret (Json500 (JS.message error))).

End Backup.

(** ** Tracked sync (trackedSync.js) *)

Module TrackedSync.

Local Open Scope js_scope.

(** An element of the persisted array: a string, or another JSON value. *)
Inductive element : Type :=
| EString (f : string)
| EOther.

(** What [JSON.parse] can give for the state file. *)
Inductive state_doc : Type :=
| DArray (elements : list element)
| DOther.

(** The files below [targetPath], by path relative to it, with their
    content, and the state file /backup/github-sync/.synced-files.json.
    [path.join(targetPath, f)] is represented by [f]: the paths that
    [git ls-files] prints are normalised and stay below the directory.
    The files are regular files; there are no symbolic links. *)
Record store : Type := {
  target : gmap string string;
  STATE_FILE : Fs.file state_doc;
  log : list (JS.level * string)
}.

#[global] Instance store_logging : JS.Logging store :=
  fun l s => {| target := target s; STATE_FILE := STATE_FILE s; log := log s ++ [l] |}.

Definition set_target (f : gmap string string -> gmap string string) (s : store) : store :=
  {| target := f (target s); STATE_FILE := STATE_FILE s; log := log s |}.

Definition set_state (d : Fs.file state_doc) (s : store) : store :=
  {| target := target s; STATE_FILE := d; log := log s |}.

(** One run's surroundings: what [git ls-files] writes to its standard
    output in the clone (or the failure of the command), the files of the
    clone, and the file system calls that fail. *)
Record env : Type := {
  git_ls_files : JS.result string;
  source : gmap string string;
  copy_fails : gset string;
  unlink_fails : gset string;
  write_fails : bool
}.

Definition loadSyncedFiles : JS.M store state_doc :=
  JS.try_catch
    (await s <- JS.get;
     if Fs.exists_ (STATE_FILE s) then
       match Fs.read_json (STATE_FILE s) with
       | Ok d => JS.ret d
       | Throw e => JS.throw e
       end
     else JS.ret (DArray []))
    (fun error =>
       call JS.log_error ("Failed to load synced files state: " ++ JS.message error);
       JS.ret (DArray [])).

Definition saveSyncedFiles (ev : env) (files : list string) : JS.M store unit :=
  JS.try_catch
    (if write_fails ev then JS.throw (JS.Error "ENOSPC: no space left on device")
     else
       call JS.modify (set_state (Fs.Parsed (DArray (EString <$> files))));
       JS.log_info "Saved state for tracked files")
    (fun error =>
       JS.log_error ("Failed to save synced files state: " ++ JS.message error)).

(** Strings hold the UTF-8 bytes of the JavaScript strings. *)
Definition bytes (codes : list nat) : string :=
  string_of_list_ascii (ascii_of_nat <$> codes).

Definition newline : ascii := ascii_of_nat 10.

(** The white space and the line terminators of ECMAScript: U+0009 to
    U+000D, U+0020, U+00A0, U+1680, U+2000 to U+200A, U+2028, U+2029,
    U+202F, U+205F, U+3000 and U+FEFF. *)
Definition white_space : list string :=
  bytes <$> [[9]; [10]; [11]; [12]; [13]; [32]; [194; 160]; [225; 154; 128];
             [226; 128; 128]; [226; 128; 129]; [226; 128; 130]; [226; 128; 131];
             [226; 128; 132]; [226; 128; 133]; [226; 128; 134]; [226; 128; 135];
             [226; 128; 136]; [226; 128; 137]; [226; 128; 138]; [226; 128; 168];
             [226; 128; 169]; [226; 128; 175]; [226; 129; 159]; [227; 128; 128];
             [239; 187; 191]].

(** [s] without one of [patterns] at its start, if it starts with one. *)
Definition cut (patterns : list string) (s : string) : option string :=
  head (omap (fun w =>
                if String.prefix w s
                then Some (substring (String.length w)
                             (String.length s - String.length w) s)
                else None) patterns).

Fixpoint strip (patterns : list string) (fuel : nat) (s : string) : string :=
  match fuel with
  | O => s
  | S fuel' =>
      match cut patterns s with
      | Some rest => strip patterns fuel' rest
      | None => s
      end
  end.

Definition trimStart (s : string) : string := strip white_space (String.length s) s.

Definition trimEnd (s : string) : string :=
  String.rev (strip (String.rev <$> white_space) (String.length s) (String.rev s)).

(** [s.trim()] *)
Definition trim (s : string) : string := trimEnd (trimStart s).

(** [s.split('\n')] *)
Fixpoint split_lines (s : string) : list string :=
  match s with
  | EmptyString => [EmptyString]
  | String c rest =>
      if Ascii.eqb c newline then EmptyString :: split_lines rest
      else match split_lines rest with
           | line :: lines => String c line :: lines
           | [] => [String c EmptyString]
           end
  end.

(** [stdout.trim().split('\n').filter(f => f.length > 0)] *)
Definition listed (stdout : string) : list string :=
  List.filter (fun f => (0 <? String.length f)%nat) (split_lines (trim stdout)).

(** The value of [currentGitFiles] in a run. *)
Definition currentGitFiles (ev : env) : JS.result (list string) :=
  match git_ls_files ev with
  | Ok stdout => Ok (listed stdout)
  | Throw e => Throw e
  end.

Definition getGitTrackedFiles (ev : env) : JS.M store (list string) :=
  JS.try_catch
    (match git_ls_files ev with
     | Ok stdout =>
         let files := listed stdout in
         call JS.log_info "Found files tracked in Git repository";
         JS.ret files
     | Throw e => JS.throw e
     end)
    (fun error =>
       call JS.log_error ("Failed to get Git tracked files: " ++ JS.message error);
       JS.throw error).

(** [copyFile(path.join(gitRepoPath, f), path.join(targetPath, f))] *)
Definition copyFile (ev : env) (f : string) : JS.M store unit :=
  JS.try_catch
    (if bool_decide (f ∈ copy_fails ev)
     then JS.throw (JS.Error "EACCES: permission denied, copyfile")
     else match source ev !! f with
          | Some content => JS.modify (set_target (insert f content))
          | None => JS.throw (JS.Error "ENOENT: no such file or directory, copyfile")
          end)
    (fun error => JS.throw (JS.Error ("Failed to copy " ++ f ++ ": " ++ JS.message error))).

Definition exists_ (f : string) : JS.M store bool :=
  JS.gets (fun s => bool_decide (is_Some (target s !! f))).

Definition unlink (ev : env) (f : string) : JS.M store unit :=
  await s <- JS.get;
  if bool_decide (f ∈ unlink_fails ev)
  then JS.throw (JS.Error "EACCES: permission denied, unlink")
  else if bool_decide (is_Some (target s !! f))
  then JS.modify (set_target (delete f))
  else JS.throw (JS.Error "ENOENT: no such file or directory, unlink").

(** The object [trackedSync] returns. *)
Record summary : Type := {
  copied : nat;
  deleted : nat;
  skipped : nat;
  tracked : nat
}.

(** [currentGitFiles.includes(f)]: an array of strings includes no other value. *)
Definition includes (current : list string) (e : element) : bool :=
  match e with
  | EString f => bool_decide (f ∈ current)
  | EOther => false
  end.

(** [previouslySyncedFiles.filter(f => !currentGitFiles.includes(f))] *)
Definition filesToDelete (previous : list element) (current : list string) : list element :=
  filter (fun e => includes current e = false) previous.

Definition trackedSync (ev : env) : JS.M store summary :=
  JS.try_catch
    (await currentGitFiles <- getGitTrackedFiles ev;
     await previouslySyncedFiles <- loadSyncedFiles;
     call JS.log_info "Copying files from Git to target...";
     await counts <-
       JS.fold_of currentGitFiles
         (fun relativeFile (c : nat * nat) =>
            JS.try_catch
              (call copyFile ev relativeFile;
               JS.ret (S (fst c), snd c))
              (fun error =>
                 call JS.log_error ("Failed to copy " ++ relativeFile ++ ": "
                                    ++ JS.message error);
                 JS.ret (fst c, S (snd c))))
         (O, O);
     match previouslySyncedFiles with
     | DOther => JS.throw (JS.TypeError "previouslySyncedFiles.filter is not a function")
     | DArray previous =>
         let toDelete := filesToDelete previous currentGitFiles in
         call (if (0 <? length toDelete)%nat
               then JS.log_info "Removing file(s) that were deleted from Git..."
               else JS.ret tt);
         await deletedCount <-
           JS.fold_of toDelete
             (fun relativeFile (deletedCount : nat) =>
                (* const filePath = path.join(targetPath, relativeFile), before the
                   try; the message of the TypeError is given in short *)
                match relativeFile with
                | EOther =>
                    JS.throw (JS.TypeError "The path argument must be of type string")
                | EString f =>
                    JS.try_catch
                      (await present <- exists_ f;
                       if present then
                         call unlink ev f;
                         call JS.log_info ("Deleted: " ++ f);
                         JS.ret (S deletedCount)
                       else JS.ret deletedCount)
                      (fun error =>
                         call JS.log_error ("Failed to delete: " ++ JS.message error);
                         JS.ret deletedCount)
                end)
             O;
         call saveSyncedFiles ev currentGitFiles;
         call JS.log_info "Tracked sync complete";
         call JS.log_info "Files NOT in Git repository are preserved and untouched";
         JS.ret {| copied := fst counts; deleted := deletedCount;
                   skipped := snd counts; tracked := length currentGitFiles |}
     end)
    (fun error =>
       call JS.log_error ("Tracked sync failed: " ++ JS.message error);
       JS.throw error).

End TrackedSync.

(** ** The restart timer (restartManager.js) *)

Module Restart.

Local Open Scope js_scope.
Local Open Scope Z_scope.

(** The objects [scheduleRestart] resolves its promise with. *)
Inductive value : Type :=
| NotScheduled (reason : string)
| Scheduled (executed : bool) (delaySeconds : option Z).

(** A promise settles once: [resolve] and [reject] on a settled promise
    do nothing. *)
Inductive promise : Type :=
| Pending
| Fulfilled (v : value)
| Rejected (e : JS.error).

Definition resolve (v : value) (p : promise) : promise :=
  match p with Pending => Fulfilled v | _ => p end.

Definition reject (e : JS.error) (p : promise) : promise :=
  match p with Pending => Rejected e | _ => p end.

(** The module variables [restartTimer] and [restartScheduledTime], the
    timeouts that are armed, the promises made by [scheduleRestart] in the
    order of the calls, and what left the process: restart requests to the
    supervisor and notifications. A timeout is named by the index of the
    promise its callback settles; [armed] keeps the token the callback
    captured. *)
Record state : Type := {
  restartTimer : option nat;
  restartScheduledTime : option Z;
  armed : gmap nat string;
  promises : list promise;
  restart_requests : list string;
  notifications : list string;
  log : list (JS.level * string)
}.

#[global] Instance state_logging : JS.Logging state :=
  fun l s => {| restartTimer := restartTimer s;
                restartScheduledTime := restartScheduledTime s;
                armed := armed s; promises := promises s;
                restart_requests := restart_requests s;
                notifications := notifications s;
                log := log s ++ [l] |}.

Definition initial : state :=
  {| restartTimer := None; restartScheduledTime := None; armed := ∅; promises := [];
     restart_requests := []; notifications := []; log := [] |}.

Record env : Type := {
  AUTO_RESTART : option string;
  SUPERVISOR_TOKEN : option string;
  Date_now : Z
}.

Definition set_timer (t : option nat) (at_ : option Z) (s : state) : state :=
  {| restartTimer := t; restartScheduledTime := at_;
     armed := armed s; promises := promises s;
     restart_requests := restart_requests s; notifications := notifications s;
     log := log s |}.

Definition set_armed (f : gmap nat string -> gmap nat string) (s : state) : state :=
  {| restartTimer := restartTimer s; restartScheduledTime := restartScheduledTime s;
     armed := f (armed s); promises := promises s;
     restart_requests := restart_requests s; notifications := notifications s;
     log := log s |}.

Definition set_promises (f : list promise -> list promise) (s : state) : state :=
  {| restartTimer := restartTimer s; restartScheduledTime := restartScheduledTime s;
     armed := armed s; promises := f (promises s);
     restart_requests := restart_requests s; notifications := notifications s;
     log := log s |}.

Definition notify (title : string) (s : state) : state :=
  {| restartTimer := restartTimer s; restartScheduledTime := restartScheduledTime s;
     armed := armed s; promises := promises s;
     restart_requests := restart_requests s;
     notifications := notifications s ++ [title];
     log := log s |}.

Definition request_restart (token : string) (s : state) : state :=
  {| restartTimer := restartTimer s; restartScheduledTime := restartScheduledTime s;
     armed := armed s; promises := promises s;
     restart_requests := restart_requests s ++ [token];
     notifications := notifications s;
     log := log s |}.

(** [clearTimeout(t)] *)
Definition clearTimeout (t : nat) : JS.M state unit :=
  JS.modify (set_armed (delete t)).

(** Returns the index of the promise the call hands to its caller. *)
Definition scheduleRestart (ev : env) (delaySeconds : Z) : JS.M state nat :=
  await s0 <- JS.get;
  let p := length (promises s0) in
  call JS.modify (set_promises (fun ps => ps ++ [Pending]));
  if negb (bool_decide (AUTO_RESTART ev = Some "true")) then
    call JS.log_info "Auto-restart disabled, skipping HA restart";
    call JS.modify (set_promises (alter (resolve (NotScheduled "Auto-restart disabled")) p));
    JS.ret p
  else
    match SUPERVISOR_TOKEN ev with
    | None | Some "" =>
        call JS.log_warn "SUPERVISOR_TOKEN not available, skipping restart";
        call JS.modify (set_promises (alter (resolve (NotScheduled "No supervisor token")) p));
        JS.ret p
    | Some token =>
        call (match restartTimer s0 with
              | Some t =>
                  call JS.log_info "Cancelling previous restart timer";
                  clearTimeout t
              | None => JS.ret tt
              end);
        call JS.modify (fun s => set_timer (restartTimer s)
                                   (Some (Date_now ev + delaySeconds * 1000)) s);
        call JS.modify (notify "Home Assistant Restart Scheduled");
        call JS.log_info "Home Assistant restart scheduled";
        (* new Promise((resolve, reject) => { restartTimer = setTimeout(...); resolve(...) }) *)
        call JS.modify (set_armed (insert p token));
        call JS.modify (fun s => set_timer (Some p) (restartScheduledTime s) s);
        call JS.modify (set_promises
                          (alter (resolve (Scheduled false (Some delaySeconds))) p));
        JS.ret p
    end.

(** The timeout [t] fires: its callback runs [executeRestart(token)], whose
    outcome is [outcome], and settles the promise. A timeout that is not
    armed does not fire. *)
Definition fire (t : nat) (outcome : JS.result unit) : JS.M state unit :=
  await s0 <- JS.get;
  match armed s0 !! t with
  | None => JS.ret tt
  | Some token =>
      call JS.modify (set_armed (delete t));
      call JS.modify (request_restart token);
      match outcome with
      | Ok _ =>
          call JS.log_info "Home Assistant restart command sent";
          call JS.modify (set_timer None None);
          JS.modify (set_promises (alter (resolve (Scheduled true None)) t))
      | Throw error =>
          call JS.modify (set_timer None None);
          JS.modify (set_promises (alter (reject error) t))
      end
  end.

(** Returns [cancelled]. *)
Definition cancelRestart : JS.M state bool :=
  await s0 <- JS.get;
  match restartTimer s0 with
  | None => JS.ret false
  | Some t =>
      call clearTimeout t;
      call JS.modify (set_timer None None);
      call JS.log_info "Home Assistant restart cancelled";
      call JS.modify (notify "Restart Cancelled");
      JS.ret true
  end.

(** Returns [None] for [{ scheduled: false }], else the remaining seconds. *)
Definition getRestartStatus (ev : env) : JS.M state (option Z) :=
  await s0 <- JS.get;
  match restartTimer s0 with
  | None => JS.ret None
  | Some _ =>
      let remainingSeconds :=
        - ((- (default 0 (restartScheduledTime s0) - Date_now ev)) / 1000) in
      JS.ret (Some (Z.max 0 remainingSeconds))
  end.

End Restart.

(** ** The sync pipeline (gitSync.js, with copyDirectory and
    removeDirectory of utils.js) *)

Module Pipeline.

Local Open Scope js_scope.

(** A directory tree: its files by relative path, with their content. *)
Abbreviation tree := (gmap string string).

(** The places the pipeline works on: the files below [SYNC_PATH], the
    temporary clone /tmp/github-sync-temp and the validation directory
    /tmp/github-sync-validation ([None] when they do not exist), the ledger
    in /data, the backup directory, the restart timer, the notifications
    sent and the log. [SYNC_PATH] is a directory of its own, as the default
    /config is: it does not lie in or above /tmp, /backup/github-sync or
    /data. *)
Record world : Type := {
  target : tree;
  tempDir : option tree;
  validationDir : option tree;
  history : History.store;
  backups : Backup.store;
  restart : Restart.state;
  notifications : list string;
  log : list (JS.level * string)
}.

#[global] Instance world_logging : JS.Logging world :=
  fun l w => {| target := target w; tempDir := tempDir w;
                validationDir := validationDir w; history := history w;
                backups := backups w; restart := restart w;
                notifications := notifications w; log := log w ++ [l] |}.

Definition set_target (t : tree) (w : world) : world :=
  {| target := t; tempDir := tempDir w; validationDir := validationDir w;
     history := history w; backups := backups w; restart := restart w;
     notifications := notifications w; log := log w |}.

Definition set_tempDir (d : option tree) (w : world) : world :=
  {| target := target w; tempDir := d; validationDir := validationDir w;
     history := history w; backups := backups w; restart := restart w;
     notifications := notifications w; log := log w |}.

Definition set_validationDir (d : option tree) (w : world) : world :=
  {| target := target w; tempDir := tempDir w; validationDir := d;
     history := history w; backups := backups w; restart := restart w;
     notifications := notifications w; log := log w |}.

Definition set_history (h : History.store) (w : world) : world :=
  {| target := target w; tempDir := tempDir w; validationDir := validationDir w;
     history := h; backups := backups w; restart := restart w;
     notifications := notifications w; log := log w |}.

Definition set_backups (b : Backup.store) (w : world) : world :=
  {| target := target w; tempDir := tempDir w; validationDir := validationDir w;
     history := history w; backups := b; restart := restart w;
     notifications := notifications w; log := log w |}.

Definition set_restart (r : Restart.state) (w : world) : world :=
  {| target := target w; tempDir := tempDir w; validationDir := validationDir w;
     history := history w; backups := backups w; restart := r;
     notifications := notifications w; log := log w |}.

Definition sendNotification (title : string) : JS.M world unit :=
  JS.modify (fun w =>
    {| target := target w; tempDir := tempDir w; validationDir := validationDir w;
       history := history w; backups := backups w; restart := restart w;
       notifications := notifications w ++ [title]; log := log w |}).

(** How an [rsync] run ends: to completion with every file transferred;
    to completion with the files [same] skipped, where the destination has
    a file of the same size and modification time (the quick check); or
    with an error after the files [done] were transferred. *)
Inductive rsync_outcome : Type :=
| Completed
| UpToDate (same : gset string)
| Interrupted (done : gset string).

(** One run's surroundings. [tar] is how [tar -czf] ends, with the name and
    the [stat] of the archive it made; [tar_leftover] is the file a failing
    [tar -czf] leaves in the backup directory, if any. *)
Record env : Type := {
  BACKUP_ENABLED : bool;
  branch : string;
  commits : Z;
  syncType : string;
  started : History.env;
  finished : History.env;
  duration : Z;
  rm_fails : gset string;
  tar : JS.result (string * Backup.Stats);
  tar_leftover : option (string * Backup.Stats);
  clone : JS.result tree;
  rsync_current : rsync_outcome;
  rsync_new : rsync_outcome;
  rsync_apply : rsync_outcome;
  prune : Backup.env;
  BACKUP_RETENTION : Z;
  restart_env : Restart.env
}.

Definition TEMP : string := "/tmp/github-sync-temp".
Definition GIT : string := "/tmp/github-sync-temp/.git".
Definition VALIDATION : string := "/tmp/github-sync-validation".

(** [removeDirectory(dirPath)] for a directory seen through [get]/[set]. *)
Definition removeDirectory (ev : env) (dirPath : string)
    (get : world -> bool) (remove : world -> world) : JS.M world unit :=
  JS.try_catch
    (await present <- JS.gets get;
     if present then
       if bool_decide (dirPath ∈ rm_fails ev)
       then JS.throw (JS.Error "EBUSY: resource busy or locked, rm")
       else JS.modify remove
     else JS.ret tt)
    (fun error => JS.throw (JS.Error ("Failed to remove directory: " ++ JS.message error))).

Definition temp_exists (w : world) : bool := bool_decide (is_Some (tempDir w)).
Definition validation_exists (w : world) : bool := bool_decide (is_Some (validationDir w)).

Definition under_git (f : string) : bool := String.prefix ".git/" f.

Definition git_exists (w : world) : bool :=
  match tempDir w with
  | Some t => bool_decide (Exists (fun f => under_git f = true) (fst <$> map_to_list t))
  | None => false
  end.

Definition remove_git (w : world) : world :=
  set_tempDir (filter (fun kv => under_git (fst kv) = false) <$> tempDir w) w.


(** The files of the destination after [rsync -av], with and without
    [--ignore-existing], for a source and a destination that are
    [collision_free]. *)
Definition rsync (overwrite : bool) (outcome : rsync_outcome) (src dst : tree) : tree :=
  let sent := match outcome with
              | Completed => src
              | UpToDate same =>
                  filter (fun kv => fst kv ∉ same \/ dst !! fst kv = None) src
              | Interrupted done => filter (fun kv => fst kv ∈ done) src
              end in
  if overwrite then sent ∪ dst else dst ∪ sent.

(** [copyDirectory(source, destination, { overwrite })]: [source] absent
    makes [rsync] fail before it writes. *)
Definition copyDirectory (outcome : rsync_outcome) (overwrite : bool)
    (source : world -> option tree) (destination : world -> option tree)
    (write : tree -> world -> world) : JS.M world unit :=
  JS.try_catch
    (await w <- JS.get;
     let dst := default ∅ (destination w) in
     call JS.modify (write dst);
     match source w with
     | None => JS.throw (JS.Error "rsync: change_dir failed: No such file or directory")
     | Some src =>
         call JS.modify (write (rsync overwrite outcome src dst));
         match outcome with
         | Completed | UpToDate _ => JS.ret tt
         | Interrupted _ => JS.throw (JS.Error "rsync error: some files could not be transferred")
         end
     end)
    (fun error => JS.throw (JS.Error ("Failed to copy directory: " ++ JS.message error))).

(** The backup directory after a [tar -czf] that failed: what it had
    written of the archive stays there. *)
Definition after_failed_tar (ev : env) (files : gmap string Backup.Stats)
  : gmap string Backup.Stats :=
  match tar_leftover ev with
  | Some (partial, stats) => <[partial := stats]> files
  | None => files
  end.

(** [createBackup(syncPath)]: the archive is a new file of the backup
    directory; what a failing [tar] has written stays there. *)
Definition createBackup (ev : env) : JS.M world string :=
  JS.try_catch
    (call JS.modify (fun w =>
       set_backups {| Backup.BACKUP_DIR := Some (Backup.files (backups w));
                      Backup.PROTECTED_BACKUPS_FILE := Backup.PROTECTED_BACKUPS_FILE (backups w);
                      Backup.unlink_calls := Backup.unlink_calls (backups w);
                      Backup.log := Backup.log (backups w) |} w);
     call JS.log_info "Creating backup";
     match tar ev with
     | Throw e =>
         call JS.modify (fun w =>
           set_backups {| Backup.BACKUP_DIR :=
                            Some (after_failed_tar ev (Backup.files (backups w)));
                          Backup.PROTECTED_BACKUPS_FILE := Backup.PROTECTED_BACKUPS_FILE (backups w);
                          Backup.unlink_calls := Backup.unlink_calls (backups w);
                          Backup.log := Backup.log (backups w) |} w);
         JS.throw e
     | Ok (archive, stats) =>
         call JS.modify (fun w =>
           set_backups {| Backup.BACKUP_DIR := Some (<[archive := stats]> (Backup.files (backups w)));
                          Backup.PROTECTED_BACKUPS_FILE := Backup.PROTECTED_BACKUPS_FILE (backups w);
                          Backup.unlink_calls := Backup.unlink_calls (backups w);
                          Backup.log := Backup.log (backups w) |} w);
         call JS.log_info ("Backup created: " ++ archive);
         JS.ret archive
     end)
    (fun error =>
       call JS.log_error ("Failed to create backup: " ++ JS.message error);
       JS.throw error).

Definition in_history {A} (m : JS.M History.store A) : JS.M world A :=
  JS.zoom history set_history m.

Definition in_backups {A} (m : JS.M Backup.store A) : JS.M world A :=
  JS.zoom backups set_backups m.

Definition in_restart {A} (m : JS.M Restart.state A) : JS.M world A :=
  JS.zoom restart set_restart m.

Definition syncFromGitHub (ev : env) : JS.M world (option History.jsval) :=
  call JS.log_info "Starting GitHub sync...";
  await syncId <- in_history (History.addSyncEntry (started ev)
      {[ "type" := History.VStr (syncType ev);
         "branch" := History.VStr (branch ev);
         "commits" := History.VNum (commits ev);
         "message" := History.VStr "Sync started";
         "status" := History.VStr "in_progress" ]});
  call sendNotification "GitHub Sync Started";
  JS.try_catch
    ((* Step 1: Clean up any previous temp directory *)
     await stale <- JS.gets temp_exists;
     call (if stale then
             call JS.log_info "Cleaning up previous temp directory...";
             removeDirectory ev TEMP temp_exists (set_tempDir None)
           else JS.ret tt);
     (* Step 2: Create backup if enabled *)
     call (if BACKUP_ENABLED ev then
             call JS.log_info "Creating backup...";
             await backupPath <- createBackup ev;
             JS.log_info ("Backup created: " ++ backupPath)
           else JS.ret tt);
     (* Step 3: Clone repository to temp directory *)
     call JS.log_info "Cloning repository to temp directory...";
     call JS.try_catch
            (match clone ev with
             | Ok files =>
                 call JS.modify (set_tempDir (Some files));
                 JS.log_info "Repository cloned successfully"
             | Throw e => JS.throw e
             end)
            (fun error =>
               JS.throw (JS.Error ("Failed to clone repository: " ++ JS.message error)));
     (* Step 4: Remove .git directory from temp *)
     await hasGit <- JS.gets git_exists;
     call (if hasGit then removeDirectory ev GIT git_exists remove_git else JS.ret tt);
     (* Step 5: Validate configuration before applying *)
     call JS.log_info "Validating new configuration...";
     await oldValidation <- JS.gets validation_exists;
     call (if oldValidation
           then removeDirectory ev VALIDATION validation_exists (set_validationDir None)
           else JS.ret tt);
     call copyDirectory (rsync_current ev) false (fun w => Some (target w))
            validationDir (fun t => set_validationDir (Some t));
     call copyDirectory (rsync_new ev) true tempDir
            validationDir (fun t => set_validationDir (Some t));
     call JS.log_info "Basic validation passed";
     call removeDirectory ev VALIDATION validation_exists (set_validationDir None);
     (* Step 6: Apply changes atomically *)
     call JS.log_info "Applying changes to config directory...";
     call copyDirectory (rsync_apply ev) true tempDir
            (fun w => Some (target w)) set_target;
     call JS.log_info "Changes applied successfully";
     (* Step 7: Clean up temp directory *)
     call removeDirectory ev TEMP temp_exists (set_tempDir None);
     (* Step 8: Clean old backups if enabled *)
     call (if BACKUP_ENABLED ev
           then in_backups (Backup.cleanOldBackups (prune ev) (BACKUP_RETENTION ev))
           else JS.ret tt);
     (* Step 9: Schedule Home Assistant restart if enabled *)
     let restarted := bool_decide (Restart.AUTO_RESTART (restart_env ev) = Some "true") in
     call (if restarted
           then await _ <- in_restart (Restart.scheduleRestart (restart_env ev) 10);
                JS.ret tt
           else JS.ret tt);
     call in_history (History.updateSyncEntry (finished ev) syncId
            {[ "status" := History.VStr "success";
               "message" := History.VStr "Sync completed successfully";
               "duration" := History.VNum (duration ev);
               "backupCreated" := History.VBool (BACKUP_ENABLED ev) ]});
     call sendNotification "GitHub Sync Successful";
     call JS.log_info "GitHub sync completed successfully";
     JS.ret syncId)
    (fun error =>
       call JS.log_error ("Sync failed: " ++ JS.message error);
       await left <- JS.gets temp_exists;
       call (if left then removeDirectory ev TEMP temp_exists (set_tempDir None)
             else JS.ret tt);
       call in_history (History.updateSyncEntry (finished ev) syncId
              {[ "status" := History.VStr "failed";
                 "message" := History.VStr "Sync failed";
                 "error" := History.VStr (JS.message error);
                 "duration" := History.VNum (duration ev) ]});
       call sendNotification "GitHub Sync Failed";
       call JS.log_error "Sync failed - local configuration unchanged";
       JS.throw error).

End Pipeline.

(** ** Reading, updating and clearing the ledger (syncHistory.js) *)

Module HistoryQueries.

Import History.
Local Open Scope js_scope.

(** [e.status === v] *)
Definition has_status (v : string) (e : entry) : bool :=
  bool_decide (e !! "status" = Some (VStr v)).

(** The object [getStats] returns, but for [averageDuration], whose value
    is a floating-point quotient. *)
Record stats : Type := {
  total : nat;
  successful : nat;
  failed : nat;
  inProgress : nat;
  lastSync : option entry;
  lastSuccessfulSync : option entry
}.

Definition getStats : JS.M store stats :=
  await history <- loadHistory;
  match history with
  | LArray h =>
      JS.ret {| total := length h;
                successful := length (List.filter (has_status "success") h);
                failed := length (List.filter (has_status "failed") h);
                inProgress := length (List.filter (has_status "in_progress") h);
                lastSync := head h;
                lastSuccessfulSync := List.find (has_status "success") h |}
  | LOther => JS.throw (JS.TypeError "history.filter is not a function")
  end.

(** [xs.slice(0, end)] for an integer [end]. *)
Definition slice_to {A} (end_ : Z) (xs : list A) : list A :=
  let len := Z.of_nat (length xs) in
  take (Z.to_nat (if (end_ <? 0)%Z then Z.max (len + end_) 0 else Z.min end_ len)) xs.

(** [getRecentSyncs(limit)]; [limit] is the number [parseInt] gave the
    route, [None] standing for [NaN]. *)
Definition getRecentSyncs (limit : option Z) : JS.M store (list entry) :=
  await history <- loadHistory;
  match history with
  | LArray h => JS.ret (match limit with Some n => slice_to n h | None => [] end)
  | LOther => JS.throw (JS.TypeError "history.slice is not a function")
  end.

(** [clearHistory()]; [unlink_fails] tells whether [fs.unlink] fails. *)
Definition clearHistory (unlink_fails : bool) : JS.M store unit :=
  JS.try_catch
    (await s <- JS.get;
     call (if Fs.exists_ (HISTORY_FILE s) then
             if unlink_fails
             then JS.throw (JS.Error "EACCES: permission denied, unlink")
             else JS.modify (set_file Fs.Absent)
           else JS.ret tt);
     JS.log_info "Sync history cleared")
    (fun error =>
       call JS.log_error ("Failed to clear history: " ++ JS.message error);
       JS.throw error).

End HistoryQueries.

(** ** Unpinning and the latest backup (backup.js), with the routes of
    the protection list *)

Module Pins.

Import Backup.
Local Open Scope js_scope.

Definition unprotectBackup (ev : env) (backupPath : string) : JS.M store bool :=
  JS.try_catch
    (await protected <- loadProtectedBackups;
     match protected with
     | PArray names =>
         let filtered := filter (fun name => name <> backupPath) names in
         call (if negb (length filtered =? length names)%nat then
                 call saveProtectedBackups ev filtered;
                 JS.log_info ("Unprotected backup: " ++ backupPath)
               else JS.ret tt);
         JS.ret true
     | POther => JS.throw (JS.TypeError "protected.filter is not a function")
     end)
    (fun error =>
       call JS.log_error ("Failed to unprotect backup: " ++ JS.message error);
       JS.throw error).

(** [backups.length > 0 ? backups[0] : null] *)
Definition getLatestBackup (ev : env) : JS.M store (option backup) :=
  await backups <- listBackups ev;
  JS.ret (head backups).


Definition unprotect_route (ev : env) (filename : string) : JS.M store response :=
  JS.try_catch
    (await _ <- unprotectBackup ev filename;
     JS.ret (Json200 "Backup unprotected"))
    (fun error =>
       call JS.log_error ("Failed to unprotect backup: " ++ JS.message error);
       JS.ret (Json500 (JS.message error))).

End Pins.

(** ** Sequences of restart calls (restartManager.js) *)

Module RestartTrace.

Import Restart.

(** What can happen to the restart manager, one event after the other: a
    call of one of its three functions, or an armed timeout firing. *)
Inductive event : Type :=
| Schedule (ev : env) (delaySeconds : Z)
| Cancel
| Status (ev : env)
| Fire (t : nat) (outcome : JS.result unit).

Definition step (s : state) (e : event) : state :=
  match e with
  | Schedule ev d => snd (scheduleRestart ev d s)
  | Cancel => snd (cancelRestart s)
  | Status ev => snd (getRestartStatus ev s)
  | Fire t outcome => snd (fire t outcome s)
  end.

Definition run (events : list event) : state := foldl step initial events.

End RestartTrace.

(** ** Rollback (backup.js) and its route *)

Module Rollback.

Import Pipeline.
Local Open Scope js_scope.

(** How [tar -xzf] ends: to completion, or with an error after the files
    [done] were written. *)
Inductive tar_outcome : Type :=
| Extracted
| Broken (done : gset string).

(** One rollback's surroundings: those of the pipeline (the outcome of
    [tar -czf] for the safety backup, the failing [stat] calls), the files
    each archive of the backup directory holds, and the outcome of the
    extraction. The archive names [createBackup] makes carry the time of
    the call: the safety backup is a new file of the directory. *)
Record env : Type := {
  sync : Pipeline.env;
  archive_content : string -> tree;
  tar_x : tar_outcome
}.

(** The files below the target after [tar -xzf archive -C target], for an
    archive and a target that are [collision_free]: those of the archive
    over what was there. *)
Definition extract (outcome : tar_outcome) (content dst : tree) : tree :=
  match outcome with
  | Extracted => content
  | Broken done => filter (fun kv => fst kv ∈ done) content
  end ∪ dst.

(** [restoreBackup(backupPath, targetPath)] for a path of the backup
    directory. *)
Definition restoreBackup (ev : env) (backupPath : string) : JS.M world bool :=
  JS.try_catch
    (await present <- in_backups (Backup.exists_ backupPath);
     if negb present then JS.throw (JS.Error ("Backup not found: " ++ backupPath))
     else
       call JS.log_info ("Restoring backup: " ++ backupPath);
       call JS.modify (fun w =>
              set_target (extract (tar_x ev) (archive_content ev backupPath) (target w)) w);
       match tar_x ev with
       | Extracted =>
           call JS.log_info "Backup restored successfully";
           JS.ret true
       | Broken _ => JS.throw (JS.Error "tar: Error is not recoverable: exiting now")
       end)
    (fun error =>
       call JS.log_error ("Failed to restore backup: " ++ JS.message error);
       JS.throw error).

(** The object [rollbackToBackup] returns. *)
Record rollback_result : Type := {
  backupUsed : string;
  safetyBackup : string
}.

(** [rollbackToBackup(backupPath)]; [None] and the empty string are the
    falsy values of [!backupPath]. A path names a file of the backup
    directory or no file at all. *)
Definition rollbackToBackup (ev : env) (backupPath : option string)
  : JS.M world rollback_result :=
  JS.try_catch
    (await backupPath <-
       match backupPath with
       | Some (String c p) => JS.ret (String c p)
       | _ =>
           await latest <- in_backups (Pins.getLatestBackup (prune (sync ev)));
           match latest with
           | None => JS.throw (JS.Error "No backups available")
           | Some b =>
               call JS.log_info ("Using latest backup: " ++ Backup.name b);
               JS.ret (Backup.path b)
           end
       end;
     await present <- in_backups (Backup.exists_ backupPath);
     if negb present then JS.throw (JS.Error ("Backup not found: " ++ backupPath))
     else
       call JS.log_info "Creating safety backup before rollback...";
       await safetyBackup <- createBackup (sync ev);
       call JS.log_info ("Rolling back to: " ++ backupPath);
       await _ <- restoreBackup ev backupPath;
       call JS.log_info "Rollback completed successfully";
       JS.ret {| backupUsed := backupPath; safetyBackup := safetyBackup |})
    (fun error =>
       call JS.log_error ("Rollback failed: " ++ JS.message error);
       JS.throw error).



End Rollback.

(** ** The webhook route *)

Module Server.

Import Webhook Pipeline.
Local Open Scope js_scope.

(** [s.replace(pattern, '')] for a string [pattern]: the first occurrence,
    if there is one, is cut out. *)
Definition replace_first (pattern s : string) : string :=
  match String.index 0 pattern s with
  | Some i =>
      substring 0 i s
      ++ substring (i + String.length pattern)
           (String.length s - (i + String.length pattern)) s
  | None => s
  end.

(** [payload.ref]: missing or null, a string, or another JSON value. *)
Inductive ref_value : Type :=
| RefMissing
| RefString (s : string)
| RefOther.

(** What the [/webhook] route reads of a request: the signature header
    and the recorded body text, the event header, [payload.ref] and the
    number [payload.commits?.length || 0]. *)
Record webhook_request : Type := {
  signed : request;
  x_github_event : option string;
  payload_ref : ref_value;
  payload_commits : Z
}.

(** [res.status(status).json({ message | error })] *)
Inductive reply : Type := Reply (status : Z) (text : string).

(** The surroundings of a pipeline run started as [syncFromGitHub(syncType,
    { commits })]. *)
Definition triggered (ev : Pipeline.env) (type : string) (count : Z) : Pipeline.env :=
  {| BACKUP_ENABLED := BACKUP_ENABLED ev; branch := branch ev; commits := count;
     syncType := type; started := started ev; finished := finished ev;
     duration := duration ev; rm_fails := rm_fails ev; tar := tar ev;
     tar_leftover := tar_leftover ev; clone := clone ev;
     rsync_current := rsync_current ev; rsync_new := rsync_new ev;
     rsync_apply := rsync_apply ev; prune := prune ev;
     BACKUP_RETENTION := BACKUP_RETENTION ev; restart_env := restart_env ev |}.

(** [payload.ref?.replace('refs/heads/', '')]; [None] is [undefined]. *)
Definition pushed_branch (r : ref_value) : JS.result (option string) :=
  match r with
  | RefMissing => Ok None
  | RefString s => Ok (Some (replace_first "refs/heads/" s))
  | RefOther => Throw (JS.TypeError "payload.ref?.replace is not a function")
  end.

(** The route [POST /webhook]. The answer 202 is sent before the pipeline
    runs; nothing after it can fail. [branch ev] is
    [process.env.GIT_BRANCH || 'main']. *)
Definition webhook_route (ev : Pipeline.env) (WEBHOOK_SECRET : option jsstring)
    (req : webhook_request) : JS.M world reply :=
  JS.try_catch
    (call JS.log_info "Received webhook request";
     match verifyGitHubSignature (signed req) WEBHOOK_SECRET with
     | Throw e => JS.throw e
     | Ok false =>
         call JS.log_error "Invalid webhook signature";
         JS.ret (Reply 401 "Invalid signature")
     | Ok true =>
         call JS.log_info "GitHub event";
         if negb (bool_decide (x_github_event req = Some "push")) then
           call JS.log_info "Ignoring event type";
           JS.ret (Reply 200 "Event ignored")
         else
           match pushed_branch (payload_ref req) with
           | Throw e => JS.throw e
           | Ok pushed =>
               if negb (bool_decide (pushed = Some (branch ev))) then
                 call JS.log_info "Ignoring push to branch";
                 JS.ret (Reply 200 "Branch ignored")
               else
                 call JS.log_info "Processing push";
                 call JS.try_catch
                        (await _ <- syncFromGitHub (triggered ev "webhook" (payload_commits req));
                         JS.log_info "Sync completed successfully")
                        (fun error => JS.log_error ("Sync failed: " ++ JS.message error));
                 JS.ret (Reply 202 "Sync started")
           end
     end)
    (fun error =>
       call JS.log_error ("Webhook handler error: " ++ JS.message error);
       JS.ret (Reply 500 "Internal server error")).

End Server.

(** * Verified properties *)

(** ** Reasoning about computations

    [triple P m Q E]: from a store satisfying [P], [m] either returns [a]
    in a store satisfying [Q a] or throws [e] in a store satisfying [E e]. *)

Section Triples.

Context {S : Type}.

Definition triple {A} (P : S -> Prop) (m : JS.M S A)
    (Q : A -> S -> Prop) (E : JS.error -> S -> Prop) : Prop :=
  forall s, P s ->
    match m s with
    | (Ok a, s') => Q a s'
    | (Throw e, s') => E e s'
    end.

Lemma triple_run {A} P (m : JS.M S A) Q E s :
  triple P m Q E -> P s ->
  match fst (m s) with
  | Ok a => Q a (snd (m s))
  | Throw e => E e (snd (m s))
  end.
Proof. intros H Hs. specialize (H s Hs). now destruct (m s) as [[a|e] s']. Qed.

Lemma triple_conseq {A} (P P' : S -> Prop) (m : JS.M S A) (Q Q' : A -> S -> Prop) E E' :
  triple P' m Q' E' ->
  (forall s, P s -> P' s) -> (forall a s, Q' a s -> Q a s) ->
  (forall e s, E' e s -> E e s) ->
  triple P m Q E.
Proof.
  intros H HP HQ HE s Hs. specialize (H s (HP s Hs)).
  destruct (m s) as [[a|e] s']; auto.
Qed.

Lemma triple_ret {A} (P : S -> Prop) (a : A) (Q : A -> S -> Prop) E :
  (forall s, P s -> Q a s) -> triple P (JS.ret a) Q E.
Proof. intros H s Hs. now apply H. Qed.

Lemma triple_throw {A} (P : S -> Prop) e (Q : A -> S -> Prop) (E : JS.error -> S -> Prop) :
  (forall s, P s -> E e s) -> triple P (JS.throw e) Q E.
Proof. intros H s Hs. now apply H. Qed.

Lemma triple_bind {A B} P (m : JS.M S A) (k : A -> JS.M S B) R Q E :
  triple P m R E -> (forall a, triple (R a) (k a) Q E) ->
  triple P (JS.bind m k) Q E.
Proof.
  intros Hm Hk s Hs. unfold JS.bind. specialize (Hm s Hs).
  destruct (m s) as [[a|e] s']; [now apply Hk | exact Hm].
Qed.

Lemma triple_try_catch {A} P (m : JS.M S A) (h : JS.error -> JS.M S A) Q E' E :
  triple P m Q E' -> (forall e, triple (E' e) (h e) Q E) ->
  triple P (JS.try_catch m h) Q E.
Proof.
  intros Hm Hh s Hs. unfold JS.try_catch. specialize (Hm s Hs).
  destruct (m s) as [[a|e] s']; [exact Hm | now apply Hh].
Qed.

Lemma triple_get (P : S -> Prop) E :
  triple P JS.get (fun a s => a = s /\ P s) E.
Proof. intros s Hs. now split. Qed.

Lemma triple_gets {A} (f : S -> A) (P : S -> Prop) E :
  triple P (JS.gets f) (fun a s => a = f s /\ P s) E.
Proof. intros s Hs. now split. Qed.

Lemma triple_modify (f : S -> S) (P : S -> Prop) (Q : unit -> S -> Prop) E :
  (forall s, P s -> Q tt (f s)) -> triple P (JS.modify f) Q E.
Proof. intros H s Hs. now apply H. Qed.

Lemma triple_fold_of {A B} (I : S -> Prop) (xs : list A) (body : A -> B -> JS.M S B) E :
  (forall x acc, x ∈ xs -> triple I (body x acc) (fun _ => I) E) ->
  forall acc, triple I (JS.fold_of xs body acc) (fun _ => I) E.
Proof.
  induction xs as [|x xs IH]; intros H acc.
  - now apply triple_ret.
  - cbn [JS.fold_of]. eapply triple_bind; [apply H; constructor|].
    intros acc'. apply IH. intros y acc'' Hy. apply H. now constructor.
Qed.

Lemma triple_for_of {A} (I : S -> Prop) (xs : list A) (body : A -> JS.M S unit) E :
  (forall x, x ∈ xs -> triple I (body x) (fun _ => I) E) ->
  triple I (JS.for_of xs body) (fun _ => I) E.
Proof.
  induction xs as [|x xs IH]; intros H.
  - now apply triple_ret.
  - cbn [JS.for_of]. eapply triple_bind; [apply H; constructor|].
    intros u. apply IH. intros y Hy. apply H. now constructor.
Qed.

Lemma triple_pure {A} (phi : Prop) (P : S -> Prop) (m : JS.M S A) Q E :
  (phi -> triple P m Q E) -> triple (fun s => phi /\ P s) m Q E.
Proof. intros H s [Hphi Hs]. now apply H. Qed.

Lemma triple_zoom {T A} (proj : S -> T) (upd : T -> S -> S) (m : JS.M T A)
    (I : S -> Prop) :
  (forall t s, I s -> I (upd t s)) ->
  triple I (JS.zoom proj upd m) (fun _ => I) (fun _ => I).
Proof.
  intros H s Hs. unfold JS.zoom. destruct (m (proj s)) as [[a|e] t]; now apply H.
Qed.

Lemma triple_if {A} (b : bool) (m1 m2 : JS.M S A) P Q E :
  triple P m1 Q E -> triple P m2 Q E -> triple P (if b then m1 else m2) Q E.
Proof. now destruct b. Qed.

Context `{JS.Logging S}.

Lemma triple_log_info msg (P : S -> Prop) (Q : unit -> S -> Prop) E :
  (forall s, P s -> Q tt (JS.append_log (JS.INFO, msg) s)) ->
  triple P (JS.log_info msg) Q E.
Proof. apply triple_modify. Qed.

Lemma triple_log_error msg (P : S -> Prop) (Q : unit -> S -> Prop) E :
  (forall s, P s -> Q tt (JS.append_log (JS.ERROR, msg) s)) ->
  triple P (JS.log_error msg) Q E.
Proof. apply triple_modify. Qed.

Lemma triple_log_warn msg (P : S -> Prop) (Q : unit -> S -> Prop) E :
  (forall s, P s -> Q tt (JS.append_log (JS.WARN, msg) s)) ->
  triple P (JS.log_warn msg) Q E.
Proof. apply triple_modify. Qed.

End Triples.

(** ** Webhook signature verification *)

Section WebhookFacts.

Import Webhook.
Local Open Scope Z_scope.

Definition is_byte (b : Z) : Prop := 0 <= b < 256.
Definition is_ascii (c : Z) : Prop := 0 <= c < 128.

Example toString_ascii :
  Buffer_toString (js "{}") = js "{}".
Proof. reflexivity. Qed.

Example toString_e_acute :
  Buffer_toString [0xC3; 0xA9] = [0xE9] /\ Buffer_from [0xE9] = [0xC3; 0xA9].
Proof. split; reflexivity. Qed.

Example toString_emoji :
  Buffer_toString [0xF0; 0x9F; 0x98; 0x80] = [0xD83D; 0xDE00]
  /\ Buffer_from [0xD83D; 0xDE00] = [0xF0; 0x9F; 0x98; 0x80].
Proof. split; reflexivity. Qed.

Example toString_ill_formed :
  Buffer_toString [0x61; 0xFF; 0xE2; 0x82; 0x62] = [0x61; 0xFFFD; 0xFFFD; 0x62].
Proof. reflexivity. Qed.

Example sha256_abc :
hex (sha256 (js "abc"))
= js "ba7816bf8f01cfea414140de5dae2223b00361a396177a9cb410ff61f20015ad".
Proof. vm_compute. reflexivity. Qed.

Example hmac_sha256_fox :
hex (hmac_sha256 (js "key")
               (js "The quick brown fox jumps over the lazy dog"))
= js "f7bc83f430538424b13298e6aa6fb143ef4d59a14946175997479dbc2d1a3cd8".
Proof. vm_compute. reflexivity. Qed.


Lemma testbit7_ascii c : is_ascii c -> Z.testbit c 7 = false.
Proof.
  intros [H0 H1]. apply Z.testbit_false; [lia|].
  rewrite Z.div_small by (change (2 ^ 7) with 128; lia). reflexivity.
Qed.

Lemma lor_high_not_ascii m y : Z.testbit m 7 = true -> ~ is_ascii (Z.lor m y).
Proof.
  intros Hm Ha. apply testbit7_ascii in Ha.
  rewrite Z.lor_spec, Hm in Ha. discriminate.
Qed.

Lemma Buffer_from_ascii s : Forall is_ascii s -> Buffer_from s = s.
Proof.
  induction 1 as [|c s [H0 H1] _ IH]; [reflexivity|].
  simpl. destruct (Z.ltb_spec c 0x80); [|lia]. now rewrite IH.
Qed.

Lemma Buffer_from_inv_ascii s : forall t,
  Forall is_ascii t -> Buffer_from s = t -> s = t.
Proof.
  induction s as [|c s IH]; intros t Ht E; [exact E|].
  assert (Hhigh : forall m y l, Z.testbit m 7 = true -> Z.lor m y :: l = t -> False).
  { intros m y l Hm <-. inversion Ht; subst. eapply lor_high_not_ascii; eauto. }
  simpl in E. destruct (c <? 0x80).
  - destruct t as [|d t]; [discriminate|]. injection E as -> E.
    inversion Ht; subst. f_equal. now apply IH.
  - exfalso. destruct (c <? 0x800); [eapply Hhigh; [|exact E]; reflexivity|].
    destruct (is_high_surrogate c).
    + destruct s as [|d s']; [eapply Hhigh; [|exact E]; reflexivity|].
      destruct (is_low_surrogate d); eapply Hhigh; try exact E; reflexivity.
    + destruct (is_low_surrogate c); eapply Hhigh; try exact E; reflexivity.
Qed.

Lemma be_bytes_length n x : length (be_bytes n x) = n.
Proof. induction n; simpl; congruence. Qed.

Lemma be_bytes_range n x : Forall is_byte (be_bytes n x).
Proof.
  induction n; simpl; constructor; [|assumption].
  unfold is_byte. change 0xFF with (Z.ones 8). rewrite Z.land_ones by lia.
  apply Z.mod_pos_bound. reflexivity.
Qed.

Lemma round_length st kw : length st = 8%nat -> length (round st kw) = 8%nat.
Proof.
  intros H. do 9 (destruct st as [|? st]; try discriminate H). reflexivity.
Qed.

Lemma fold_round_length l : forall st,
  length st = 8%nat -> length (fold_left round l st) = 8%nat.
Proof.
  induction l as [|kw l IH]; intros st H; [exact H|].
  simpl. apply IH. now apply round_length.
Qed.

Lemma compress_length h b : length h = 8%nat -> length (compress h b) = 8%nat.
Proof.
  intros H. unfold compress.
  rewrite length_map, length_combine, fold_round_length, H by exact H.
  reflexivity.
Qed.

Lemma fold_compress_length bl : forall h,
  length h = 8%nat -> length (fold_left compress bl h) = 8%nat.
Proof.
  induction bl as [|b bl IH]; intros h H; [exact H|].
  simpl. apply IH. now apply compress_length.
Qed.

Lemma flat_map_be_bytes_length (h : list Z) :
  length (flat_map (be_bytes 4) h) = (4 * length h)%nat.
Proof.
  induction h as [|x h IH]; [reflexivity|].
  change (flat_map (be_bytes 4) (x :: h)) with (be_bytes 4 x ++ flat_map (be_bytes 4) h).
  rewrite length_app, be_bytes_length, IH. simpl. lia.
Qed.

Lemma sha256_length msg : length (sha256 msg) = 32%nat.
Proof.
  unfold sha256. rewrite flat_map_be_bytes_length, fold_compress_length; reflexivity.
Qed.

Lemma sha256_bytes msg : Forall is_byte (sha256 msg).
Proof.
  unfold sha256. generalize (fold_left compress
    (blocks (length (words (length (pad msg)) (pad msg))) (words (length (pad msg)) (pad msg))) H256).
  intros h. induction h as [|x h IH]; [constructor|].
  change (flat_map (be_bytes 4) (x :: h)) with (be_bytes 4 x ++ flat_map (be_bytes 4) h).
  apply Forall_app. split; [apply be_bytes_range | exact IH].
Qed.

Lemma hmac_sha256_length key msg : length (hmac_sha256 key msg) = 32%nat.
Proof. apply sha256_length. Qed.

Lemma hmac_sha256_bytes key msg : Forall is_byte (hmac_sha256 key msg).
Proof. apply sha256_bytes. Qed.

Lemma hex_length bs : length (hex bs) = (2 * length bs)%nat.
Proof. induction bs as [|b bs IH]; simpl; [reflexivity|]. rewrite IH. lia. Qed.

Lemma hex_digit_ascii n : 0 <= n < 16 -> is_ascii (hex_digit n).
Proof. intros H. unfold hex_digit, is_ascii. destruct (n <? 10); lia. Qed.

Lemma hex_ascii bs : Forall is_byte bs -> Forall is_ascii (hex bs).
Proof.
  induction 1 as [|b bs [H0 H1] _ IH]; [constructor|].
  simpl. constructor; [|constructor; [|exact IH]]; apply hex_digit_ascii.
  - rewrite Z.shiftr_div_pow2 by lia. change (2 ^ 4) with 16.
    split; [apply Z.div_pos; lia | apply Z.div_lt_upper_bound; lia].
  - change 0xF with (Z.ones 4). rewrite Z.land_ones by lia.
    apply Z.mod_pos_bound. reflexivity.
Qed.

Lemma calculatedSignature_ascii secret body :
  Forall is_ascii (calculatedSignature secret body).
Proof.
  unfold calculatedSignature. apply Forall_app. split.
  - repeat constructor; unfold is_ascii; simpl; lia.
  - apply hex_ascii, hmac_sha256_bytes.
Qed.

Lemma calculatedSignature_length secret body :
  length (calculatedSignature secret body) = 71%nat.
Proof.
  unfold calculatedSignature.
  rewrite length_app, hex_length, hmac_sha256_length. reflexivity.
Qed.

Lemma Buffer_from_calculatedSignature secret body :
  Buffer_from (calculatedSignature secret body) = calculatedSignature secret body.
Proof. apply Buffer_from_ascii, calculatedSignature_ascii. Qed.

Lemma Buffer_toString_ascii bs : Forall is_ascii bs -> Buffer_toString bs = bs.
Proof.
  unfold Buffer_toString.
  induction 1 as [|b bs [H0 H1] _ IH]; [reflexivity|].
  simpl. unfold decode_lead. destruct (Z.leb_spec b 0x7F); [|lia].
  simpl. now rewrite IH.
Qed.

(** Bit operations of the encoder and the decoder as arithmetic. *)
Lemma lor_shifted a k x :
  0 <= k -> 0 <= x < 2 ^ k -> Z.lor (a * 2 ^ k) x = a * 2 ^ k + x.
Proof.
  intros Hk Hx.
  assert (Hl : Z.land (a * 2 ^ k) x = 0).
  { apply Z.bits_inj'. intros n Hn. rewrite Z.land_spec, Z.bits_0.
    destruct (Z.lt_ge_cases n k).
    - now rewrite Z.mul_pow2_bits_low by lia.
    - rewrite <- (Z.mod_small x (2 ^ k)) by lia.
      rewrite Z.mod_pow2_bits_high by lia. apply andb_false_r. }
  now rewrite <- Z.lxor_lor, <- Z.add_nocarry_lxor.
Qed.

Lemma lor_add c x k :
  0 <= k -> c mod 2 ^ k = 0 -> 0 <= x < 2 ^ k -> Z.lor c x = c + x.
Proof.
  intros Hk Hc Hx. rewrite (Z.div_mod c (2 ^ k)) at 1 2 by lia.
  rewrite Hc, Z.add_0_r, (Z.mul_comm (2 ^ k)). now apply lor_shifted.
Qed.

Lemma land_3F x : Z.land x 0x3F = x mod 64.
Proof. change 0x3F with (Z.ones 6). now rewrite Z.land_ones. Qed.
Lemma land_1F x : Z.land x 0x1F = x mod 32.
Proof. change 0x1F with (Z.ones 5). now rewrite Z.land_ones. Qed.
Lemma land_F x : Z.land x 0xF = x mod 16.
Proof. change 0xF with (Z.ones 4). now rewrite Z.land_ones. Qed.
Lemma land_7 x : Z.land x 0x7 = x mod 8.
Proof. change 0x7 with (Z.ones 3). now rewrite Z.land_ones. Qed.
Lemma land_3FF x : Z.land x 0x3FF = x mod 1024.
Proof. change 0x3FF with (Z.ones 10). now rewrite Z.land_ones. Qed.
Lemma shiftr_6 x : Z.shiftr x 6 = x / 64.
Proof. now rewrite Z.shiftr_div_pow2. Qed.
Lemma shiftr_10 x : Z.shiftr x 10 = x / 1024.
Proof. now rewrite Z.shiftr_div_pow2. Qed.
Lemma shiftr_12 x : Z.shiftr x 12 = x / 4096.
Proof. now rewrite Z.shiftr_div_pow2. Qed.
Lemma shiftr_18 x : Z.shiftr x 18 = x / 262144.
Proof. now rewrite Z.shiftr_div_pow2. Qed.
Lemma shiftl_6 x : Z.shiftl x 6 = x * 64.
Proof. now rewrite Z.shiftl_mul_pow2. Qed.
Lemma shiftl_10 x : Z.shiftl x 10 = x * 1024.
Proof. now rewrite Z.shiftl_mul_pow2. Qed.

Lemma lor_64 a x : 0 <= x < 64 -> Z.lor (a * 64) x = a * 64 + x.
Proof. intros H. now apply (lor_shifted a 6 x). Qed.
Lemma lor_80 x : 0 <= x < 64 -> Z.lor 0x80 x = 128 + x.
Proof. intros H. now apply (lor_add 0x80 x 6). Qed.
Lemma lor_C0 x : 0 <= x < 32 -> Z.lor 0xC0 x = 192 + x.
Proof. intros H. apply (lor_add 0xC0 x 5); [lia|reflexivity|exact H]. Qed.
Lemma lor_E0 x : 0 <= x < 16 -> Z.lor 0xE0 x = 224 + x.
Proof. intros H. apply (lor_add 0xE0 x 4); [lia|reflexivity|exact H]. Qed.
Lemma lor_F0 x : 0 <= x < 8 -> Z.lor 0xF0 x = 240 + x.
Proof. intros H. apply (lor_add 0xF0 x 3); [lia|reflexivity|exact H]. Qed.


Ltac decide_cmp :=
  repeat match goal with
  | |- context [?a <=? ?b] =>
      (rewrite (proj2 (Z.leb_le a b)) by lia) || (rewrite (proj2 (Z.leb_gt a b)) by lia)
  | |- context [?a <? ?b] =>
      (rewrite (proj2 (Z.ltb_lt a b)) by lia) || (rewrite (proj2 (Z.ltb_ge a b)) by lia)
  | |- context [?a =? ?b] =>
      (rewrite (proj2 (Z.eqb_eq a b)) by lia) || (rewrite (proj2 (Z.eqb_neq a b)) by lia)
  end; cbn [andb orb negb].

Ltac div_mod_lia := Z.div_mod_to_equations; lia.

(** Well-formed UTF-8 byte sequences (Unicode, table 3-7). *)
Definition continuation (b : Z) : Prop := 0x80 <= b <= 0xBF.

Inductive well_formed : buffer -> Prop :=
| wf_nil : well_formed []
| wf_1 b r : 0 <= b <= 0x7F -> well_formed r -> well_formed (b :: r)
| wf_2 b1 b2 r :
    0xC2 <= b1 <= 0xDF -> continuation b2 -> well_formed r ->
    well_formed (b1 :: b2 :: r)
| wf_3 b1 b2 b3 r :
    0xE0 <= b1 <= 0xEF ->
    (if b1 =? 0xE0 then 0xA0 else 0x80) <= b2 <= (if b1 =? 0xED then 0x9F else 0xBF) ->
    continuation b3 -> well_formed r ->
    well_formed (b1 :: b2 :: b3 :: r)
| wf_4 b1 b2 b3 b4 r :
    0xF0 <= b1 <= 0xF4 ->
    (if b1 =? 0xF0 then 0x90 else 0x80) <= b2 <= (if b1 =? 0xF4 then 0x8F else 0xBF) ->
    continuation b3 -> continuation b4 -> well_formed r ->
    well_formed (b1 :: b2 :: b3 :: b4 :: r).

(** The code points that two, three and four bytes carry. *)
Definition cp2 (b1 b2 : Z) : Z := (b1 mod 32) * 64 + b2 mod 64.
Definition cp3 (b1 b2 b3 : Z) : Z := ((b1 mod 16) * 64 + b2 mod 64) * 64 + b3 mod 64.
Definition cp4 (b1 b2 b3 b4 : Z) : Z :=
  (((b1 mod 8) * 64 + b2 mod 64) * 64 + b3 mod 64) * 64 + b4 mod 64.

(** The decoder on one well-formed sequence. *)
Lemma decode_1 b r : b <= 0x7F -> decode Idle (b :: r) = b :: decode Idle r.
Proof. intros H. cbn [decode decode_byte]. unfold decode_lead. decide_cmp. reflexivity. Qed.

Lemma decode_2 b1 b2 r :
  0xC2 <= b1 <= 0xDF -> continuation b2 ->
  decode Idle (b1 :: b2 :: r) = utf16 (cp2 b1 b2) ++ decode Idle r.
Proof.
  unfold continuation. intros H1 H2. cbn [decode decode_byte]. unfold decode_lead. decide_cmp.
  cbn [app decode decode_byte]. decide_cmp.
  rewrite land_1F, land_3F, shiftl_6, lor_64 by div_mod_lia. reflexivity.
Qed.

Lemma decode_3 b1 b2 b3 r :
  0xE0 <= b1 <= 0xEF ->
  (if b1 =? 0xE0 then 0xA0 else 0x80) <= b2 <= (if b1 =? 0xED then 0x9F else 0xBF) ->
  continuation b3 ->
  decode Idle (b1 :: b2 :: b3 :: r) = utf16 (cp3 b1 b2 b3) ++ decode Idle r.
Proof.
  unfold continuation. intros H1 H2 H3. cbn [decode decode_byte]. unfold decode_lead.
  destruct (Z.eqb_spec b1 0xE0), (Z.eqb_spec b1 0xED); try lia; decide_cmp;
    cbn [app decode decode_byte]; decide_cmp; cbn [app decode decode_byte]; decide_cmp;
    rewrite land_F, !land_3F, !shiftl_6, !lor_64 by div_mod_lia; reflexivity.
Qed.

Lemma decode_4 b1 b2 b3 b4 r :
  0xF0 <= b1 <= 0xF4 ->
  (if b1 =? 0xF0 then 0x90 else 0x80) <= b2 <= (if b1 =? 0xF4 then 0x8F else 0xBF) ->
  continuation b3 -> continuation b4 ->
  decode Idle (b1 :: b2 :: b3 :: b4 :: r) = utf16 (cp4 b1 b2 b3 b4) ++ decode Idle r.
Proof.
  unfold continuation. intros H1 H2 H3 H4. cbn [decode decode_byte]. unfold decode_lead.
  destruct (Z.eqb_spec b1 0xF0), (Z.eqb_spec b1 0xF4); try lia; decide_cmp;
    cbn [app decode decode_byte]; decide_cmp; cbn [app decode decode_byte]; decide_cmp;
    cbn [app decode decode_byte]; decide_cmp;
    rewrite land_7, !land_3F, !shiftl_6, !lor_64 by div_mod_lia; reflexivity.
Qed.

(** The encoder on the code units of one decoded code point. *)
Lemma encode_2 b1 b2 s :
  0xC2 <= b1 <= 0xDF -> continuation b2 ->
  Buffer_from (utf16 (cp2 b1 b2) ++ s) = b1 :: b2 :: Buffer_from s.
Proof.
  unfold continuation, cp2, utf16. intros H1 H2.
  set (cp := b1 mod 32 * 64 + b2 mod 64).
  assert (Hc : 0x80 <= cp < 0x800 /\ 192 + cp / 64 = b1 /\ 128 + cp mod 64 = b2)
    by (subst cp; div_mod_lia).
  destruct Hc as (Hr & E1 & E2). decide_cmp. cbn [app Buffer_from]. decide_cmp.
  rewrite shiftr_6, land_3F, lor_C0, lor_80 by div_mod_lia. now rewrite E1, E2.
Qed.

Lemma encode_3 b1 b2 b3 s :
  0xE0 <= b1 <= 0xEF ->
  (if b1 =? 0xE0 then 0xA0 else 0x80) <= b2 <= (if b1 =? 0xED then 0x9F else 0xBF) ->
  continuation b3 ->
  Buffer_from (utf16 (cp3 b1 b2 b3) ++ s) = b1 :: b2 :: b3 :: Buffer_from s.
Proof.
  unfold continuation, cp3, utf16. intros H1 H2 H3.
  set (cp := (b1 mod 16 * 64 + b2 mod 64) * 64 + b3 mod 64).
  assert (Hc : 0x800 <= cp < 0x10000 /\ (cp < 0xD800 \/ 0xDFFF < cp)
               /\ 224 + cp / 4096 = b1 /\ 128 + (cp / 64) mod 64 = b2
               /\ 128 + cp mod 64 = b3).
  { subst cp. destruct (Z.eqb_spec b1 0xE0), (Z.eqb_spec b1 0xED); div_mod_lia. }
  destruct Hc as (Hr & Hs & E1 & E2 & E3). decide_cmp. cbn [app Buffer_from]. decide_cmp.
  unfold is_high_surrogate, is_low_surrogate.
  assert (E : utf8_3 cp = [b1; b2; b3]).
  { unfold utf8_3.
    rewrite shiftr_6, shiftr_12, !land_3F, lor_E0, !lor_80 by div_mod_lia.
    now rewrite E1, E2, E3. }
  destruct Hs; decide_cmp; now rewrite E.
Qed.

Lemma encode_4 b1 b2 b3 b4 s :
  0xF0 <= b1 <= 0xF4 ->
  (if b1 =? 0xF0 then 0x90 else 0x80) <= b2 <= (if b1 =? 0xF4 then 0x8F else 0xBF) ->
  continuation b3 -> continuation b4 ->
  Buffer_from (utf16 (cp4 b1 b2 b3 b4) ++ s) = b1 :: b2 :: b3 :: b4 :: Buffer_from s.
Proof.
  unfold continuation, cp4, utf16. intros H1 H2 H3 H4.
  set (cp := ((b1 mod 8 * 64 + b2 mod 64) * 64 + b3 mod 64) * 64 + b4 mod 64).
  assert (Hc : 0x10000 <= cp < 0x110000
               /\ 240 + cp / 262144 = b1 /\ 128 + (cp / 4096) mod 64 = b2
               /\ 128 + (cp / 64) mod 64 = b3 /\ 128 + cp mod 64 = b4).
  { subst cp. destruct (Z.eqb_spec b1 0xF0), (Z.eqb_spec b1 0xF4); div_mod_lia. }
  destruct Hc as (Hr & E1 & E2 & E3 & E4). decide_cmp.
  rewrite shiftr_10, land_3FF.
  set (hi := 0xD800 + (cp - 0x10000) / 1024).
  set (lo := 0xDC00 + (cp - 0x10000) mod 1024).
  assert (Hh : 0xD800 <= hi <= 0xDBFF) by (subst hi; div_mod_lia).
  assert (Hl : 0xDC00 <= lo <= 0xDFFF) by (subst lo; div_mod_lia).
  assert (Hcp : 0x10000 + Z.shiftl (hi - 0xD800) 10 + (lo - 0xDC00) = cp)
    by (rewrite shiftl_10; subst hi lo; div_mod_lia).
  cbn [app Buffer_from]. unfold is_high_surrogate, is_low_surrogate. decide_cmp.
  rewrite Hcp. unfold utf8_4.
  rewrite shiftr_6, shiftr_12, shiftr_18, !land_3F, lor_F0, !lor_80 by div_mod_lia.
  now rewrite E1, E2, E3, E4.
Qed.

(** Decoding a well-formed UTF-8 body and encoding the text again gives the
    bytes of the body: [hmac.update(req.rawBody)] then digests the body
    that was sent. *)
Lemma Buffer_round_trip bs :
  well_formed bs -> Buffer_from (Buffer_toString bs) = bs.
Proof.
  unfold Buffer_toString.
  induction 1 as [|b r Hb _ IH|b1 b2 r H1 H2 _ IH|b1 b2 b3 r H1 H2 H3 _ IH
                 |b1 b2 b3 b4 r H1 H2 H3 H4 _ IH].
  - reflexivity.
  - rewrite decode_1 by lia. cbn [Buffer_from]. decide_cmp. now rewrite IH.
  - rewrite decode_2, encode_2 by assumption. now rewrite IH.
  - rewrite decode_3, encode_3 by assumption. now rewrite IH.
  - rewrite decode_4, encode_4 by assumption. now rewrite IH.
Qed.

Lemma ascii_well_formed bs : Forall is_ascii bs -> well_formed bs.
Proof.
  induction 1 as [|b bs [H0 H1] _ IH]; [constructor|].
  apply wf_1; [lia | exact IH].
Qed.

Example well_formed_json :
  well_formed [0x5B; 0x22; 0xC3; 0xA9; 0xE2; 0x82; 0xAC; 0xF0; 0x9F; 0x98; 0x80; 0x22; 0x5D].
Proof.
  apply wf_1; [lia|]. apply wf_1; [lia|].
  apply wf_2; [lia | unfold continuation; lia |].
  apply wf_3; [lia | cbn; lia | unfold continuation; lia |].
  apply wf_4; [lia | cbn; lia | unfold continuation; lia | unfold continuation; lia |].
  apply wf_1; [lia|]. apply wf_1; [lia|]. constructor.
Qed.

(** The check on a request with a non-empty header and secret and a body:
    one comparison of the encoded header with the expected string. *)
Lemma verifyGitHubSignature_unfold c signature k secret body :
  verifyGitHubSignature
    {| x_hub_signature_256 := Some (c :: signature); rawBody := Some body |}
    (Some (k :: secret))
  = timingSafeEqual (Buffer_from (c :: signature))
      (calculatedSignature (k :: secret) body).
Proof.
  unfold verifyGitHubSignature. cbn [x_hub_signature_256 rawBody falsy orb].
  now rewrite Buffer_from_calculatedSignature.
Qed.

Lemma timingSafeEqual_true a b : timingSafeEqual a b = Ok true <-> a = b.
Proof.
  unfold timingSafeEqual. split.
  - repeat case_bool_decide; intros [=]; assumption.
  - intros ->. rewrite !bool_decide_eq_true_2 by reflexivity. reflexivity.
Qed.

Lemma timingSafeEqual_false a b :
  length a = length b -> a <> b -> timingSafeEqual a b = Ok false.
Proof.
  intros Hl Hne. unfold timingSafeEqual.
  rewrite bool_decide_eq_true_2 by exact Hl.
  now rewrite bool_decide_eq_false_2 by exact Hne.
Qed.

Lemma timingSafeEqual_throws a b :
  length a <> length b ->
  timingSafeEqual a b = Throw (JS.RangeError "Input buffers must have the same byte length").
Proof.
  intros Hl. unfold timingSafeEqual. now rewrite bool_decide_eq_false_2 by exact Hl.
Qed.

(** The signature GitHub sends: the digest of the bytes of the body. *)
Definition rawSignature (secret : jsstring) (buf : buffer) : jsstring :=
  js "sha256=" ++ hex (hmac_sha256 (Buffer_from secret) buf).

(** The check raises exactly when header and secret are present and either
    no body text was recorded or the encoded header is not 71 bytes long. *)
Lemma verifyGitHubSignature_raises_iff req secret :
  JS.returns (verifyGitHubSignature req secret) = false <->
  falsy (x_hub_signature_256 req) = false /\ falsy secret = false /\
  match rawBody req, x_hub_signature_256 req with
  | Some _, Some signature => length (Buffer_from signature) <> 71%nat
  | _, _ => True
  end.
Proof.
  destruct req as [[[|c sig]|] body], secret as [[|k secret]|];
    cbn [x_hub_signature_256 rawBody falsy];
    try (split; [discriminate | intros (? & ? & ?); discriminate]).
  destruct body as [body|].
  - rewrite verifyGitHubSignature_unfold. unfold timingSafeEqual.
    rewrite calculatedSignature_length. case_bool_decide; cbn [JS.returns]; split.
    + discriminate.
    + intros (_ & _ & ?). contradiction.
    + auto.
    + reflexivity.
  - unfold verifyGitHubSignature. cbn. split; auto.
Qed.

(** C4, at a header of the wrong length: the check raises and the route
    answers 500; the same header with no secret configured is refused with
    401. The header is well formed for HTTP and is not 71 bytes long. *)
Theorem verifyGitHubSignature_throws_on_short_header :
  let req := json_request (Some (js "sha256=abc")) (js "{}") in
  verifyGitHubSignature req (Some (js "secret"))
  = Throw (JS.RangeError "Input buffers must have the same byte length")
  /\ webhook_gate req (Some (js "secret")) = Status500
  /\ webhook_gate req None = Status401.
Proof. vm_compute. repeat split. Qed.

(** The same check raises a TypeError when the body was not JSON, so that
    [express.json] recorded no [rawBody]. *)
Lemma verifyGitHubSignature_throws_without_rawBody :
  JS.returns (verifyGitHubSignature
    {| x_hub_signature_256 := Some (js "sha256=abc"); rawBody := None |}
    (Some (js "secret"))) = false.
Proof. reflexivity. Qed.

(** C3 as stated fails: for the body [{"a":"\xFF"}], whose string value is
    not well-formed UTF-8, the header that carries the HMAC-SHA256 of the
    exact body bytes is refused, because the digest is taken over the text
    [req.rawBody] in which the byte 0xFF has become U+FFFD. *)
Lemma verifyGitHubSignature_refuses_raw_digest :
  let buf := [0x7B; 0x22; 0x61; 0x22; 0x3A; 0x22; 0xFF; 0x22; 0x7D] in
  let secret := js "secret" in
  Forall is_byte buf
  /\ verifyGitHubSignature (json_request (Some (rawSignature secret buf)) buf) (Some secret)
     = Ok false.
Proof.
  split; [repeat constructor; unfold is_byte; lia|].
  vm_compute. reflexivity.
Qed.

(** C3, amended: with a non-empty secret, the check returns true exactly for
    the header ['sha256=' + hex(HMAC-SHA256(secret, text))] where [text] is
    the body as [express.json] recorded it, decoded as UTF-8 and encoded
    again by [hmac.update]; for a body that is well-formed UTF-8 these are
    its exact bytes.
    A different header with the same encoded length gives false, and so
    does the right header of one body presented with a body of another
    digest. *)
Theorem verifyGitHubSignature_correct secret signature buf :
  secret <> [] ->
  let expected := calculatedSignature secret (Buffer_toString buf) in
  let verify h b := verifyGitHubSignature (json_request (Some h) b) (Some secret) in
  (verify signature buf = Ok true <-> signature = expected)
  /\ (signature <> expected ->
      length (Buffer_from signature) = length expected ->
      verify signature buf = Ok false)
  /\ (forall buf', calculatedSignature secret (Buffer_toString buf') <> expected ->
      verify expected buf' = Ok false)
  /\ (well_formed buf -> expected = rawSignature secret buf).
Proof.
  intros Hs. destruct secret as [|k secret]; [contradiction|]. clear Hs.
  cbv zeta. unfold json_request.
  remember (calculatedSignature (k :: secret) (Buffer_toString buf)) as expected eqn:E.
  assert (Hlen : length expected = 71%nat)
    by (rewrite E; apply calculatedSignature_length).
  assert (Hasc : Forall is_ascii expected)
    by (rewrite E; apply calculatedSignature_ascii).
  repeat split.
  - destruct signature as [|c sig]; [discriminate|].
    rewrite verifyGitHubSignature_unfold, timingSafeEqual_true, <- E.
    now apply Buffer_from_inv_ascii.
  - intros ->. destruct expected as [|c e]; [discriminate|].
    rewrite verifyGitHubSignature_unfold, timingSafeEqual_true, <- E.
    now apply Buffer_from_ascii.
  - intros Hne Hl. destruct signature as [|c sig]; [reflexivity|].
    rewrite verifyGitHubSignature_unfold, <- E.
    apply timingSafeEqual_false; [exact Hl|].
    intros Eb. apply Hne. now apply Buffer_from_inv_ascii.
  - intros buf' Hne. destruct expected as [|c e]; [discriminate|].
    rewrite verifyGitHubSignature_unfold, Buffer_from_ascii by exact Hasc.
    apply timingSafeEqual_false; [|congruence].
    now rewrite calculatedSignature_length.
  - intros Hw. rewrite E. unfold calculatedSignature, rawSignature.
    now rewrite (Buffer_round_trip buf Hw).
Qed.

Lemma verifyGitHubSignature_correct_witness :
  js "secret" <> [] /\
  let secret := js "secret" in
  let signature := js "sha256=0000000000000000000000000000000000000000000000000000000000000000" in
  let buf := [0x5B; 0x22; 0xC3; 0xA9; 0x22; 0x5D] in
  let expected := calculatedSignature secret (Buffer_toString buf) in
  let verify h b := verifyGitHubSignature (json_request (Some h) b) (Some secret) in
  (verify signature buf = Ok true <-> signature = expected)
  /\ (signature <> expected ->
      length (Buffer_from signature) = length expected ->
      verify signature buf = Ok false)
  /\ (forall buf', calculatedSignature secret (Buffer_toString buf') <> expected ->
      verify expected buf' = Ok false)
  /\ (well_formed buf -> expected = rawSignature secret buf).
Proof.
  split; [discriminate|].
  apply (verifyGitHubSignature_correct (js "secret")
           (js "sha256=0000000000000000000000000000000000000000000000000000000000000000")
           [0x5B; 0x22; 0xC3; 0xA9; 0x22; 0x5D]).
  discriminate.
Defined.

End WebhookFacts.

(** ** The sync history ledger *)

Section HistoryFacts.

Import History.

Definition ev0 : env :=
  {| Date_now := 1700000000000; toISOString := "2023-11-14T22:13:20.000Z";
     random36 := "k3j9x0q1z"; write_fails := false |}.

Definition empty_store : store := {| HISTORY_FILE := Fs.Absent; log := [] |}.

Example generateId_ev0 : generateId ev0 = "sync_1700000000000_k3j9x0q1z".
Proof. reflexivity. Qed.

Example addSyncEntry_pipeline_entry :
  let e : entry := {[ "type" := VStr "manual"; "branch" := VStr "main";
                      "commits" := VNum 0; "message" := VStr "Sync started";
                      "status" := VStr "in_progress" ]} in
  let r := addSyncEntry ev0 e empty_store in
  fst r = Ok (Some (VStr "sync_1700000000000_k3j9x0q1z"))
  /\ (fun n : entry => (n !! "status", n !! "timestamp", n !! "branch")) <$> entries (snd r)
     = [(Some (VStr "in_progress"), Some (VStr "2023-11-14T22:13:20.000Z"),
         Some (VStr "main"))].
Proof. vm_compute. split; reflexivity. Qed.

(** *** The generated id determines the clock value and the random suffix *)

Fixpoint no_underscore (s : string) : Prop :=
  match s with
  | EmptyString => True
  | String a rest => a <> "_"%char /\ no_underscore rest
  end.

Lemma no_underscore_uint d : no_underscore (NilEmpty.string_of_uint d).
Proof. induction d; simpl; (split; [discriminate | assumption]) || exact I. Qed.

Lemma no_underscore_string_of_Z n : no_underscore (string_of_Z n).
Proof.
  unfold string_of_Z, NilZero.string_of_int, NilZero.string_of_uint.
  destruct (Z.to_int n) as [d|d]; destruct d;
    repeat (simpl; split; try discriminate; try apply no_underscore_uint); exact I.
Qed.

Lemma append_underscore_inj a1 : forall a2 r1 r2,
  no_underscore a1 -> no_underscore a2 ->
  (a1 ++ "_" ++ r1 = a2 ++ "_" ++ r2)%string -> a1 = a2 /\ r1 = r2.
Proof.
  induction a1 as [|c a1 IH]; intros [|d a2] r1 r2 H1 H2 E; simpl in *.
  - injection E as E. auto.
  - injection E as E _. destruct H2 as [H2 _]. congruence.
  - injection E as E _. destruct H1 as [H1 _]. congruence.
  - injection E as -> E. destruct H1 as [_ H1], H2 as [_ H2].
    destruct (IH a2 r1 r2 H1 H2 E) as [-> ->]. auto.
Qed.

Lemma string_of_Z_inj a b : string_of_Z a = string_of_Z b -> a = b.
Proof.
  unfold string_of_Z. intros E. apply DecimalZ.to_int_inj.
  assert (N : forall z, Z.to_int z <> Decimal.Pos Decimal.Nil
                        /\ Z.to_int z <> Decimal.Neg Decimal.Nil).
  { intros [|p|p]; simpl; split; try discriminate;
      intros [= H]; now apply DecimalPos.Unsigned.to_uint_nonnil in H. }
  assert (S : Some (Z.to_int a) = Some (Z.to_int b)).
  { rewrite <- (NilZero.isi (Z.to_int a)), <- (NilZero.isi (Z.to_int b)) by apply N.
    now rewrite E. }
  now injection S.
Qed.

Lemma generateId_inj ev1 ev2 :
  generateId ev1 = generateId ev2 ->
  Date_now ev1 = Date_now ev2 /\ random36 ev1 = random36 ev2.
Proof.
  unfold generateId. intros E. simpl in E. injection E as E.
  apply append_underscore_inj in E; try apply no_underscore_string_of_Z.
  destruct E as [E ->]. split; [now apply string_of_Z_inj | reflexivity].
Qed.

(** *** One call *)

Lemma loadHistory_entries s :
  HISTORY_FILE s <> Fs.Parsed LOther ->
  exists lg, loadHistory s
             = (Ok (LArray (entries s)), {| HISTORY_FILE := HISTORY_FILE s; log := lg |}).
Proof.
  destruct s as [[| | |[es|]] lg]; intros H; try contradiction;
    eexists; reflexivity.
Qed.

Lemma loadHistory_returns s : JS.returns (fst (loadHistory s)) = true.
Proof. destruct s as [[| | |[es|]] lg]; reflexivity. Qed.

Lemma addSyncEntry_run ev e s :
  HISTORY_FILE s <> Fs.Parsed LOther -> write_fails ev = false ->
  fst (addSyncEntry ev e s) = Ok (newEntry ev e !! "id")
  /\ HISTORY_FILE (snd (addSyncEntry ev e s))
     = Fs.Parsed (LArray (take MAX_HISTORY_ENTRIES (newEntry ev e :: entries s))).
Proof.
  intros Hf Hw. destruct (loadHistory_entries s Hf) as [lg Hl].
  unfold addSyncEntry, JS.bind. rewrite Hl.
  unfold saveHistory, JS.try_catch. rewrite Hw. split; reflexivity.
Qed.

Lemma newEntry_lookup ev e k :
  newEntry ev e !! k
  = match e !! k with
    | Some v => Some v
    | None =>
        if decide (k = "id") then Some (VStr (generateId ev))
        else if decide (k = "timestamp") then Some (VStr (toISOString ev))
        else if decide (k = "status") then Some (VStr "in_progress")
        else None
    end.
Proof.
  unfold newEntry. rewrite lookup_union.
  destruct (e !! k) as [v|] eqn:E.
  - match goal with |- Some v ∪ ?o = _ => destruct o; reflexivity end.
  - match goal with |- None ∪ ?o = _ =>
      transitivity o; [destruct o; reflexivity|] end.
    repeat case_decide; subst; simplify_map_eq; reflexivity.
Qed.

(** *** A sequence of calls *)

Lemma take_app_take {A} n (a b : list A) : take n (a ++ take n b) = take n (a ++ b).
Proof. rewrite !take_app, take_take. do 2 f_equal. lia. Qed.

Definition built (calls : list (env * entry)) : list entry :=
  reverse (map (fun c => newEntry (fst c) (snd c)) calls).

Lemma addAll_cons ev e rest s :
  addAll ((ev, e) :: rest) s
  = match addSyncEntry ev e s with
    | (Ok _, s') => addAll rest s'
    | (Throw err, s') => (Throw err, s')
    end.
Proof. reflexivity. Qed.

Lemma addAll_entries calls : forall c s,
  HISTORY_FILE s <> Fs.Parsed LOther ->
  Forall (fun c => write_fails (fst c) = false) (c :: calls) ->
  fst (addAll (c :: calls) s) = Ok tt
  /\ entries (snd (addAll (c :: calls) s))
     = take MAX_HISTORY_ENTRIES (built (c :: calls) ++ entries s).
Proof.
  induction calls as [|c' calls IH]; intros [ev e] s Hf Hw;
    inversion Hw as [|? ? Hw1 Hw2]; subst; simpl in Hw1;
    destruct (addSyncEntry_run ev e s Hf Hw1) as [Hr Hs];
    rewrite addAll_cons;
    destruct (addSyncEntry ev e s) as [r s1]; cbn [fst snd] in Hr, Hs; subst r.
  - cbn [addAll JS.ret fst snd]. split; [reflexivity|].
    unfold entries at 1. now rewrite Hs.
  - assert (Hf1 : HISTORY_FILE s1 <> Fs.Parsed LOther) by (rewrite Hs; discriminate).
    destruct (IH c' s1 Hf1 Hw2) as [Hr' He']. split; [exact Hr'|].
    rewrite He'. unfold entries at 1. rewrite Hs.
    rewrite take_app_take. f_equal.
    unfold built. cbn [map fst snd]. rewrite (reverse_cons _ (newEntry ev e)).
    now rewrite <- app_assoc.
Qed.

Lemma built_length calls : length (built calls) = length calls.
Proof. unfold built. now rewrite length_reverse, length_map. Qed.

(** C8 as stated fails: a caller that passes its own [id] and [status]
    gets them stored, because [...entry] is spread after the defaults. *)
Lemma addSyncEntry_keeps_caller_fields :
  let e : entry := {[ "type" := VStr "manual"; "status" := VStr "success";
                      "id" := VStr "mine" ]} in
  let r := addSyncEntry ev0 e empty_store in
  fst r = Ok (Some (VStr "mine"))
  /\ (fun n : entry => (n !! "id", n !! "status")) <$> entries (snd r)
     = [(Some (VStr "mine"), Some (VStr "success"))].
Proof. vm_compute. split; reflexivity. Qed.

(** C8, amended: when the ledger file is missing, unusable or holds an
    array, and the writes succeed, each call stores the caller's fields
    over the defaults id = sync_<clock>_<suffix>, timestamp and status
    in_progress, puts the entry in front and keeps the first 100; ids
    generated from different clock values or suffixes differ; after at
    least 100 calls exactly 100 entries remain, the newest first. *)
Theorem addSyncEntry_ledger c calls s :
  HISTORY_FILE s <> Fs.Parsed LOther ->
  Forall (fun c => write_fails (fst c) = false) (c :: calls) ->
  let n := newEntry (fst c) (snd c) in
  let after1 := addSyncEntry (fst c) (snd c) s in
  let after := addAll (c :: calls) s in
  (fst after1 = Ok (n !! "id")
   /\ entries (snd after1) = take MAX_HISTORY_ENTRIES (n :: entries s))
  /\ (forall k, n !! k
       = match snd c !! k with
         | Some v => Some v
         | None =>
             if decide (k = "id") then Some (VStr (generateId (fst c)))
             else if decide (k = "timestamp") then Some (VStr (toISOString (fst c)))
             else if decide (k = "status") then Some (VStr "in_progress")
             else None
         end)
  /\ (forall ev', generateId (fst c) = generateId ev' ->
       Date_now (fst c) = Date_now ev' /\ random36 (fst c) = random36 ev')
  /\ (fst after = Ok tt
      /\ entries (snd after)
         = take MAX_HISTORY_ENTRIES (built (c :: calls) ++ entries s))
  /\ (MAX_HISTORY_ENTRIES <= length (c :: calls) ->
      entries (snd after) = take MAX_HISTORY_ENTRIES (built (c :: calls))
      /\ length (entries (snd after)) = MAX_HISTORY_ENTRIES).
Proof.
  intros Hf Hw. cbv zeta.
  assert (Hw1 : write_fails (fst c) = false) by (now inversion Hw).
  destruct (addSyncEntry_run (fst c) (snd c) s Hf Hw1) as [Hr Hs].
  destruct (addAll_entries calls c s Hf Hw) as [Hr' He'].
  repeat split.
  - exact Hr.
  - unfold entries at 1. now rewrite Hs.
  - apply newEntry_lookup.
  - now apply generateId_inj.
  - now apply generateId_inj.
  - exact Hr'.
  - exact He'.
  - rewrite He'. apply take_app_le. now rewrite built_length.
  - rewrite He', length_take, length_app, built_length. lia.
Qed.

Lemma addSyncEntry_ledger_witness :
  let c := (ev0, ({[ "type" := VStr "manual" ]} : entry)) in
  let calls := replicate 104 c in
  HISTORY_FILE empty_store <> Fs.Parsed LOther
  /\ Forall (fun c => write_fails (fst c) = false) (c :: calls)
  /\ (MAX_HISTORY_ENTRIES <= length (c :: calls) ->
      entries (snd (addAll (c :: calls) empty_store))
      = take MAX_HISTORY_ENTRIES (built (c :: calls))
      /\ length (entries (snd (addAll (c :: calls) empty_store))) = MAX_HISTORY_ENTRIES).
Proof.
  cbv zeta.
  assert (Hf : HISTORY_FILE empty_store <> Fs.Parsed LOther) by discriminate.
  assert (Hw : Forall (fun c : env * entry => write_fails (fst c) = false)
                 ((ev0, ({[ "type" := VStr "manual" ]} : entry))
                  :: replicate 104 (ev0, ({[ "type" := VStr "manual" ]} : entry)))).
  { apply Forall_cons. split; [reflexivity|]. apply Forall_replicate. reflexivity. }
  split; [exact Hf|]. split; [exact Hw|].
  apply (addSyncEntry_ledger _ _ _ Hf Hw).
Defined.

End HistoryFacts.

(** ** Backups *)

Section BackupFacts.

Import Backup.
Local Open Scope Z_scope.

Definition no_failures : env :=
  {| unlink_fails := ∅; stat_fails := ∅; write_fails := false |}.

Definition three_backups : store :=
  {| BACKUP_DIR := Some (<[ "config-backup-2024-01-03.tar.gz" := {| mtime := 3; st_size := 10 |} ]>
                        (<[ "config-backup-2024-01-02.tar.gz" := {| mtime := 2; st_size := 10 |} ]>
                        (<[ "config-backup-2024-01-01.tar.gz" := {| mtime := 1; st_size := 10 |} ]>
                        (<[ ".protected-backups.json" := {| mtime := 9; st_size := 2 |} ]> ∅))));
     PROTECTED_BACKUPS_FILE := Fs.Parsed (PArray ["config-backup-2024-01-01.tar.gz"]);
     unlink_calls := [];
     log := [] |}.

Definition names_of (s : store) : list string :=
  merge_sort (fun a b => bool_decide (String.leb a b)) (fst <$> map_to_list (files s)).

Example listBackups_three :
  (fun r => match r with Ok l => Some ((fun b => (name b, protected b)) <$> l) | _ => None end)
    (fst (listBackups no_failures three_backups))
  = Some [("config-backup-2024-01-03.tar.gz", false);
          ("config-backup-2024-01-02.tar.gz", false);
          ("config-backup-2024-01-01.tar.gz", true)].
Proof. vm_compute. reflexivity. Qed.

Example cleanOldBackups_three :
  let r := cleanOldBackups no_failures 1 three_backups in
  fst r = Ok tt
  /\ unlink_calls (snd r) = ["config-backup-2024-01-02.tar.gz"]
  /\ names_of (snd r) = [".protected-backups.json"; "config-backup-2024-01-01.tar.gz";
                         "config-backup-2024-01-03.tar.gz"].
Proof. vm_compute. repeat split. Qed.

(** *** The listing as a function of the store *)

Definition relog (lg : list (JS.level * string)) (s : store) : store :=
  {| BACKUP_DIR := BACKUP_DIR s; PROTECTED_BACKUPS_FILE := PROTECTED_BACKUPS_FILE s;
     unlink_calls := unlink_calls s; log := lg |}.

(** The protection list as [loadProtectedBackups] returns it. *)
Definition loaded (s : store) : protected_doc :=
  match PROTECTED_BACKUPS_FILE s with
  | Fs.Parsed d => d
  | _ => PArray []
  end.

Definition protected_names (s : store) : list string :=
  match loaded s with PArray names => names | POther => [] end.

Definition is_archive (f : string) : Prop := endsWith f ".tar.gz" = true.

Definition archives (s : store) : list string :=
  filter is_archive (fst <$> map_to_list (files s)).

Definition row_of (ev : env) (s : store) (f : string) : JS.result backup :=
  match files s !! f with
  | Some st =>
      if bool_decide (f ∈ stat_fails ev) then Throw (JS.Error "EIO: i/o error, stat")
      else match includes (loaded s) f with
           | Ok p => Ok {| path := f; name := f; created := mtime st;
                           size := st_size st; protected := p |}
           | Throw e => Throw e
           end
  | None => Throw (JS.Error "ENOENT: no such file or directory, stat")
  end.

Fixpoint sequence {A B} (g : A -> JS.result B) (xs : list A) : JS.result (list B) :=
  match xs with
  | [] => Ok []
  | x :: rest =>
      match g x with
      | Ok y => match sequence g rest with
                | Ok ys => Ok (y :: ys)
                | Throw e => Throw e
                end
      | Throw e => Throw e
      end
  end.

Definition listing (ev : env) (s : store) : list backup :=
  match BACKUP_DIR s with
  | None => []
  | Some _ =>
      match sequence (row_of ev s) (archives s) with
      | Ok rows => merge_sort newer_first rows
      | Throw _ => []
      end
  end.

Lemma mapM_reads {S A B} (f : A -> JS.M S B) (g : A -> JS.result B) (s : S) xs :
  (forall x, f x s = (g x, s)) -> JS.mapM f xs s = (sequence g xs, s).
Proof.
  intros H. induction xs as [|x xs IH]; [reflexivity|].
  cbn [JS.mapM sequence]. unfold JS.bind at 1. rewrite H.
  destruct (g x); [|reflexivity].
  unfold JS.bind at 1. rewrite IH. now destruct (sequence g xs).
Qed.

Lemma loadProtectedBackups_spec s :
  exists lg, loadProtectedBackups s = (Ok (loaded s), relog lg s).
Proof. destruct s as [d [| | |doc] u lg]; eexists; reflexivity. Qed.

Lemma listBackups_spec ev s :
  exists lg, listBackups ev s = (Ok (listing ev s), relog lg s).
Proof.
  unfold listBackups, listing, JS.try_catch, JS.bind at 1, JS.get.
  destruct (BACKUP_DIR s) as [dir|] eqn:Hd.
  - destruct (loadProtectedBackups_spec s) as [lg Hl].
    unfold JS.bind at 1. rewrite Hl. unfold JS.bind at 1.
    erewrite (mapM_reads _ (row_of ev s)).
    + unfold archives, files. rewrite Hd. cbn [default].
      destruct (sequence _ _); eexists; reflexivity.
    + intros f. unfold stat, row_of, JS.bind, JS.get, files. cbn [BACKUP_DIR relog].
      rewrite Hd. cbn [default]. unfold id. destruct (dir !! f); [|reflexivity].
      case_bool_decide; [reflexivity|]. cbn. now destruct (includes (loaded s) f).
  - exists (log s). destruct s. cbn in *. now subst.
Qed.

Lemma sequence_Ok {A B} (g : A -> JS.result B) xs : forall ys,
  sequence g xs = Ok ys -> Forall2 (fun x y => g x = Ok y) xs ys.
Proof.
  induction xs as [|x xs IH]; intros ys H; cbn in H.
  - injection H as <-. constructor.
  - destruct (g x) as [y|] eqn:Hx; [|discriminate].
    destruct (sequence g xs) as [ys'|]; [|discriminate].
    injection H as <-. constructor; auto.
Qed.

Lemma sequence_total {A B} (g : A -> JS.result B) xs :
  Forall (fun x => exists y, g x = Ok y) xs -> exists ys, sequence g xs = Ok ys.
Proof.
  induction 1 as [|x xs [y Hy] _ [ys IH]]; cbn; [eauto|].
  rewrite Hy, IH. eauto.
Qed.

(** What a row of the listing says about the file it stands for. *)
Definition row_ok (s : store) (b : backup) : Prop :=
  path b = name b /\ is_archive (name b)
  /\ includes (loaded s) (name b) = Ok (protected b)
  /\ exists st, files s !! name b = Some st /\ created b = mtime st.

Lemma row_of_Ok ev s f b : row_of ev s f = Ok b -> name b = f /\ (is_archive f -> row_ok s b).
Proof.
  unfold row_of, row_ok. destruct (files s !! f) as [st|] eqn:Hf; [|discriminate].
  case_bool_decide; [discriminate|].
  destruct (includes (loaded s) f) as [p|] eqn:Hi; [|discriminate].
  intros [= <-]. cbn. rewrite Hf. eauto 10.
Qed.

Lemma NoDup_archives s : NoDup (archives s).
Proof. apply NoDup_filter, NoDup_fst_map_to_list. Qed.

Lemma elem_of_archives s f :
  f ∈ archives s <-> is_archive f /\ is_Some (files s !! f).
Proof.
  unfold archives. rewrite list_elem_of_filter, list_elem_of_fmap.
  split; intros [Ha H]; (split; [exact Ha|]).
  - destruct H as ([k st] & -> & H). apply elem_of_map_to_list in H. cbn. eauto.
  - destruct H as [st H]. exists (f, st). split; [reflexivity|].
    now apply elem_of_map_to_list.
Qed.

Lemma listing_facts ev s :
  Forall (row_ok s) (listing ev s)
  /\ NoDup (name <$> listing ev s)
  /\ StronglySorted newer_first (listing ev s).
Proof.
  assert (Htrans : Transitive newer_first) by (intros a b c; unfold newer_first; lia).
  assert (Htot : Total newer_first) by (intros a b; unfold newer_first; lia).
  unfold listing. destruct (BACKUP_DIR s); [|repeat split; constructor].
  destruct (sequence _ _) as [rows|] eqn:Hs; [|repeat split; constructor].
  apply sequence_Ok in Hs.
  assert (Hn : name <$> rows = archives s).
  { symmetry. revert Hs. generalize (archives s). intros l H.
    induction H as [|f b l rows Hb _ IH]; [reflexivity|].
    cbn. apply row_of_Ok in Hb as [-> _]. now rewrite IH. }
  assert (Hr : Forall (row_ok s) rows).
  { assert (Ha : Forall is_archive (archives s)).
    { apply Forall_forall. intros f Hf. now apply elem_of_archives in Hf as [? _]. }
    clear Hn. revert Hs Ha. generalize (archives s). intros l H.
    induction H as [|f b l rows Hb _ IH]; intros Ha; [constructor|].
    apply Forall_cons in Ha as [Hf Ha]. constructor; [|exact (IH Ha)].
    apply row_of_Ok in Hb as [_ Hb]. exact (Hb Hf). }
  repeat split.
  - now rewrite merge_sort_Permutation.
  - rewrite merge_sort_Permutation, Hn. apply NoDup_archives.
  - now apply StronglySorted_merge_sort.
Qed.

(** Without failing [stat] calls and with a usable protection list the
    listing has a row for every archive. *)
Lemma listing_complete ev s :
  stat_fails ev = ∅ -> loaded s <> POther ->
  name <$> listing ev s ≡ₚ archives s.
Proof.
  intros Hst Hp. unfold listing.
  destruct (BACKUP_DIR s) as [dir|] eqn:Hd.
  - destruct (sequence_total (row_of ev s) (archives s)) as [rows Hs].
    { apply Forall_forall. intros f Hf. apply elem_of_archives in Hf as [_ [st Hf]].
      unfold row_of. rewrite Hf, Hst.
      rewrite bool_decide_eq_false_2 by set_solver.
      destruct (loaded s); [cbn; eauto | contradiction]. }
    rewrite Hs. rewrite merge_sort_Permutation.
    apply sequence_Ok in Hs. revert Hs. generalize (archives s). intros l H.
    induction H as [|f b l rows Hb _ IH]; [reflexivity|].
    cbn. apply row_of_Ok in Hb as [-> _]. now rewrite IH.
  - unfold archives, files. rewrite Hd. cbn. now rewrite map_to_list_empty.
Qed.

(** *** The deletion loop *)

Definition remove_one (ev : env) (b : backup) : JS.M store unit :=
  (call unlink ev (path b);
   JS.log_info ("Removed old backup: " ++ name b))%js.

(** The store after the files [gone] were deleted in [attempted] calls. *)
Definition deleted (gone attempted : list string) (s : store) : store :=
  {| BACKUP_DIR := (fun m => foldl (fun m f => delete f m) m gone) <$> BACKUP_DIR s;
     PROTECTED_BACKUPS_FILE := PROTECTED_BACKUPS_FILE s;
     unlink_calls := unlink_calls s ++ attempted;
     log := log s |}.

Lemma lookup_foldl_delete {A} (fs : list string) : forall (m : gmap string A) k,
  foldl (fun m f => delete f m) m fs !! k = if decide (k ∈ fs) then None else m !! k.
Proof.
  induction fs as [|f fs IH]; intros m k; cbn [foldl].
  - rewrite decide_False by set_solver. reflexivity.
  - rewrite IH. destruct (decide (k ∈ fs)) as [Hk|Hk].
    + rewrite decide_True by set_solver. reflexivity.
    + destruct (decide (k = f)) as [->|Hne].
      * rewrite decide_True by set_solver. apply lookup_delete_eq.
      * rewrite decide_False by set_solver. now apply lookup_delete_ne.
Qed.

Lemma files_deleted gone attempted s k :
  files (deleted gone attempted s) !! k
  = if decide (k ∈ gone) then None else files s !! k.
Proof.
  unfold files, deleted. cbn [BACKUP_DIR].
  destruct (BACKUP_DIR s) as [dir|]; cbn.
  - apply lookup_foldl_delete.
  - now destruct (decide _).
Qed.

Lemma unlink_ok ev f s :
  f ∉ unlink_fails ev -> is_Some (files s !! f) ->
  unlink ev f s = (Ok tt, deleted [f] [f] s).
Proof.
  intros Hf He. unfold unlink, JS.bind, JS.get, JS.modify.
  rewrite bool_decide_eq_false_2 by exact Hf.
  now rewrite bool_decide_eq_true_2 by exact He.
Qed.

Lemma unlink_fail ev f s :
  f ∈ unlink_fails ev ->
  unlink ev f s
  = (Throw (JS.Error "EACCES: permission denied, unlink"), deleted [] [f] s).
Proof.
  intros Hf. unfold unlink, JS.bind, JS.get, JS.modify.
  rewrite bool_decide_eq_true_2 by exact Hf.
  unfold deleted, JS.throw. cbn. do 2 f_equal. now destruct (BACKUP_DIR s).
Qed.

Lemma deleted_deleted g1 a1 g2 a2 s :
  deleted g2 a2 (deleted g1 a1 s) = deleted (g1 ++ g2) (a1 ++ a2) s.
Proof.
  unfold deleted. cbn. f_equal.
  - destruct (BACKUP_DIR s); cbn; [|reflexivity]. now rewrite foldl_app.
  - now rewrite app_assoc.
Qed.

Lemma deleted_relog g a lg s : deleted g a (relog lg s) = relog lg (deleted g a s).
Proof. reflexivity. Qed.

Lemma relog_relog lg lg' s : relog lg' (relog lg s) = relog lg' s.
Proof. reflexivity. Qed.

Lemma append_log_relog l (s : store) : JS.append_log l s = relog (log s ++ [l]) s.
Proof. reflexivity. Qed.

Lemma for_of_app {S A} (xs ys : list A) (body : A -> JS.M S unit) s :
  JS.for_of (xs ++ ys) body s
  = JS.bind (JS.for_of xs body) (fun _ => JS.for_of ys body) s.
Proof.
  revert s. induction xs as [|x xs IH]; intros s; cbn [app JS.for_of].
  - reflexivity.
  - unfold JS.bind in *. destruct (body x s) as [[[]|e] s1]; [|reflexivity].
    apply IH.
Qed.

Lemma remove_loop_ok ev l : forall s,
  NoDup (path <$> l) ->
  (forall b, b ∈ l -> is_Some (files s !! path b) /\ path b ∉ unlink_fails ev) ->
  exists lg, JS.for_of l (remove_one ev) s
             = (Ok tt, relog lg (deleted (path <$> l) (path <$> l) s)).
Proof.
  induction l as [|b l IH]; intros s Hnd Hl.
  - exists (log s). destruct s as [[dir|] p u lg]; unfold deleted; cbn;
      now rewrite app_nil_r.
  - cbn [fmap list_fmap] in Hnd. apply NoDup_cons in Hnd as [Hb Hnd].
    destruct (Hl b) as [He Hf]; [set_solver|].
    cbn [JS.for_of]. unfold JS.bind at 1, remove_one at 1, JS.bind at 1.
    rewrite (unlink_ok ev (path b) s Hf He).
    unfold JS.log_info, JS.modify.
    match goal with |- context [JS.for_of l _ ?s1] => destruct (IH s1 Hnd) as [lg Hlg] end.
    { intros b' Hb'. destruct (Hl b') as [He' Hf']; [set_solver|]. split; [|exact Hf'].
      change (is_Some (files (deleted [path b] [path b] s) !! path b')).
      rewrite files_deleted. rewrite decide_False; [exact He'|].
      intros Hin. apply Hb. apply list_elem_of_singleton in Hin. rewrite <- Hin.
      now apply list_elem_of_fmap_2. }
    rewrite Hlg. exists lg. f_equal.
    now rewrite append_log_relog, deleted_relog, relog_relog, deleted_deleted.
Qed.

Lemma remove_loop_stops ev pre b post s :
  NoDup (path <$> pre) ->
  (forall x, x ∈ pre -> is_Some (files s !! path x) /\ path x ∉ unlink_fails ev) ->
  path b ∈ unlink_fails ev ->
  exists lg, JS.for_of (pre ++ b :: post) (remove_one ev) s
             = (Throw (JS.Error "EACCES: permission denied, unlink"),
                relog lg (deleted (path <$> pre) (path <$> pre ++ [b]) s)).
Proof.
  intros Hnd Hpre Hb. rewrite for_of_app. unfold JS.bind at 1.
  destruct (remove_loop_ok ev pre s Hnd Hpre) as [lg ->].
  cbn [JS.for_of]. unfold JS.bind at 1, remove_one at 1, JS.bind at 1.
  rewrite (unlink_fail ev (path b) _ Hb). exists lg.
  rewrite deleted_relog, deleted_deleted, app_nil_r, fmap_app. reflexivity.
Qed.

Lemma unlink_cases ev f s :
  unlink ev f s = (Ok tt, deleted [f] [f] s)
  \/ exists e, unlink ev f s = (Throw e, deleted [] [f] s).
Proof.
  destruct (decide (f ∈ unlink_fails ev)) as [Hf|Hf].
  - right. eexists. now apply unlink_fail.
  - destruct (decide (is_Some (files s !! f))) as [He|He].
    + left. now apply unlink_ok.
    + right. eexists. unfold unlink, JS.bind, JS.get, JS.modify.
      rewrite bool_decide_eq_false_2 by exact Hf.
      rewrite bool_decide_eq_false_2 by exact He.
      unfold deleted, JS.throw. cbn. do 2 f_equal. now destruct (BACKUP_DIR s).
Qed.

Lemma remove_loop_cons ev b l s :
  JS.for_of (b :: l) (remove_one ev) s
  = match unlink ev (path b) s with
    | (Ok _, s1) =>
        JS.for_of l (remove_one ev)
          (relog (log s1 ++ [(JS.INFO, "Removed old backup: " +:+ name b)]) s1)
    | (Throw e, s1) => (Throw e, s1)
    end.
Proof.
  cbn [JS.for_of]. unfold JS.bind, remove_one, JS.bind.
  destruct (unlink ev (path b) s) as [[[]|e] s1]; reflexivity.
Qed.

(** Whatever fails, the loop only touches the files it was given. *)
Lemma remove_loop_frame ev l : forall s,
  PROTECTED_BACKUPS_FILE (snd (JS.for_of l (remove_one ev) s)) = PROTECTED_BACKUPS_FILE s
  /\ forall k, k ∉ path <$> l ->
       files (snd (JS.for_of l (remove_one ev) s)) !! k = files s !! k.
Proof.
  induction l as [|b l IH]; intros s; [split; reflexivity|].
  rewrite remove_loop_cons.
  destruct (unlink_cases ev (path b) s) as [->|[e ->]].
  - match goal with |- context [JS.for_of l _ ?s1] => destruct (IH s1) as [Hp Hk] end.
    split; [exact Hp|]. intros k Hin. rewrite Hk by set_solver.
    change (files (deleted [path b] [path b] s) !! k = files s !! k).
    rewrite files_deleted. rewrite decide_False by set_solver. reflexivity.
  - cbn [snd]. split; [reflexivity|]. intros k _.
    rewrite files_deleted. now rewrite decide_False by set_solver.
Qed.

(** *** Pruning *)

Definition unprotectedBackups (ev : env) (s : store) : list backup :=
  filter (fun b => protected b = false) (listing ev s).

Definition toRemove (ev : env) (retention : Z) (s : store) : list backup :=
  if Z.of_nat (length (unprotectedBackups ev s)) <=? retention then []
  else slice retention (unprotectedBackups ev s).

(** How the function ends after the loop: one more line in the log. *)
Definition finish (msg : string) (r : JS.result unit * store) : store :=
  match r with
  | (Ok _, s2) => relog (log s2 ++ [(JS.INFO, msg)]) s2
  | (Throw e, s2) =>
      relog (log s2 ++ [(JS.ERROR, "Failed to clean old backups: " +:+ JS.message e)]) s2
  end.

Lemma cleanOldBackups_run ev n s :
  exists lg msg,
    cleanOldBackups ev n s
    = (Ok tt, finish msg (JS.for_of (toRemove ev n s) (remove_one ev) (relog lg s))).
Proof.
  destruct (listBackups_spec ev s) as [lg Hl].
  unfold cleanOldBackups, JS.try_catch, JS.bind at 1. rewrite Hl.
  unfold toRemove. fold (unprotectedBackups ev s).
  destruct (Z.of_nat (length (unprotectedBackups ev s)) <=? n).
  - exists lg. eexists. reflexivity.
  - unfold JS.bind at 1, JS.log_info at 1, JS.modify at 1, JS.bind at 1.
    rewrite append_log_relog, relog_relog.
    change (fun b : backup => JS.bind (unlink ev (path b))
              (fun _ => JS.log_info ("Removed old backup: " +:+ name b)))
      with (remove_one ev).
    change (log (relog lg s)) with lg.
    exists (lg ++ [(JS.INFO, "Removing old backup(s)...")]).
    exists "Backups cleaned".
    match goal with |- context [JS.for_of ?l _ ?s1] =>
      generalize (JS.for_of l (remove_one ev) s1) end.
    intros [[[]|e] s2]; reflexivity.
Qed.

Lemma cleanOldBackups_unfold ev n s :
  exists lg lg',
    cleanOldBackups ev n s
    = (Ok tt, relog lg' (snd (JS.for_of (toRemove ev n s) (remove_one ev) (relog lg s)))).
Proof.
  destruct (cleanOldBackups_run ev n s) as (lg & msg & ->). exists lg.
  destruct (JS.for_of _ _ _) as [[[]|e] s2]; eexists; reflexivity.
Qed.

Lemma StronglySorted_filter {A} (R : relation A) (P : A -> Prop)
    `{forall x, Decision (P x)} l :
  StronglySorted R l -> StronglySorted R (filter P l).
Proof.
  induction 1 as [|x l Hs IH Hx]; [constructor|].
  rewrite filter_cons. destruct (decide (P x)); [|exact IH].
  constructor; [exact IH|].
  apply Forall_forall. intros y Hy. apply list_elem_of_filter in Hy as [_ Hy].
  rewrite Forall_forall in Hx. auto.
Qed.

Lemma unprotectedBackups_facts ev s :
  Forall (fun b => row_ok s b /\ protected b = false) (unprotectedBackups ev s)
  /\ NoDup (name <$> unprotectedBackups ev s)
  /\ StronglySorted newer_first (unprotectedBackups ev s).
Proof.
  destruct (listing_facts ev s) as (Hr & Hn & Hs). unfold unprotectedBackups.
  repeat split.
  - apply Forall_forall. intros b Hb. apply list_elem_of_filter in Hb as [Hp Hb].
    rewrite Forall_forall in Hr. auto.
  - eapply sublist_NoDup; [exact Hn|]. apply fmap_sublist, sublist_filter.
  - now apply StronglySorted_filter.
Qed.

Definition unprotected_archives (s : store) : list string :=
  filter (fun f => f ∉ protected_names s) (archives s).

Lemma includes_loaded s f p :
  includes (loaded s) f = Ok p -> p = bool_decide (f ∈ protected_names s).
Proof. unfold protected_names. destruct (loaded s); cbn; congruence. Qed.

Lemma unprotectedBackups_archives ev s b :
  b ∈ unprotectedBackups ev s -> name b ∈ unprotected_archives s.
Proof.
  intros Hb. destruct (unprotectedBackups_facts ev s) as (Hr & _ & _).
  rewrite Forall_forall in Hr. destruct (Hr b Hb) as ((_ & Ha & Hi & st & Hst & _) & Hp).
  apply list_elem_of_filter. split.
  - apply includes_loaded in Hi. rewrite Hp in Hi. symmetry in Hi.
    now apply bool_decide_eq_false in Hi.
  - apply elem_of_archives. eauto.
Qed.



Lemma path_names ev s l :
  l `sublist_of` unprotectedBackups ev s -> path <$> l = name <$> l.
Proof.
  intros Hl. destruct (unprotectedBackups_facts ev s) as (Hr & _ & _).
  apply list_fmap_ext. intros i b Hb. apply list_elem_of_lookup_2 in Hb.
  rewrite Forall_forall in Hr. destruct (Hr b) as ((Hp & _) & _); [|exact Hp].
  eapply sublist_subseteq; eauto.
Qed.


Lemma toRemove_sublist ev n s : toRemove ev n s `sublist_of` unprotectedBackups ev s.
Proof.
  unfold toRemove, slice. destruct (_ <=? _); [apply sublist_nil_l | apply sublist_drop].
Qed.

(** Whatever fails, a prune returns normally and leaves alone every file
    named in the protection list, and the list itself. *)
Lemma cleanOldBackups_keeps_protected ev n s :
  fst (cleanOldBackups ev n s) = Ok tt
  /\ PROTECTED_BACKUPS_FILE (snd (cleanOldBackups ev n s)) = PROTECTED_BACKUPS_FILE s
  /\ forall k, k ∈ protected_names s ->
       files (snd (cleanOldBackups ev n s)) !! k = files s !! k.
Proof.
  destruct (cleanOldBackups_unfold ev n s) as (lg & lg' & ->). cbn [fst snd].
  destruct (remove_loop_frame ev (toRemove ev n s) (relog lg s)) as [Hp Hk].
  split; [reflexivity|]. split; [exact Hp|]. intros k Hprot.
  change (files (relog lg' ?x)) with (files x). rewrite Hk; [reflexivity|].
  rewrite (path_names ev s _ (toRemove_sublist ev n s)).
  intros Hin. apply list_elem_of_fmap in Hin as (b & -> & Hb).
  assert (Hu : b ∈ unprotectedBackups ev s).
  { eapply sublist_subseteq; [apply toRemove_sublist|exact Hb]. }
  apply unprotectedBackups_archives, list_elem_of_filter in Hu as [Hu _]. contradiction.
Qed.




(** *** Failing deletions *)

Definition second_unlink_fails : env :=
  {| unlink_fails := {[ "config-backup-2024-01-02.tar.gz" ]};
     stat_fails := ∅; write_fails := false |}.

Definition three_unprotected : store :=
  {| BACKUP_DIR := BACKUP_DIR three_backups;
     PROTECTED_BACKUPS_FILE := Fs.Absent;
     unlink_calls := [];
     log := [] |}.



(** C6 as stated fails: with retention 1 the candidates are the archives of
    January 2 and January 1, in that order; the first deletion fails, the
    function returns, and the second archive, whose deletion would succeed,
    is never tried and stays. *)
Lemma cleanOldBackups_stops_at_first_failure :
  let r := cleanOldBackups second_unlink_fails 1 three_unprotected in
  name <$> toRemove second_unlink_fails 1 three_unprotected
    = ["config-backup-2024-01-02.tar.gz"; "config-backup-2024-01-01.tar.gz"]
  /\ bool_decide ("config-backup-2024-01-01.tar.gz" ∈ unlink_fails second_unlink_fails) = false
  /\ fst r = Ok tt
  /\ unlink_calls (snd r) = ["config-backup-2024-01-02.tar.gz"]
  /\ names_of (snd r) = [".protected-backups.json"; "config-backup-2024-01-01.tar.gz";
                         "config-backup-2024-01-02.tar.gz"; "config-backup-2024-01-03.tar.gz"]
  /\ last (log (snd r))
     = Some (JS.ERROR, "Failed to clean old backups: EACCES: permission denied, unlink").
Proof. vm_compute. repeat split. Qed.

(** C6, amended: a prune never throws; when the deletion of a candidate
    fails, the candidates before it have been deleted, the failure is
    logged, and the failing candidate and all later ones are left without
    further [unlink] calls. *)
Theorem cleanOldBackups_stops ev n s :
  fst (cleanOldBackups ev n s) = Ok tt
  /\ forall pre b post,
       toRemove ev n s = pre ++ b :: post ->
       (forall x, x ∈ pre -> path x ∉ unlink_fails ev) ->
       path b ∈ unlink_fails ev ->
       let s' := snd (cleanOldBackups ev n s) in
       unlink_calls s' = unlink_calls s ++ (name <$> pre) ++ [name b]
       /\ (forall k, files s' !! k
                     = if decide (k ∈ name <$> pre) then None else files s !! k)
       /\ last (log s')
          = Some (JS.ERROR, "Failed to clean old backups: EACCES: permission denied, unlink").
Proof.
  destruct (cleanOldBackups_run ev n s) as (lg & msg & Hrun).
  split; [now rewrite Hrun|].
  intros pre b post HT Hpre Hb s'. unfold s'. rewrite Hrun. cbn [snd].
  assert (Hsub : pre ++ [b] `sublist_of` unprotectedBackups ev s).
  { etransitivity; [|apply (toRemove_sublist ev n s)]. rewrite HT.
    apply sublist_app; [reflexivity|]. apply sublist_skip, sublist_nil_l. }
  assert (Hsubpre : pre `sublist_of` unprotectedBackups ev s).
  { etransitivity; [|exact Hsub]. now apply sublist_inserts_r. }
  destruct (unprotectedBackups_facts ev s) as (Hr & Hnd & _).
  rewrite HT.
  destruct (remove_loop_stops ev pre b post (relog lg s)) as [lg2 ->].
  - rewrite (path_names ev s pre Hsubpre).
    eapply sublist_NoDup; [exact Hnd|]. now apply fmap_sublist.
  - intros x Hx. split; [|now apply Hpre].
    rewrite Forall_forall in Hr.
    destruct (Hr x) as ((Hp & _ & _ & st & Hst & _) & _).
    { eapply sublist_subseteq; eauto. }
    rewrite Hp. change (files (relog lg s)) with (files s). eauto.
  - exact Hb.
  - rewrite (path_names ev s _ Hsub), (path_names ev s pre Hsubpre), fmap_app.
    unfold finish. repeat split.
    + intros k. rewrite <- (files_deleted (name <$> pre) ((name <$> pre) ++ [name b]) s k).
      reflexivity.
    + cbn [log relog]. apply last_snoc.
Qed.

Lemma cleanOldBackups_stops_witness :
  let ev := second_unlink_fails in
  let s := three_unprotected in
  let b := {| path := "config-backup-2024-01-02.tar.gz";
              name := "config-backup-2024-01-02.tar.gz";
              created := 2; size := 10; protected := false |} in
  let post := [{| path := "config-backup-2024-01-01.tar.gz";
                  name := "config-backup-2024-01-01.tar.gz";
                  created := 1; size := 10; protected := false |}] in
  toRemove ev 1 s = [] ++ b :: post
  /\ (forall x, x ∈ [] -> path x ∉ unlink_fails ev)
  /\ path b ∈ unlink_fails ev
  /\ unlink_calls (snd (cleanOldBackups ev 1 s)) = unlink_calls s ++ (name <$> []) ++ [name b].
Proof.
  cbv zeta.
  assert (HT : toRemove second_unlink_fails 1 three_unprotected
               = [] ++ {| path := "config-backup-2024-01-02.tar.gz";
                          name := "config-backup-2024-01-02.tar.gz";
                          created := 2; size := 10; protected := false |}
                    :: [{| path := "config-backup-2024-01-01.tar.gz";
                           name := "config-backup-2024-01-01.tar.gz";
                           created := 1; size := 10; protected := false |}])
    by (vm_compute; reflexivity).
  assert (Hpre : forall x : backup, x ∈ [] -> path x ∉ unlink_fails second_unlink_fails)
    by (intros x Hx; inversion Hx).
  assert (Hb : "config-backup-2024-01-02.tar.gz" ∈ unlink_fails second_unlink_fails)
    by (vm_compute; reflexivity).
  split; [exact HT|]. split; [exact Hpre|]. split; [exact Hb|].
  exact (proj1 (proj2 (cleanOldBackups_stops second_unlink_fails 1 three_unprotected)
                  _ _ _ HT Hpre Hb)).
Defined.

(** *** Deleting a protected backup *)

Definition with_protection (p : Fs.file protected_doc) (s : store) : store :=
  {| BACKUP_DIR := BACKUP_DIR s; PROTECTED_BACKUPS_FILE := p;
     unlink_calls := unlink_calls s; log := log s |}.

Lemma deleteBackup_run ev f s :
  is_Some (files s !! f) -> f ∉ unlink_fails ev ->
  deleteBackup ev f s
  = (Ok true, relog (log s ++ [(JS.INFO, "Deleted backup: " +:+ f)]) (deleted [f] [f] s)).
Proof.
  intros He Hf. unfold deleteBackup, JS.try_catch, JS.bind at 1, exists_, JS.gets.
  rewrite bool_decide_eq_true_2 by exact He. cbn [negb].
  unfold JS.bind at 1. rewrite (unlink_ok ev f s Hf He). reflexivity.
Qed.

Example delete_protected_backup :
  let f := "config-backup-2024-01-01.tar.gz" in
  fst (isBackupProtected f three_backups) = Ok true
  /\ fst (delete_route no_failures f three_backups) = Ok (Json200 "Backup deleted")
  /\ names_of (snd (delete_route no_failures f three_backups))
     = [".protected-backups.json"; "config-backup-2024-01-02.tar.gz";
        "config-backup-2024-01-03.tar.gz"].
Proof. vm_compute. repeat split. Qed.

(** A name of an archive of the directory: it ends in .tar.gz and holds no
    slash, so that [path.join(BACKUP_DIR, f)] is the file [f] of the
    directory. *)
Definition archive_name (f : string) : Prop :=
  is_archive f /\ String.index 0 "/" f = None.

Lemma deleteBackup_fails ev f s :
  is_Some (files s !! f) -> f ∈ unlink_fails ev ->
  deleteBackup ev f s
  = (Throw (JS.Error "EACCES: permission denied, unlink"),
     relog (log s ++ [(JS.ERROR, "Failed to delete backup: EACCES: permission denied, unlink")])
       (deleted [] [f] s)).
Proof.
  intros He Hf. unfold deleteBackup, JS.try_catch, JS.bind at 1, exists_, JS.gets.
  rewrite bool_decide_eq_true_2 by exact He. cbn [negb].
  unfold JS.bind at 1. rewrite (unlink_fail ev f s Hf). reflexivity.
Qed.

(** C9 as stated fails: the archive of January 2 exists, its [unlink]
    fails, and [deleteBackup] throws with the archive in place; the route
    answers 500. *)
Lemma deleteBackup_throws_when_unlink_fails :
  let f := "config-backup-2024-01-02.tar.gz" in
  let r := deleteBackup second_unlink_fails f three_backups in
  is_Some (files three_backups !! f)
  /\ fst r = Throw (JS.Error "EACCES: permission denied, unlink")
  /\ files (snd r) !! f = files three_backups !! f
  /\ fst (delete_route second_unlink_fails f three_backups)
     = Ok (Json500 "EACCES: permission denied, unlink").
Proof. cbv zeta. split; [vm_compute; eauto|]. vm_compute. repeat split. Qed.

(** C9, amended: for an archive of the directory, [deleteBackup] and the
    route do the same whatever the protection list holds, also when it
    names the archive, and leave the list as it is. When [unlink] does not
    fail, [deleteBackup] returns true and the route answers success; the
    archive is gone afterwards and the other files are as before. When
    [unlink] fails, [deleteBackup] throws that error, the route answers 500
    and every file is as before. *)
Theorem deleteBackup_ignores_protection ev s f p :
  archive_name f -> is_Some (files s !! f) ->
  let r := deleteBackup ev f (with_protection p s) in
  let h := delete_route ev f (with_protection p s) in
  PROTECTED_BACKUPS_FILE (snd r) = p
  /\ PROTECTED_BACKUPS_FILE (snd h) = p
  /\ (f ∉ unlink_fails ev ->
      fst r = Ok true
      /\ fst h = Ok (Json200 "Backup deleted")
      /\ snd h = snd r
      /\ files (snd r) !! f = None
      /\ (forall k, k <> f -> files (snd r) !! k = files s !! k))
  /\ (f ∈ unlink_fails ev ->
      fst r = Throw (JS.Error "EACCES: permission denied, unlink")
      /\ fst h = Ok (Json500 "EACCES: permission denied, unlink")
      /\ files (snd r) = files s
      /\ files (snd h) = files s).
Proof.
  intros _ He r h.
  destruct (decide (f ∈ unlink_fails ev)) as [Hf|Hf].
  - assert (Hr : r = (Throw (JS.Error "EACCES: permission denied, unlink"),
                      relog (log s ++ [(JS.ERROR, "Failed to delete backup: EACCES: permission denied, unlink")])
                        (deleted [] [f] (with_protection p s)))).
    { unfold r. now rewrite deleteBackup_fails. }
    assert (Hh : h = (Ok (Json500 "EACCES: permission denied, unlink"),
                      JS.append_log
                        (JS.ERROR, "Failed to delete backup: EACCES: permission denied, unlink")
                        (snd r))).
    { unfold h, delete_route, JS.try_catch, JS.bind. fold r. now rewrite Hr. }
    assert (Hfiles : files (snd r) = files s).
    { rewrite Hr. cbn [snd]. apply map_eq. intros k.
      change (files (relog ?l ?x)) with (files x). rewrite files_deleted.
      now rewrite decide_False by set_solver. }
    split; [now rewrite Hr|]. split; [now rewrite Hh, Hr|].
    split; [intros Hn; contradiction|]. intros _.
    split; [now rewrite Hr|]. split; [now rewrite Hh|]. split; [exact Hfiles|].
    rewrite Hh. exact Hfiles.
  - assert (Hr : r = (Ok true, relog (log s ++ [(JS.INFO, "Deleted backup: " +:+ f)])
                                 (deleted [f] [f] (with_protection p s)))).
    { unfold r. now rewrite deleteBackup_run. }
    assert (Hh : h = (Ok (Json200 "Backup deleted"), snd r)).
    { unfold h, delete_route, JS.try_catch, JS.bind. fold r. now rewrite Hr. }
    split; [now rewrite Hr|]. split; [now rewrite Hh, Hr|].
    split; [|intros Hn; contradiction]. intros _.
    rewrite Hh, Hr. cbn [fst snd]. repeat split.
    + change (files (relog ?l ?x)) with (files x). rewrite files_deleted.
      now rewrite decide_True by set_solver.
    + intros k Hk. change (files (relog ?l ?x)) with (files x). rewrite files_deleted.
      now rewrite decide_False by set_solver.
Qed.

Lemma deleteBackup_ignores_protection_witness :
  let f := "config-backup-2024-01-01.tar.gz" in
  let p := Fs.Parsed (PArray [f]) in
  archive_name f /\ is_Some (files three_backups !! f)
  /\ (f ∉ unlink_fails no_failures)
  /\ fst (deleteBackup no_failures f (with_protection p three_backups)) = Ok true
  /\ fst (delete_route no_failures f (with_protection p three_backups))
     = Ok (Json200 "Backup deleted").
Proof.
  cbv zeta.
  assert (Ha : archive_name "config-backup-2024-01-01.tar.gz")
    by (split; reflexivity).
  assert (He : is_Some (files three_backups !! "config-backup-2024-01-01.tar.gz"))
    by (vm_compute; eauto).
  assert (Hf : "config-backup-2024-01-01.tar.gz" ∉ unlink_fails no_failures)
    by (vm_compute; discriminate).
  split; [exact Ha|]. split; [exact He|]. split; [exact Hf|].
  pose proof (deleteBackup_ignores_protection no_failures three_backups
                "config-backup-2024-01-01.tar.gz"
                (Fs.Parsed (PArray ["config-backup-2024-01-01.tar.gz"])) Ha He) as T.
  cbv zeta in T. destruct T as (_ & _ & T3 & _). destruct (T3 Hf) as (T4 & T5 & _).
  split; [exact T4 | exact T5].
Defined.

End BackupFacts.

(** ** Tracked sync *)

Section TrackedSyncFacts.

Import TrackedSync.

(** What [git ls-files] prints for file names that need no quoting: each
    name followed by a line feed. *)
Definition printed (names : list string) : string :=
  foldr (fun name out => name +:+ String newline out) EmptyString names.

Definition clone1 : env :=
  {| git_ls_files := Ok (printed ["configuration.yaml"; "automations.yaml"]);
     source := {[ "configuration.yaml" := "homeassistant: v2";
                  "automations.yaml" := "[]" ]};
     copy_fails := ∅; unlink_fails := ∅; write_fails := false |}.

Definition clone2 : env :=
  {| git_ls_files := Ok (printed ["configuration.yaml"]);
     source := {[ "configuration.yaml" := "homeassistant: v3" ]};
     copy_fails := ∅; unlink_fails := ∅; write_fails := false |}.

Definition config0 : store :=
  {| target := {[ "configuration.yaml" := "homeassistant: v1";
                  "secrets.yaml" := "password: hunter2" ]};
     STATE_FILE := Fs.Absent;
     log := [] |}.

Definition listing_of (s : store) : list (string * string) :=
  merge_sort (fun a b => bool_decide (String.leb (fst a) (fst b))) (map_to_list (target s)).

Example trackedSync_two_runs :
  let r1 := trackedSync clone1 config0 in
  let r2 := trackedSync clone2 (snd r1) in
  fst r1 = Ok {| copied := 2; deleted := 0; skipped := 0; tracked := 2 |}
  /\ listing_of (snd r1)
     = [("automations.yaml", "[]"); ("configuration.yaml", "homeassistant: v2");
        ("secrets.yaml", "password: hunter2")]
  /\ fst r2 = Ok {| copied := 1; deleted := 1; skipped := 0; tracked := 1 |}
  /\ listing_of (snd r2)
     = [("configuration.yaml", "homeassistant: v3");
        ("secrets.yaml", "password: hunter2")].
Proof. vm_compute. repeat split. Qed.

(** *** What a run leaves alone *)

(** The file set of a run: the names it reads from the listing. *)
Definition current (ev : env) : list string :=
  match currentGitFiles ev with Ok files => files | Throw _ => [] end.

(** The state document as [loadSyncedFiles] returns it. *)
Definition loaded_state (d : Fs.file state_doc) : state_doc :=
  match d with Fs.Parsed doc => doc | _ => DArray [] end.

(** The paths recorded by the last run that saved its state. *)
Definition previous (s : store) : list string :=
  match loaded_state (STATE_FILE s) with
  | DArray elements =>
      omap (fun e => match e with EString f => Some f | EOther => None end) elements
  | DOther => []
  end.

(** During a run: the file [U] and the state file are as at the start. *)
Definition kept (U : string) (s0 s : store) : Prop :=
  target s !! U = target s0 !! U /\ STATE_FILE s = STATE_FILE s0.

(** After a run: [U] is as at the start, and the state file is as at the
    start or holds the current file set. *)
Definition kept_after (U : string) (ev : env) (s0 s : store) : Prop :=
  target s !! U = target s0 !! U
  /\ (STATE_FILE s = STATE_FILE s0
      \/ STATE_FILE s = Fs.Parsed (DArray (EString <$> current ev))).

Definition with_log (lg : list (JS.level * string)) (s : store) : store :=
  {| target := target s; STATE_FILE := STATE_FILE s; log := lg |}.

(** Properties of the store that do not mention the log. *)
Definition log_free (I : store -> Prop) : Prop :=
  forall lg s, I s -> I (with_log lg s).

Lemma log_free_append I l s : log_free I -> I s -> I (JS.append_log l s).
Proof. intros H Hs. exact (H _ _ Hs). Qed.

Lemma kept_log_free U s0 : log_free (kept U s0).
Proof. intros lg s H. exact H. Qed.

Lemma kept_after_log_free U ev s0 : log_free (kept_after U ev s0).
Proof. intros lg s H. exact H. Qed.

Lemma kept_kept_after U ev s0 s : kept U s0 s -> kept_after U ev s0 s.
Proof. intros [H1 H2]. split; auto. Qed.

Lemma getGitTrackedFiles_triple ev (I : store -> Prop) :
  log_free I ->
  triple I (getGitTrackedFiles ev)
    (fun files s => currentGitFiles ev = Ok files /\ I s)
    (fun _ s => JS.returns (git_ls_files ev) = false /\ I s).
Proof.
  intros Hlog. unfold getGitTrackedFiles, currentGitFiles.
  eapply triple_try_catch
    with (E' := fun _ s => JS.returns (git_ls_files ev) = false /\ I s).
  - destruct (git_ls_files ev) as [stdout|e].
    + cbv zeta. eapply triple_bind with (R := fun _ => I);
        [apply triple_log_info; intros s Hs; now apply log_free_append|].
      intros _. apply triple_ret. auto.
    + apply triple_throw. auto.
  - intros e. apply triple_pure. intros Hg.
    eapply triple_bind with (R := fun _ => I);
      [apply triple_log_error; intros s Hs; now apply log_free_append|].
    intros _. apply triple_throw. auto.
Qed.

Lemma getGitTrackedFiles_run ev files s :
  currentGitFiles ev = Ok files ->
  getGitTrackedFiles ev s
  = (Ok files, JS.append_log (JS.INFO, "Found files tracked in Git repository") s).
Proof.
  unfold currentGitFiles, getGitTrackedFiles, JS.try_catch.
  destruct (git_ls_files ev) as [stdout|e]; [|discriminate]. now intros [= <-].
Qed.

Lemma getGitTrackedFiles_Ok ev files (I : store -> Prop) :
  currentGitFiles ev = Ok files -> log_free I ->
  triple I (getGitTrackedFiles ev) (fun r s => r = files /\ I s) (fun _ _ => False).
Proof.
  intros Hg Hlog s Hs. rewrite (getGitTrackedFiles_run ev files s Hg).
  split; [reflexivity|]. now apply log_free_append.
Qed.

Lemma loadSyncedFiles_run s :
  exists lg, loadSyncedFiles s = (Ok (loaded_state (STATE_FILE s)), with_log lg s).
Proof. destruct s as [t [| | |d] lg]; eexists; reflexivity. Qed.

Lemma loadSyncedFiles_triple (I : store -> Prop) :
  log_free I ->
  triple I loadSyncedFiles
    (fun d s => d = loaded_state (STATE_FILE s) /\ I s) (fun _ _ => False).
Proof.
  intros Hlog s Hs. destruct (loadSyncedFiles_run s) as [lg ->].
  split; [reflexivity|]. now apply Hlog.
Qed.

Lemma copyFile_triple ev f (I : store -> Prop) :
  (forall c s, I s -> I (set_target (insert f c) s)) ->
  triple I (copyFile ev f) (fun _ => I) (fun _ => I).
Proof.
  intros Hset. unfold copyFile.
  eapply triple_try_catch with (E' := fun _ => I).
  - case_bool_decide; [apply triple_throw; auto|].
    destruct (source ev !! f) as [c|]; [|apply triple_throw; auto].
    apply triple_modify. auto.
  - intros e. apply triple_throw. auto.
Qed.

Lemma unlink_triple ev f (I : store -> Prop) :
  (forall s, I s -> I (set_target (delete f) s)) ->
  triple I (unlink ev f) (fun _ => I) (fun _ => I).
Proof.
  intros Hset. unfold unlink.
  eapply triple_bind; [apply triple_get|]. intros s1. cbn beta.
  eapply triple_conseq with (P' := I) (Q' := fun _ => I) (E' := fun _ => I);
    auto; [|tauto].
  case_bool_decide; [apply triple_throw; auto|].
  case_bool_decide; [|apply triple_throw; auto].
  apply triple_modify. auto.
Qed.

Lemma saveSyncedFiles_triple ev files (I J : store -> Prop) :
  log_free J ->
  (forall s, I s -> J s) ->
  (forall s, I s -> J (set_state (Fs.Parsed (DArray (EString <$> files))) s)) ->
  triple I (saveSyncedFiles ev files) (fun _ => J) (fun _ _ => False).
Proof.
  intros Hlog HIJ Hset. unfold saveSyncedFiles.
  eapply triple_try_catch with (E' := fun _ => J).
  - destruct (write_fails ev).
    + apply triple_throw. auto.
    + eapply triple_bind with (R := fun _ => J).
      * apply triple_modify. auto.
      * intros _. apply triple_log_info. intros s Hs. now apply log_free_append.
  - intros e. apply triple_log_error. intros s Hs. now apply log_free_append.
Qed.

(** The copy loop: each file is copied or skipped, nothing is thrown. *)
Lemma copy_loop_triple ev files (I : store -> Prop) acc :
  log_free I ->
  (forall f c s, f ∈ files -> I s -> I (set_target (insert f c) s)) ->
  triple I
    (JS.fold_of files
       (fun relativeFile (c : nat * nat) =>
          JS.try_catch
            (JS.bind (copyFile ev relativeFile) (fun _ => JS.ret (S (fst c), snd c)))
            (fun error =>
               JS.bind (JS.log_error ("Failed to copy " +:+ relativeFile +:+ ": "
                                      +:+ JS.message error))
                       (fun _ => JS.ret (fst c, S (snd c)))))
       acc)
    (fun _ => I) (fun _ _ => False).
Proof.
  intros Hlog Hset. apply triple_fold_of. intros f c Hf.
  eapply triple_try_catch with (E' := fun _ => I).
  - eapply triple_bind with (R := fun _ => I).
    + apply copyFile_triple. intros c0 s. now apply Hset.
    + intros _. apply triple_ret. auto.
  - intros e. eapply triple_bind with (R := fun _ => I).
    + apply triple_log_error. intros s Hs. now apply log_free_append.
    + intros _. apply triple_ret. auto.
Qed.

(** The deletion loop: each file is deleted or left; the loop throws at
    an element that is no string. *)
Lemma delete_loop_triple ev (elements : list element) (I : store -> Prop) acc :
  log_free I ->
  (forall f s, EString f ∈ elements -> I s -> I (set_target (delete f) s)) ->
  triple I
    (JS.fold_of elements
       (fun relativeFile (deletedCount : nat) =>
          match relativeFile with
          | EOther => JS.throw (JS.TypeError "The path argument must be of type string")
          | EString f =>
              JS.try_catch
                (JS.bind (exists_ f) (fun present =>
                 if present then
                   JS.bind (unlink ev f) (fun _ =>
                   JS.bind (JS.log_info ("Deleted: " +:+ f)) (fun _ =>
                   JS.ret (S deletedCount)))
                 else JS.ret deletedCount))
                (fun error =>
                   JS.bind (JS.log_error ("Failed to delete: " +:+ JS.message error))
                           (fun _ => JS.ret deletedCount))
          end)
       acc)
    (fun _ => I) (fun _ s => I s /\ EOther ∈ elements).
Proof.
  intros Hlog Hset. apply triple_fold_of. intros x n Hx.
  destruct x as [f|]; [|apply triple_throw; auto].
  eapply triple_try_catch with (E' := fun _ => I).
  - eapply triple_bind with (R := fun _ => I).
    { eapply triple_conseq; [apply (triple_gets _ I (fun _ _ => False))| | |];
        cbn; intros; tauto. }
    intros [|]; [|apply triple_ret; auto].
    eapply triple_bind with (R := fun _ => I).
    { apply unlink_triple. intros s. now apply Hset. }
    intros _. eapply triple_bind with (R := fun _ => I).
    { apply triple_log_info. intros s Hs. now apply log_free_append. }
    intros _. apply triple_ret. auto.
  - intros e. eapply triple_bind with (R := fun _ => I).
    + apply triple_log_error. intros s Hs. now apply log_free_append.
    + intros _. apply triple_ret. auto.
Qed.

Definition elements_of (d : Fs.file state_doc) : list element :=
  match loaded_state d with DArray elements => elements | DOther => [] end.

(** One run, for a property [I] that holds while the state file is still
    [d0] and a property [J] of the store the run leaves. *)
Lemma trackedSync_triple ev d0 (I J : store -> Prop) :
  log_free I -> log_free J ->
  (forall s, I s -> STATE_FILE s = d0) ->
  (forall s, I s -> J s) ->
  (forall f c s, f ∈ current ev -> I s -> I (set_target (insert f c) s)) ->
  (forall f s, EString f ∈ filesToDelete (elements_of d0) (current ev) ->
               I s -> I (set_target (delete f) s)) ->
  (forall s, I s -> J (set_state (Fs.Parsed (DArray (EString <$> current ev))) s)) ->
  triple I (trackedSync ev)
    (fun r s => J s /\ (filesToDelete (elements_of d0) (current ev) = [] -> deleted r = O))
    (fun _ s => J s /\ (JS.returns (git_ls_files ev) = false \/ loaded_state d0 = DOther
                        \/ EOther ∈ elements_of d0)).
Proof.
  intros HI HJ Hd HIJ Hins Hdel Hsave. unfold trackedSync.
  set (E := fun (_ : JS.error) s =>
              J s /\ (JS.returns (git_ls_files ev) = false \/ loaded_state d0 = DOther
                      \/ EOther ∈ elements_of d0)).
  assert (HE : log_free (E (JS.Error ""))) by (intros lg s [H1 H2]; split; auto).
  eapply triple_try_catch with (E' := E).
  2:{ intros e. eapply triple_bind with (R := fun _ => E e).
      - apply triple_log_error. intros s Hs. now apply (log_free_append _ _ _ HE).
      - intros _. apply triple_throw. auto. }
  eapply triple_bind with (R := fun files s => currentGitFiles ev = Ok files /\ I s).
  { eapply triple_conseq; [apply (getGitTrackedFiles_triple ev I HI)|auto|auto|].
    intros e s [Hg Hs]. split; auto. }
  intros files. apply triple_pure. intros Hg.
  assert (Hcur : current ev = files) by (unfold current; now rewrite Hg).
  rewrite Hcur in *.
  eapply triple_bind with (R := fun d s => d = loaded_state d0 /\ I s).
  { eapply triple_conseq; [apply (loadSyncedFiles_triple I HI)|auto| |contradiction].
    intros d s [-> Hs]. split; [|exact Hs]. now rewrite (Hd s Hs). }
  intros d. apply triple_pure. intros ->.
  eapply triple_bind with (R := fun _ => I).
  { apply triple_log_info. intros s Hs. now apply log_free_append. }
  intros _. eapply triple_bind with (R := fun _ => I).
  { eapply triple_conseq; [apply (copy_loop_triple ev files I (O, O) HI)|auto|auto|contradiction].
    intros f c s Hf. now apply Hins. }
  intros counts. unfold elements_of in *.
  destruct (loaded_state d0) as [previous0|]; [|apply triple_throw; intros s Hs; split; auto].
  cbv zeta. eapply triple_bind with (R := fun _ => I).
  { apply triple_if; [|apply triple_ret; auto].
    apply triple_log_info. intros s Hs. now apply log_free_append. }
  intros _. eapply triple_bind
    with (R := fun n s => (filesToDelete previous0 files = [] -> n = O) /\ I s).
  { destruct (filesToDelete previous0 files) as [|x l] eqn:Hf.
    - apply triple_ret. auto.
    - eapply triple_conseq;
        [apply (delete_loop_triple ev (x :: l) I O HI)|auto| |].
      + intros f s Hin. now apply Hdel.
      + intros n s Hs. split; [discriminate|exact Hs].
      + intros e s [Hs Hin]. split; [now apply HIJ|]. right. right.
        rewrite <- Hf in Hin. unfold filesToDelete in Hin.
        now apply list_elem_of_filter in Hin as [_ Hin]. }
  intros n. apply triple_pure. intros Hn.
  eapply triple_bind with (R := fun _ => J).
  { eapply triple_conseq; [apply (saveSyncedFiles_triple ev files I J HJ)|auto|auto|contradiction];
      auto. }
  intros _. eapply triple_bind with (R := fun _ => J).
  { apply triple_log_info. intros s Hs. now apply log_free_append. }
  intros _. eapply triple_bind with (R := fun _ => J).
  { apply triple_log_info. intros s Hs. now apply log_free_append. }
  intros _. apply triple_ret. intros s Hs. split; [exact Hs|exact Hn].
Qed.

Lemma previous_elements s f : f ∈ previous s <-> EString f ∈ elements_of (STATE_FILE s).
Proof.
  unfold previous, elements_of. destruct (loaded_state (STATE_FILE s)) as [l|].
  - rewrite list_elem_of_omap. split.
    + intros ([g|] & Hin & [=]). now subst.
    + intros Hin. exists (EString f). auto.
  - now rewrite !elem_of_nil.
Qed.

Lemma previous_saved (files : list string) :
  omap (fun e => match e with EString f => Some f | EOther => None end)
       (EString <$> files) = files.
Proof. induction files as [|f l IH]; cbn; [reflexivity|]. now rewrite IH. Qed.

Lemma trackedSync_frame ev s0 U :
  U ∉ current ev -> U ∉ previous s0 -> kept_after U ev s0 (snd (trackedSync ev s0)).
Proof.
  intros Hc Hp.
  assert (T : triple (kept U s0) (trackedSync ev)
                (fun _ => kept_after U ev s0) (fun _ => kept_after U ev s0)).
  { eapply triple_conseq;
      [apply (trackedSync_triple ev (STATE_FILE s0) (kept U s0) (kept_after U ev s0)
                (kept_log_free U s0) (kept_after_log_free U ev s0))
      |auto|cbn; tauto|cbn; tauto].
    - now intros s [_ Hs].
    - apply kept_kept_after.
    - intros f c s Hf [Ht Hs]. split; [|exact Hs]. cbn.
      rewrite lookup_insert_ne; [exact Ht|]. now intros ->.
    - intros f s Hf [Ht Hs]. split; [|exact Hs]. cbn.
      rewrite lookup_delete_ne; [exact Ht|]. intros ->. apply Hp.
      apply previous_elements. unfold filesToDelete in Hf.
      now apply list_elem_of_filter in Hf as [_ Hf].
    - intros s [Ht Hs]. split; [exact Ht|]. now right. }
  pose proof (triple_run _ _ _ _ s0 T (conj eq_refl eq_refl)) as R.
  now destruct (fst (trackedSync ev s0)).
Qed.

Lemma previous_after ev U s0 s1 f :
  kept_after U ev s0 s1 -> f ∈ previous s1 -> f ∈ previous s0 \/ f ∈ current ev.
Proof.
  intros [_ [Hs|Hs]] Hf; unfold previous in *; rewrite Hs in Hf.
  - now left.
  - right. cbn in Hf. now rewrite previous_saved in Hf.
Qed.

(** A path [U] that is not among the names a run reads from the listing
    of [git ls-files], nor in the file set persisted before it, has after
    the run what it had before (the same content, or still no file); and
    over two runs, a path that neither reads and that was not persisted
    before the first is as it was, whatever fails in either run. *)
Theorem trackedSync_untracked_untouched ev1 ev2 s0 U :
  U ∉ current ev1 -> U ∉ current ev2 -> U ∉ previous s0 ->
  let s1 := snd (trackedSync ev1 s0) in
  let s2 := snd (trackedSync ev2 s1) in
  target s1 !! U = target s0 !! U /\ target s2 !! U = target s0 !! U.
Proof.
  intros H1 H2 Hp s1 s2.
  pose proof (trackedSync_frame ev1 s0 U H1 Hp) as K1. fold s1 in K1.
  assert (Hp1 : U ∉ previous s1).
  { intros Hin. destruct (previous_after ev1 U s0 s1 U K1 Hin); contradiction. }
  pose proof (trackedSync_frame ev2 s1 U H2 Hp1) as K2. fold s2 in K2.
  destruct K1 as [K1 _], K2 as [K2 _]. split; [exact K1|]. now rewrite K2.
Qed.

(** The names a run reads are not always the names Git tracks:
    [stdout.trim()] is there for the line feed at the end of the listing,
    and cuts the white space at its start too. Git tracks a file whose name
    begins with a blank, which sorts first in the listing; the user has a
    file of their own under the name without the blank. *)
Definition lead_clone1 : env :=
  {| git_ls_files := Ok (printed [" lead.yaml"; "configuration.yaml"]);
     source := {[ " lead.yaml" := "tracked: true";
                  "configuration.yaml" := "homeassistant: v2" ]};
     copy_fails := ∅; unlink_fails := ∅; write_fails := false |}.

(** The next commit has dropped that file. *)
Definition lead_clone2 : env :=
  {| git_ls_files := Ok (printed ["configuration.yaml"]);
     source := {[ "configuration.yaml" := "homeassistant: v3" ]};
     copy_fails := ∅; unlink_fails := ∅; write_fails := false |}.

Definition lead_config : store :=
  {| target := {[ "configuration.yaml" := "homeassistant: v1";
                  "lead.yaml" := "mine: true" ]};
     STATE_FILE := Fs.Absent;
     log := [] |}.

(** C1: the user's file lead.yaml is in neither of the file sets S1 and S2
    that Git tracks in two runs, nor in the persisted set, and both runs
    return; yet the first run reads the tracked name with its leading blank
    cut, fails to copy a file of that name and records it as synced, and
    the second run, no longer finding it listed, deletes the user's
    file. *)
Theorem trackedSync_deletes_untracked_file :
  let U := "lead.yaml" in
  let S1 := [" lead.yaml"; "configuration.yaml"] in
  let S2 := ["configuration.yaml"] in
  let r1 := trackedSync lead_clone1 lead_config in
  let r2 := trackedSync lead_clone2 (snd r1) in
  git_ls_files lead_clone1 = Ok (printed S1)
  /\ git_ls_files lead_clone2 = Ok (printed S2)
  /\ (U ∉ S1) /\ (U ∉ S2) /\ (U ∉ previous lead_config)
  /\ target lead_config !! U = Some "mine: true"
  /\ currentGitFiles lead_clone1 = Ok ["lead.yaml"; "configuration.yaml"]
  /\ fst r1 = Ok {| copied := 1; deleted := 0; skipped := 1; tracked := 2 |}
  /\ target (snd r1) !! U = Some "mine: true"
  /\ previous (snd r1) = ["lead.yaml"; "configuration.yaml"]
  /\ fst r2 = Ok {| copied := 1; deleted := 1; skipped := 0; tracked := 1 |}
  /\ target (snd r2) !! U = None.
Proof.
  cbv zeta.
  split; [reflexivity|]. split; [reflexivity|].
  split; [apply (bool_decide_unpack _); vm_compute; exact I|].
  split; [apply (bool_decide_unpack _); vm_compute; exact I|].
  split; [apply (bool_decide_unpack _); vm_compute; exact I|].
  vm_compute. repeat split.
Qed.

(** C10: [loadSyncedFiles] returns in every state of the state file, and
    returns the empty list when the file is missing, unreadable or not
    JSON; a run that finds the file so, with a working [git ls-files],
    completes with no deletion and leaves every path outside the current
    file set as it was. *)
Theorem loadSyncedFiles_never_throws s :
  JS.returns (fst (loadSyncedFiles s)) = true
  /\ (STATE_FILE s = Fs.Absent \/ STATE_FILE s = Fs.Unreadable \/ STATE_FILE s = Fs.Invalid ->
      fst (loadSyncedFiles s) = Ok (DArray [])
      /\ forall ev files, currentGitFiles ev = Ok files ->
           (exists r, fst (trackedSync ev s) = Ok r /\ deleted r = O)
           /\ forall k, k ∉ files -> target (snd (trackedSync ev s)) !! k = target s !! k).
Proof.
  destruct (loadSyncedFiles_run s) as [lg Hl]. split; [now rewrite Hl|].
  intros Hs.
  assert (Hld : loaded_state (STATE_FILE s) = DArray [])
    by (destruct Hs as [->|[->| ->]]; reflexivity).
  split; [now rewrite Hl, Hld|].
  intros ev files Hg. split.
  - assert (T : triple (fun s' => STATE_FILE s' = STATE_FILE s) (trackedSync ev)
                  (fun r _ => deleted r = O) (fun _ _ => False)).
    { eapply triple_conseq;
        [apply (trackedSync_triple ev (STATE_FILE s)
                  (fun s' => STATE_FILE s' = STATE_FILE s) (fun _ => True))
        |auto| |]; try (intros; exact I); auto.
      - intros lg' s' H. exact H.
      - intros lg' s' H. exact H.
      - intros r s' [_ H]. apply H. unfold elements_of. now rewrite Hld.
      - intros e s' [_ [H|[H|H]]].
        + unfold currentGitFiles in Hg. destruct (git_ls_files ev); discriminate.
        + rewrite Hld in H. discriminate.
        + unfold elements_of in H. rewrite Hld in H. now apply elem_of_nil in H. }
    pose proof (triple_run _ _ _ _ s T eq_refl) as R.
    destruct (fst (trackedSync ev s)) as [r|e]; [eauto | contradiction].
  - intros k Hk. apply (trackedSync_frame ev s k).
    + unfold current. now rewrite Hg.
    + unfold previous. rewrite Hld. apply not_elem_of_nil.
Qed.

Lemma loadSyncedFiles_never_throws_witness :
  (STATE_FILE config0 = Fs.Absent \/ STATE_FILE config0 = Fs.Unreadable
   \/ STATE_FILE config0 = Fs.Invalid)
  /\ currentGitFiles clone1 = Ok ["configuration.yaml"; "automations.yaml"]
  /\ fst (loadSyncedFiles config0) = Ok (DArray [])
  /\ exists r, fst (trackedSync clone1 config0) = Ok r /\ deleted r = O.
Proof.
  assert (Hs : STATE_FILE config0 = Fs.Absent \/ STATE_FILE config0 = Fs.Unreadable
               \/ STATE_FILE config0 = Fs.Invalid) by (left; reflexivity).
  assert (Hg : currentGitFiles clone1 = Ok ["configuration.yaml"; "automations.yaml"])
    by reflexivity.
  split; [exact Hs|]. split; [exact Hg|].
  destruct (proj2 (loadSyncedFiles_never_throws config0) Hs) as [Hl Hr].
  split; [exact Hl|]. exact (proj1 (Hr clone1 _ Hg)).
Defined.

End TrackedSyncFacts.

(** ** The restart timer *)

Section RestartFacts.

Import Restart.
Local Open Scope Z_scope.

Definition restart_enabled : env :=
  {| AUTO_RESTART := Some "true"; SUPERVISOR_TOKEN := Some "token"; Date_now := 1000 |}.

Definition supervisor_error : JS.error := JS.Error "Supervisor API returned 500".

Example schedule_then_cancel :
  let s1 := snd (scheduleRestart restart_enabled 10 initial) in
  let s2 := snd (cancelRestart s1) in
  let s3 := snd (fire 0 (Ok tt) s2) in
  fst (getRestartStatus restart_enabled s1) = Ok (Some 10)
  /\ fst (cancelRestart s1) = Ok true
  /\ fst (getRestartStatus restart_enabled s2) = Ok None
  /\ restart_requests s3 = [].
Proof. vm_compute. repeat split. Qed.

Example schedule_then_fire :
  let s1 := snd (scheduleRestart restart_enabled 10 initial) in
  let s2 := snd (fire 0 (Ok tt) s1) in
  let s3 := snd (fire 0 (Ok tt) s2) in
  restart_requests s2 = ["token"] /\ restart_requests s3 = ["token"]
  /\ restartTimer s2 = None
  /\ promises s2 = [Fulfilled (Scheduled false (Some 10))].
Proof. vm_compute. repeat split. Qed.

Lemma alter_settled (f : promise -> promise) (ps : list promise) p q v :
  (forall x, f (Fulfilled x) = Fulfilled x) ->
  ps !! q = Some (Fulfilled v) -> alter f p ps !! q = Some (Fulfilled v).
Proof.
  intros Hf Hq. destruct (decide (p = q)) as [->|Hne].
  - rewrite list_lookup_alter_eq, Hq. cbn. now rewrite Hf.
  - now rewrite list_lookup_alter_ne.
Qed.

(** A call hands out a promise that is already fulfilled when it returns. *)
Lemma scheduleRestart_settles ev d s :
  fst (scheduleRestart ev d s) = Ok (length (promises s))
  /\ exists v, promises (snd (scheduleRestart ev d s)) !! length (promises s)
              = Some (Fulfilled v).
Proof.
  assert (Hp : forall v, alter (resolve v) (length (promises s)) (promises s ++ [Pending])
                         !! length (promises s) = Some (Fulfilled v)).
  { intros v. rewrite list_lookup_alter_eq, lookup_app_r, Nat.sub_diag by lia. reflexivity. }
  unfold scheduleRestart, JS.bind, JS.get, JS.modify, JS.log_info, JS.log_warn, JS.ret.
  cbn [fst snd]. case_bool_decide; cbn [negb].
  - destruct (SUPERVISOR_TOKEN ev) as [[|c token]|]; cbn; eauto.
    destruct (restartTimer s); cbn; eauto.
  - cbn. eauto.
Qed.

(** When an armed timeout fires, one restart request goes out, the timeout
    is no longer armed, nothing else gets armed, and no fulfilled promise
    changes; a timeout that is not armed changes nothing. *)
Lemma fire_effect t outcome s :
  match armed s !! t with
  | Some token =>
      restart_requests (snd (fire t outcome s)) = restart_requests s ++ [token]
      /\ armed (snd (fire t outcome s)) = delete t (armed s)
      /\ restartTimer (snd (fire t outcome s)) = None
  | None => snd (fire t outcome s) = s
  end
  /\ forall p v, promises s !! p = Some (Fulfilled v) ->
                 promises (snd (fire t outcome s)) !! p = Some (Fulfilled v).
Proof.
  unfold fire, JS.bind, JS.get. destruct (armed s !! t) as [token|]; [|split; auto].
  destruct outcome as [[]|e]; cbn; (split; [auto|]); intros p v Hp;
    now apply alter_settled.
Qed.

(** C7, at a failing restart: the timer fires once and the supervisor
    answers 500. One request went out and nothing is armed any more, but
    the promise handed to the caller of [scheduleRestart] was fulfilled
    with [{scheduled: true, executed: false}] before the timer was armed,
    so the [reject(error)] of the callback changes nothing: the promise is
    not rejected, and the error is not logged either. *)
Theorem scheduleRestart_failure_not_reported :
  let r1 := scheduleRestart restart_enabled 10 initial in
  let s2 := snd (fire 0 (Throw supervisor_error) (snd r1)) in
  fst r1 = Ok 0%nat
  /\ restart_requests s2 = ["token"]
  /\ promises s2 !! 0%nat = Some (Fulfilled (Scheduled false (Some 10)))
  /\ promises s2 !! 0%nat <> Some (Rejected supervisor_error)
  /\ armed s2 = ∅ /\ restartTimer s2 = None
  /\ log s2 = log (snd r1).
Proof. vm_compute. repeat split; discriminate. Qed.

(** The same for every call, state and outcome: the promise of a call is
    fulfilled when the call returns and stays so when any timeout fires. *)
Lemma scheduleRestart_never_rejects ev d s t outcome :
  let s1 := snd (scheduleRestart ev d s) in
  exists v, promises (snd (fire t outcome s1)) !! length (promises s)
            = Some (Fulfilled v).
Proof.
  destruct (scheduleRestart_settles ev d s) as [_ [v Hv]].
  exists v. now apply fire_effect.
Qed.

End RestartFacts.

(** ** The sync pipeline *)

Section PipelineFacts.

Import Pipeline.

(** The line the pipeline logs when it enters step 6. *)
Definition applying : JS.level * string :=
  (JS.INFO, "Applying changes to config directory...").

(** Since [w0]: the target is as it was and step 6 was not entered. *)
Definition untouched (w0 w : world) : Prop :=
  target w = target w0 /\ exists new, log w = log w0 ++ new /\ applying ∉ new.

(** Since [w0]: step 6 was entered. *)
Definition applied (w0 w : world) : Prop :=
  exists new, log w = log w0 ++ new /\ applying ∈ new.

(** Properties kept by whatever leaves target and log alone, and by new
    log lines other than the one of step 6. *)
Definition stable (I : world -> Prop) : Prop :=
  (forall w w', target w' = target w -> log w' = log w -> I w -> I w')
  /\ (forall l w, l <> applying -> I w -> I (JS.append_log l w)).

Lemma untouched_stable w0 : stable (untouched w0).
Proof.
  split.
  - intros w w' Ht Hl [H1 H2]. split; [congruence|]. now rewrite Hl.
  - intros l w Hne [H1 (new & Hl & Hn)]. split; [exact H1|].
    exists (new ++ [l]). split.
    + cbn. now rewrite Hl, app_assoc.
    + rewrite elem_of_app, list_elem_of_singleton. intros [?|?]; [tauto|congruence].
Qed.

Lemma applied_stable w0 : stable (applied w0).
Proof.
  split.
  - intros w w' _ Hl H. unfold applied. now rewrite Hl.
  - intros l w _ (new & Hl & Hn). exists (new ++ [l]). split.
    + cbn. now rewrite Hl, app_assoc.
    + apply elem_of_app. now left.
Qed.

Lemma stable_or I J : stable I -> stable J -> stable (fun w => I w \/ J w).
Proof.
  intros [I1 I2] [J1 J2]. split.
  - intros w w' Ht Hl [H|H]; [left; eapply I1 | right; eapply J1]; eauto.
  - intros l w Hne [H|H]; [left; now apply I2 | right; now apply J2].
Qed.

Lemma stable_log_info I msg :
  stable I -> (JS.INFO, msg) <> applying ->
  triple I (JS.log_info msg) (fun _ => I) (fun _ => I).
Proof. intros [_ H2] Hne. apply triple_log_info. intros w. now apply H2. Qed.

Lemma stable_log_error I msg :
  stable I -> triple I (JS.log_error msg) (fun _ => I) (fun _ => I).
Proof. intros [_ H2]. apply triple_log_error. intros w. now apply H2. Qed.

Lemma in_history_triple {A} (m : JS.M History.store A) I :
  stable I -> triple I (in_history m) (fun _ => I) (fun _ => I).
Proof. intros [H1 _]. apply triple_zoom. intros t w. now apply H1. Qed.

Lemma in_backups_triple {A} (m : JS.M Backup.store A) I :
  stable I -> triple I (in_backups m) (fun _ => I) (fun _ => I).
Proof. intros [H1 _]. apply triple_zoom. intros t w. now apply H1. Qed.

Lemma in_restart_triple {A} (m : JS.M Restart.state A) I :
  stable I -> triple I (in_restart m) (fun _ => I) (fun _ => I).
Proof. intros [H1 _]. apply triple_zoom. intros t w. now apply H1. Qed.

Lemma sendNotification_triple title I :
  stable I -> triple I (sendNotification title) (fun _ => I) (fun _ => I).
Proof. intros [H1 _]. apply triple_modify. intros w. now apply H1. Qed.

Lemma removeDirectory_triple ev dirPath get remove (I : world -> Prop) :
  (forall w, I w -> I (remove w)) ->
  triple I (removeDirectory ev dirPath get remove) (fun _ => I) (fun _ => I).
Proof.
  intros Hr. unfold removeDirectory.
  eapply triple_try_catch with (E' := fun _ => I).
  - eapply triple_bind with (R := fun _ => I).
    { eapply triple_conseq; [apply (triple_gets _ I (fun _ => I))|auto|cbn; tauto|auto]. }
    intros [|]; [|apply triple_ret; auto].
    case_bool_decide; [apply triple_throw; auto | apply triple_modify; auto].
  - intros e. apply triple_throw. auto.
Qed.

Lemma copyDirectory_triple outcome overwrite source destination write (I : world -> Prop) :
  (forall t w, I w -> I (write t w)) ->
  triple I (copyDirectory outcome overwrite source destination write)
    (fun _ => I) (fun _ => I).
Proof.
  intros Hw. unfold copyDirectory.
  eapply triple_try_catch with (E' := fun _ => I); [|intros e; apply triple_throw; auto].
  eapply triple_bind with (R := fun _ => I).
  { eapply triple_conseq; [apply (triple_get I (fun _ => I))|auto|cbn; tauto|auto]. }
  intros w. eapply triple_bind with (R := fun _ => I); [apply triple_modify; auto|].
  intros _. destruct (source w) as [src|]; [|apply triple_throw; auto].
  eapply triple_bind with (R := fun _ => I); [apply triple_modify; auto|].
  intros _. destruct outcome; [apply triple_ret | apply triple_ret | apply triple_throw]; auto.
Qed.

Lemma createBackup_triple ev I :
  stable I -> triple I (createBackup ev) (fun _ => I) (fun _ => I).
Proof.
  intros HI. pose proof HI as [H1 H2]. unfold createBackup.
  eapply triple_try_catch with (E' := fun _ => I).
  - eapply triple_bind with (R := fun _ => I).
    { apply triple_modify. intros w. now apply H1. }
    intros _. eapply triple_bind with (R := fun _ => I).
    { now apply stable_log_info. }
    intros _. destruct (tar ev) as [[archive stats]|e].
    2:{ eapply triple_bind with (R := fun _ => I).
        { apply triple_modify. intros w. now apply H1. }
        intros _. apply triple_throw. auto. }
    eapply triple_bind with (R := fun _ => I).
    { apply triple_modify. intros w. now apply H1. }
    intros _. eapply triple_bind with (R := fun _ => I).
    { apply stable_log_info; [exact HI|]. intros [= Hm]. }
    intros _. apply triple_ret. auto.
  - intros e. eapply triple_bind with (R := fun _ => I).
    { now apply stable_log_error. }
    intros _. apply triple_throw. auto.
Qed.

(** The failure handler of the pipeline keeps what is stable. *)
Lemma handler_triple ev syncId error I :
  stable I ->
  triple I
    (JS.bind (JS.log_error ("Sync failed: " +:+ JS.message error)) (fun _ =>
     JS.bind (JS.gets temp_exists) (fun left =>
     JS.bind (if left then removeDirectory ev TEMP temp_exists (set_tempDir None)
              else JS.ret tt) (fun _ =>
     JS.bind (in_history (History.updateSyncEntry (finished ev) syncId
                {[ "status" := History.VStr "failed";
                   "message" := History.VStr "Sync failed";
                   "error" := History.VStr (JS.message error);
                   "duration" := History.VNum (duration ev) ]})) (fun _ =>
     JS.bind (sendNotification "GitHub Sync Failed") (fun _ =>
     JS.bind (JS.log_error "Sync failed - local configuration unchanged") (fun _ =>
     JS.throw (A := option History.jsval) error)))))))
    (fun _ _ => False) (fun _ => I).
Proof.
  intros HI. pose proof HI as [H1 H2].
  eapply triple_bind with (R := fun _ => I); [now apply stable_log_error|].
  intros _. eapply triple_bind with (R := fun _ => I).
  { eapply triple_conseq; [apply (triple_gets _ I (fun _ => I))|auto|cbn; tauto|auto]. }
  intros left. eapply triple_bind with (R := fun _ => I).
  { apply triple_if; [|apply triple_ret; auto].
    apply removeDirectory_triple. intros w. now apply H1. }
  intros _. eapply triple_bind with (R := fun _ => I); [now apply in_history_triple|].
  intros _. eapply triple_bind with (R := fun _ => I); [now apply sendNotification_triple|].
  intros _. eapply triple_bind with (R := fun _ => I); [now apply stable_log_error|].
  intros _. apply triple_throw. auto.
Qed.

(** Steps 1 and 2. *)
Lemma step1_triple ev (stale : bool) I :
  stable I ->
  triple I
    (if stale then
       JS.bind (JS.log_info "Cleaning up previous temp directory...") (fun _ =>
       removeDirectory ev TEMP temp_exists (set_tempDir None))
     else JS.ret tt)
    (fun _ => I) (fun _ => I).
Proof.
  intros HI. pose proof HI as [H1 H2].
  apply triple_if; [|apply triple_ret; auto].
  eapply triple_bind with (R := fun _ => I); [now apply stable_log_info|].
  intros _. apply removeDirectory_triple. intros w. now apply H1.
Qed.

Lemma step2_triple ev I :
  stable I ->
  triple I
    (if BACKUP_ENABLED ev then
       JS.bind (JS.log_info "Creating backup...") (fun _ =>
       JS.bind (createBackup ev) (fun backupPath =>
       JS.log_info ("Backup created: " +:+ backupPath)))
     else JS.ret tt)
    (fun _ => I) (fun _ => I).
Proof.
  intros HI. apply triple_if; [|apply triple_ret; auto].
  eapply triple_bind with (R := fun _ => I); [now apply stable_log_info|].
  intros _. eapply triple_bind with (R := fun _ => I); [now apply createBackup_triple|].
  intros backupPath. apply stable_log_info; [exact HI|]. intros [= Hm].
Qed.

(** Steps 4 and 5. *)
Lemma step45_triple ev I (rest : JS.M world (option History.jsval)) Q E :
  stable I ->
  (forall e w, I w -> E e w) ->
  triple I rest Q E ->
  triple I
    (JS.bind (JS.gets git_exists) (fun hasGit =>
     JS.bind (if hasGit then removeDirectory ev GIT git_exists remove_git
              else JS.ret tt) (fun _ =>
     JS.bind (JS.log_info "Validating new configuration...") (fun _ =>
     JS.bind (JS.gets validation_exists) (fun oldValidation =>
     JS.bind (if oldValidation
              then removeDirectory ev VALIDATION validation_exists (set_validationDir None)
              else JS.ret tt) (fun _ =>
     JS.bind (copyDirectory (rsync_current ev) false (fun w => Some (target w))
                validationDir (fun t => set_validationDir (Some t))) (fun _ =>
     JS.bind (copyDirectory (rsync_new ev) true tempDir
                validationDir (fun t => set_validationDir (Some t))) (fun _ =>
     JS.bind (JS.log_info "Basic validation passed") (fun _ =>
     JS.bind (removeDirectory ev VALIDATION validation_exists (set_validationDir None))
       (fun _ => rest))))))))))
    Q E.
Proof.
  intros HI HE Hrest. pose proof HI as [H1 H2].
  assert (W : forall A (m : JS.M world A),
             triple I m (fun _ => I) (fun _ => I) -> triple I m (fun _ => I) E).
  { intros A m Hm. eapply triple_conseq; [exact Hm|auto|auto|auto]. }
  eapply triple_bind with (R := fun _ => I).
  { apply W. eapply triple_conseq; [apply (triple_gets _ I (fun _ => I))|auto|cbn; tauto|auto]. }
  intros hasGit. eapply triple_bind with (R := fun _ => I).
  { apply W. apply triple_if; [|apply triple_ret; auto].
    apply removeDirectory_triple. intros w. now apply H1. }
  intros _. eapply triple_bind with (R := fun _ => I).
  { apply W. now apply stable_log_info. }
  intros _. eapply triple_bind with (R := fun _ => I).
  { apply W. eapply triple_conseq; [apply (triple_gets _ I (fun _ => I))|auto|cbn; tauto|auto]. }
  intros oldValidation. eapply triple_bind with (R := fun _ => I).
  { apply W. apply triple_if; [|apply triple_ret; auto].
    apply removeDirectory_triple. intros w. now apply H1. }
  intros _. eapply triple_bind with (R := fun _ => I).
  { apply W. apply copyDirectory_triple. intros t w. now apply H1. }
  intros _. eapply triple_bind with (R := fun _ => I).
  { apply W. apply copyDirectory_triple. intros t w. now apply H1. }
  intros _. eapply triple_bind with (R := fun _ => I).
  { apply W. now apply stable_log_info. }
  intros _. eapply triple_bind with (R := fun _ => I).
  { apply W. apply removeDirectory_triple. intros w. now apply H1. }
  intros _. exact Hrest.
Qed.

(** Step 6 to the end, once the line of step 6 is in the log. *)
Lemma step6_triple ev syncId w0 :
  triple (applied w0)
    (JS.bind (copyDirectory (rsync_apply ev) true tempDir
                (fun w => Some (target w)) set_target) (fun _ =>
     JS.bind (JS.log_info "Changes applied successfully") (fun _ =>
     JS.bind (removeDirectory ev TEMP temp_exists (set_tempDir None)) (fun _ =>
     JS.bind (if BACKUP_ENABLED ev
              then in_backups (Backup.cleanOldBackups (prune ev) (BACKUP_RETENTION ev))
              else JS.ret tt) (fun _ =>
     JS.bind (if bool_decide (Restart.AUTO_RESTART (restart_env ev) = Some "true")
              then JS.bind (in_restart (Restart.scheduleRestart (restart_env ev) 10))
                           (fun _ => JS.ret tt)
              else JS.ret tt) (fun _ =>
     JS.bind (in_history (History.updateSyncEntry (finished ev) syncId
                {[ "status" := History.VStr "success";
                   "message" := History.VStr "Sync completed successfully";
                   "duration" := History.VNum (duration ev);
                   "backupCreated" := History.VBool (BACKUP_ENABLED ev) ]})) (fun _ =>
     JS.bind (sendNotification "GitHub Sync Successful") (fun _ =>
     JS.bind (JS.log_info "GitHub sync completed successfully") (fun _ =>
     JS.ret syncId)))))))))
    (fun _ => applied w0) (fun _ => applied w0).
Proof.
  pose proof (applied_stable w0) as HI. pose proof HI as [H1 H2].
  set (I := applied w0) in *.
  eapply triple_bind with (R := fun _ => I).
  { apply copyDirectory_triple. intros t w (new & Hl & Hn). exists new. auto. }
  intros _. eapply triple_bind with (R := fun _ => I); [now apply stable_log_info|].
  intros _. eapply triple_bind with (R := fun _ => I).
  { apply removeDirectory_triple. intros w. now apply H1. }
  intros _. eapply triple_bind with (R := fun _ => I).
  { apply triple_if; [now apply in_backups_triple | apply triple_ret; auto]. }
  intros _. eapply triple_bind with (R := fun _ => I).
  { apply triple_if; [|apply triple_ret; auto].
    eapply triple_bind with (R := fun _ => I); [now apply in_restart_triple|].
    intros _. apply triple_ret. auto. }
  intros _. eapply triple_bind with (R := fun _ => I); [now apply in_history_triple|].
  intros _. eapply triple_bind with (R := fun _ => I); [now apply sendNotification_triple|].
  intros _. eapply triple_bind with (R := fun _ => I); [now apply stable_log_info|].
  intros _. apply triple_ret. auto.
Qed.

Lemma triple_false {S A} (m : JS.M S A) Q E : triple (fun _ => False) m Q E.
Proof. intros s []. Qed.

Lemma untouched_applying w0 w : untouched w0 w -> applied w0 (JS.append_log applying w).
Proof.
  intros [_ (new & Hl & _)]. exists (new ++ [applying]). split.
  - cbn. now rewrite Hl, app_assoc.
  - apply elem_of_app. right. constructor.
Qed.

(** The whole pipeline: the target is untouched unless step 6 was entered. *)
Lemma syncFromGitHub_triple ev w0 :
  triple (untouched w0) (syncFromGitHub ev)
    (fun _ w => untouched w0 w \/ applied w0 w)
    (fun _ w => untouched w0 w \/ applied w0 w).
Proof.
  pose proof (untouched_stable w0) as HU. pose proof (applied_stable w0) as HP.
  pose proof (stable_or _ _ HU HP) as HUP. pose proof HU as [U1 U2].
  set (U := untouched w0) in *. set (P := applied w0) in *.
  assert (W : forall A (m : JS.M world A),
             triple U m (fun _ => U) (fun _ => U) ->
             triple U m (fun _ => U) (fun _ w => U w \/ P w)).
  { intros A m Hm. eapply triple_conseq; [exact Hm|auto|auto|intros; tauto]. }
  unfold syncFromGitHub.
  eapply triple_bind with (R := fun _ => U); [apply W; now apply stable_log_info|].
  intros _. eapply triple_bind with (R := fun _ => U); [apply W; now apply in_history_triple|].
  intros syncId. eapply triple_bind with (R := fun _ => U);
    [apply W; now apply sendNotification_triple|].
  intros _. eapply triple_try_catch with (E' := fun _ w => U w \/ P w).
  2:{ intros e. eapply triple_conseq; [apply (handler_triple ev syncId e _ HUP)|auto| |auto].
      intros a w []. }
  eapply triple_bind with (R := fun _ => U).
  { apply W. eapply triple_conseq; [apply (triple_gets _ U (fun _ => U))|auto|cbn; tauto|auto]. }
  intros stale. eapply triple_bind with (R := fun _ => U); [apply W; now apply step1_triple|].
  intros _. eapply triple_bind with (R := fun _ => U); [apply W; now apply step2_triple|].
  intros _. eapply triple_bind with (R := fun _ => U); [apply W; now apply stable_log_info|].
  intros _. eapply triple_bind with (R := fun _ => U).
  { apply W. eapply triple_try_catch with (E' := fun _ => U); [|intros e; apply triple_throw; auto].
    destruct (clone ev) as [files|e]; [|apply triple_throw; auto].
    eapply triple_bind with (R := fun _ => U); [apply triple_modify; intros w; now apply U1|].
    intros _. now apply stable_log_info. }
  intros _. apply step45_triple; [exact HU|intros; tauto|].
  eapply triple_bind with (R := fun _ => P).
  { apply triple_log_info. intros w Hw. now apply untouched_applying. }
  intros _. eapply triple_conseq;
    [apply (step6_triple ev syncId w0)|auto|cbn; intros; tauto|cbn; intros; tauto].
Qed.

(** When the clone fails the pipeline throws with the target untouched. *)
Lemma syncFromGitHub_clone_fails ev w0 e0 :
  clone ev = Throw e0 ->
  triple (untouched w0) (syncFromGitHub ev) (fun _ _ => False) (fun _ => untouched w0).
Proof.
  intros Hc. pose proof (untouched_stable w0) as HU. pose proof HU as [U1 U2].
  set (U := untouched w0) in *.
  assert (W : forall A (m : JS.M world A),
             triple U m (fun _ => U) (fun _ => U) -> triple U m (fun _ => U) (fun _ => U))
    by auto.
  unfold syncFromGitHub.
  eapply triple_bind with (R := fun _ => U); [now apply stable_log_info|].
  intros _. eapply triple_bind with (R := fun _ => U); [now apply in_history_triple|].
  intros syncId. eapply triple_bind with (R := fun _ => U);
    [now apply sendNotification_triple|].
  intros _. eapply triple_try_catch with (E' := fun _ => U).
  2:{ intros e. apply (handler_triple ev syncId e _ HU). }
  eapply triple_bind with (R := fun _ => U).
  { eapply triple_conseq; [apply (triple_gets _ U (fun _ => U))|auto|cbn; tauto|auto]. }
  intros stale. eapply triple_bind with (R := fun _ => U); [now apply step1_triple|].
  intros _. eapply triple_bind with (R := fun _ => U); [now apply step2_triple|].
  intros _. eapply triple_bind with (R := fun _ => U); [now apply stable_log_info|].
  intros _. eapply triple_bind with (R := fun _ _ => False); [|intros _; apply triple_false].
  eapply triple_try_catch with (E' := fun _ => U); [|intros e; apply triple_throw; auto].
  rewrite Hc. apply triple_throw. auto.
Qed.

Lemma untouched_refl w : untouched w w.
Proof.
  split; [reflexivity|]. exists []. split; [now rewrite app_nil_r | apply not_elem_of_nil].
Qed.

(** C2: a run in which the pipeline does not reach the apply step (the
    line that opens step 6 is not among the lines the run logged) leaves
    the files below the sync path exactly as they were; in particular a
    failing clone makes the run throw with the files as they were. *)
Theorem syncFromGitHub_target_untouched ev w :
  (forall new, log (snd (syncFromGitHub ev w)) = log w ++ new ->
               applying ∉ new ->
               target (snd (syncFromGitHub ev w)) = target w)
  /\ (JS.returns (clone ev) = false ->
      JS.returns (fst (syncFromGitHub ev w)) = false
      /\ target (snd (syncFromGitHub ev w)) = target w).
Proof.
  split.
  - intros new Hl Hn.
    pose proof (triple_run _ _ _ _ w (syncFromGitHub_triple ev w) (untouched_refl w)) as R.
    assert (H : untouched w (snd (syncFromGitHub ev w))
                \/ applied w (snd (syncFromGitHub ev w)))
      by (destruct (fst (syncFromGitHub ev w)); exact R).
    destruct H as [[Ht _]|(new' & Hl' & Hn')]; [exact Ht|].
    rewrite Hl in Hl'. apply app_inv_head in Hl'. subst new'. contradiction.
  - intros Hc. destruct (clone ev) as [files|e0] eqn:Hclone; [discriminate|].
    pose proof (triple_run _ _ _ _ w (syncFromGitHub_clone_fails ev w e0 Hclone)
                  (untouched_refl w)) as R.
    destruct (fst (syncFromGitHub ev w)); [contradiction|].
    split; [reflexivity|]. now destruct R.
Qed.

Definition clone_fails : env :=
  {| BACKUP_ENABLED := true; branch := "main"; commits := 1; syncType := "webhook";
     started := ev0; finished := ev0; duration := 1200; rm_fails := ∅;
     tar := Ok ("config-backup-2024-01-04.tar.gz",
                {| Backup.mtime := 4; Backup.st_size := 10 |});
     tar_leftover := None;
     clone := Throw (JS.Error "Authentication failed");
     rsync_current := Completed; rsync_new := Completed; rsync_apply := Completed;
     prune := no_failures; BACKUP_RETENTION := 5; restart_env := restart_enabled |}.

Definition clone_works : env :=
  {| BACKUP_ENABLED := true; branch := "main"; commits := 1; syncType := "webhook";
     started := ev0; finished := ev0; duration := 1200; rm_fails := ∅;
     tar := Ok ("config-backup-2024-01-04.tar.gz",
                {| Backup.mtime := 4; Backup.st_size := 10 |});
     tar_leftover := None;
     clone := Ok {[ "configuration.yaml" := "homeassistant: v2";
                    ".git/HEAD" := "ref: refs/heads/main" ]};
     rsync_current := Completed; rsync_new := Completed; rsync_apply := Completed;
     prune := no_failures; BACKUP_RETENTION := 5; restart_env := restart_enabled |}.

Definition world0 : world :=
  {| target := TrackedSync.target config0; tempDir := None; validationDir := None;
     history := empty_store; backups := three_backups; restart := Restart.initial;
     notifications := []; log := [] |}.

Definition target_listing (w : world) : list (string * string) :=
  merge_sort (fun a b => bool_decide (String.leb (fst a) (fst b))) (map_to_list (target w)).

Definition statuses (w : world) : list (option History.jsval) :=
  (fun e : History.entry => e !! "status") <$> History.entries (history w).

Example failed_clone_run :
  let r := syncFromGitHub clone_fails world0 in
  fst r = Throw (JS.Error "Failed to clone repository: Authentication failed")
  /\ target_listing (snd r) = target_listing world0
  /\ statuses (snd r) = [Some (History.VStr "failed")]
  /\ notifications (snd r) = ["GitHub Sync Started"; "GitHub Sync Failed"]
  /\ tempDir (snd r) = None.
Proof. vm_compute. repeat split. Qed.

Example successful_run :
  let r := syncFromGitHub clone_works world0 in
  fst r = Ok (Some (History.VStr "sync_1700000000000_k3j9x0q1z"))
  /\ target_listing (snd r)
     = [("configuration.yaml", "homeassistant: v2"); ("secrets.yaml", "password: hunter2")]
  /\ statuses (snd r) = [Some (History.VStr "success")]
  /\ notifications (snd r) = ["GitHub Sync Started"; "GitHub Sync Successful"]
  /\ tempDir (snd r) = None
  /\ Restart.restartTimer (restart (snd r)) = Some 0.
Proof. vm_compute. repeat split. Qed.

Lemma syncFromGitHub_target_untouched_witness :
  JS.returns (clone clone_fails) = false
  /\ JS.returns (fst (syncFromGitHub clone_fails world0)) = false
  /\ target (snd (syncFromGitHub clone_fails world0)) = target world0.
Proof.
  assert (Hc : JS.returns (clone clone_fails) = false) by reflexivity.
  split; [exact Hc|].
  exact (proj2 (syncFromGitHub_target_untouched clone_fails world0) Hc).
Defined.

End PipelineFacts.

(** ** Ledger queries and updates *)

Section HistoryQueriesFacts.

Import History HistoryQueries.

Lemma loadHistory_file s : HISTORY_FILE (snd (loadHistory s)) = HISTORY_FILE s.
Proof. destruct s as [[| | |[es|]] lg]; reflexivity. Qed.

Lemma saveHistory_run ev h s :
  saveHistory ev h s
  = (Ok tt,
     if write_fails ev
     then JS.append_log (JS.ERROR, "Failed to save sync history: ENOSPC: no space left on device") s
     else set_file (Fs.Parsed (LArray (take MAX_HISTORY_ENTRIES h))) s).
Proof. unfold saveHistory, JS.try_catch. now destruct (write_fails ev). Qed.

Lemma findIndex_lookup id h i :
  findIndex id h = Some i ->
  (exists e, h !! i = Some e /\ e !! "id" = id)
  /\ forall j e, (j < i)%nat -> h !! j = Some e -> e !! "id" <> id.
Proof.
  revert i. induction h as [|x h IH]; intros i; cbn; [discriminate|].
  case_bool_decide as Hx.
  - intros [= <-]. split; [eauto|]. intros j e Hj. lia.
  - destruct (findIndex id h) as [k|]; [|discriminate]. intros [= <-].
    destruct (IH k eq_refl) as [He Hlt]. split; [exact He|].
    intros [|j] e Hj; cbn; [congruence|]. apply Hlt. lia.
Qed.

Lemma findIndex_None id h :
  findIndex id h = None <-> Forall (fun e => e !! "id" <> id) h.
Proof.
  induction h as [|x h IH]; cbn; [split; [constructor|reflexivity]|].
  case_bool_decide as Hx.
  - split; [discriminate|]. intros H. apply Forall_cons in H as [H _]. contradiction.
  - rewrite Forall_cons, <- IH. destruct (findIndex id h); cbn; split;
      try discriminate; try tauto. intros [_ [=]].
Qed.

(** What one update does to the ledger file. *)
Lemma updateSyncEntry_run ev id updates s :
  HISTORY_FILE s <> Fs.Parsed LOther ->
  fst (updateSyncEntry ev id updates s) = Ok tt
  /\ HISTORY_FILE (snd (updateSyncEntry ev id updates s))
     = match findIndex id (entries s) with
       | Some i =>
           if write_fails ev then HISTORY_FILE s
           else Fs.Parsed (LArray (take MAX_HISTORY_ENTRIES
                             (alter (fun old => updates ∪ old) i (entries s))))
       | None => HISTORY_FILE s
       end.
Proof.
  intros Hf. destruct (loadHistory_entries s Hf) as [lg Hl].
  unfold updateSyncEntry, JS.bind. rewrite Hl.
  destruct (findIndex id (entries s)) as [i|].
  - rewrite saveHistory_run. now destruct (write_fails ev).
  - split; reflexivity.
Qed.

(** X1: an update that names no entry of the ledger returns with the ledger
    as it was and a warning in the log; an update that names entries
    changes the first of them only: the fields of [updates] are set, its
    other fields kept, and no entry is added, dropped or moved. *)
Theorem updateSyncEntry_effect ev id updates s :
  HISTORY_FILE s <> Fs.Parsed LOther -> write_fails ev = false ->
  (length (entries s) <= MAX_HISTORY_ENTRIES)%nat ->
  let r := updateSyncEntry ev id updates s in
  let after := entries (snd r) in
  fst r = Ok tt
  /\ length after = length (entries s)
  /\ match findIndex id (entries s) with
     | None =>
         HISTORY_FILE (snd r) = HISTORY_FILE s
         /\ last (log (snd r)) = Some (JS.WARN, "Sync entry not found")
     | Some i =>
         (forall j, j <> i -> after !! j = entries s !! j)
         /\ (forall j e, (j < i)%nat -> entries s !! j = Some e -> e !! "id" <> id)
         /\ exists old, entries s !! i = Some old /\ old !! "id" = id
            /\ after !! i = Some (updates ∪ old)
            /\ forall k, (updates ∪ old) !! k
                         = match updates !! k with Some v => Some v | None => old !! k end
     end.
Proof.
  intros Hf Hw Hlen r after.
  destruct (updateSyncEntry_run ev id updates s Hf) as [Hr Hs].
  fold r in Hr, Hs. rewrite Hw in Hs.
  assert (Ha : after = match findIndex id (entries s) with
                       | Some i => alter (fun old => updates ∪ old) i (entries s)
                       | None => entries s
                       end).
  { unfold after, entries at 1. rewrite Hs. destruct (findIndex id (entries s)).
    - now rewrite take_ge by (rewrite length_alter; exact Hlen).
    - reflexivity. }
  rewrite Ha. split; [exact Hr|].
  destruct (findIndex id (entries s)) as [i|] eqn:Hi.
  - destruct (findIndex_lookup _ _ _ Hi) as [(old & Hold & Hid) Hlt].
    split; [apply length_alter|].
    split; [|split; [exact Hlt|]].
    + intros j Hj. now apply list_lookup_alter_ne.
    + exists old. split; [exact Hold|]. split; [exact Hid|]. split.
      * now rewrite list_lookup_alter_eq, Hold.
      * intros k. rewrite lookup_union. destruct (updates !! k), (old !! k); reflexivity.
  - split; [reflexivity|]. split; [exact Hs|].
    destruct (loadHistory_entries s Hf) as [lg Hl].
    unfold r, updateSyncEntry, JS.bind. rewrite Hl, Hi. cbn. apply last_snoc.
Qed.

(** A ledger with the one entry of a manual sync that has started. *)
Definition one_entry : store :=
  snd (addSyncEntry ev0 {[ "type" := VStr "manual" ]} empty_store).

Lemma updateSyncEntry_effect_witness :
  HISTORY_FILE one_entry <> Fs.Parsed LOther /\ write_fails ev0 = false
  /\ (length (entries one_entry) <= MAX_HISTORY_ENTRIES)%nat
  /\ fst (updateSyncEntry ev0 (Some (VStr "sync_1700000000000_k3j9x0q1z"))
            {[ "status" := VStr "success" ]} one_entry) = Ok tt
  /\ length (entries (snd (updateSyncEntry ev0 (Some (VStr "sync_1700000000000_k3j9x0q1z"))
                             {[ "status" := VStr "success" ]} one_entry)))
     = length (entries one_entry).
Proof.
  assert (H1 : HISTORY_FILE one_entry <> Fs.Parsed LOther) by (vm_compute; discriminate).
  assert (H2 : (length (entries one_entry) <= MAX_HISTORY_ENTRIES)%nat)
    by (vm_compute; lia).
  pose proof (updateSyncEntry_effect ev0 (Some (VStr "sync_1700000000000_k3j9x0q1z"))
                {[ "status" := VStr "success" ]} one_entry H1 eq_refl H2) as T.
  cbv zeta in T. destruct T as (T1 & T2 & _).
  repeat split; assumption.
Defined.


(** The ledger file after an entry was added and then updated under the
    id the addition returned. *)
Lemma add_then_update ev ev' e updates s :
  HISTORY_FILE s <> Fs.Parsed LOther ->
  write_fails ev = false -> write_fails ev' = false ->
  let s1 := snd (addSyncEntry ev e s) in
  HISTORY_FILE (snd (updateSyncEntry ev' (newEntry ev e !! "id") updates s1))
  = Fs.Parsed (LArray (take MAX_HISTORY_ENTRIES ((updates ∪ newEntry ev e) :: entries s))).
Proof.
  intros Hf Hw Hw' s1.
  destruct (addSyncEntry_run ev e s Hf Hw) as [Hr Hs]. fold s1 in Hs.
  assert (Hf1 : HISTORY_FILE s1 <> Fs.Parsed LOther) by (rewrite Hs; discriminate).
  destruct (updateSyncEntry_run ev' (newEntry ev e !! "id") updates s1 Hf1) as [Hr2 Hs2].
  assert (He : entries s1 = newEntry ev e :: take 99 (entries s)).
  { unfold entries at 1. rewrite Hs. reflexivity. }
  rewrite He in Hs2. cbn [findIndex] in Hs2.
  rewrite bool_decide_eq_true_2 in Hs2 by reflexivity. rewrite Hw' in Hs2.
  rewrite Hs2. cbn [alter list_alter].
  change MAX_HISTORY_ENTRIES with (S 99). cbn [take]. now rewrite take_take, Nat.min_id.
Qed.

(** X2: the id [addSyncEntry] returns names the entry it stored: an update
    with that id changes the entry just added, whatever ids the older
    entries carry. *)
Theorem updateSyncEntry_after_addSyncEntry ev ev' e updates s :
  HISTORY_FILE s <> Fs.Parsed LOther ->
  write_fails ev = false -> write_fails ev' = false ->
  let r1 := addSyncEntry ev e s in
  exists id,
    fst r1 = Ok id
    /\ let r2 := updateSyncEntry ev' id updates (snd r1) in
       fst r2 = Ok tt
       /\ entries (snd r2)
          = take MAX_HISTORY_ENTRIES ((updates ∪ newEntry ev e) :: entries s).
Proof.
  intros Hf Hw Hw' r1.
  destruct (addSyncEntry_run ev e s Hf Hw) as [Hr Hs]. fold r1 in Hr, Hs.
  exists (newEntry ev e !! "id"). split; [exact Hr|]. cbv zeta.
  assert (Hf1 : HISTORY_FILE (snd r1) <> Fs.Parsed LOther) by (rewrite Hs; discriminate).
  destruct (updateSyncEntry_run ev' (newEntry ev e !! "id") updates (snd r1) Hf1) as [Hr2 _].
  split; [exact Hr2|].
  unfold entries at 1. unfold r1. now rewrite (add_then_update ev ev' e updates s Hf Hw Hw').
Qed.

Lemma updateSyncEntry_after_addSyncEntry_witness :
  HISTORY_FILE one_entry <> Fs.Parsed LOther /\ write_fails ev0 = false
  /\ exists id,
       fst (addSyncEntry ev0 {[ "type" := VStr "webhook" ]} one_entry) = Ok id
       /\ entries (snd (updateSyncEntry ev0 id {[ "status" := VStr "failed" ]}
                          (snd (addSyncEntry ev0 {[ "type" := VStr "webhook" ]} one_entry))))
          = take MAX_HISTORY_ENTRIES
              (({[ "status" := VStr "failed" ]}
                ∪ newEntry ev0 {[ "type" := VStr "webhook" ]}) :: entries one_entry).
Proof.
  assert (H1 : HISTORY_FILE one_entry <> Fs.Parsed LOther) by (vm_compute; discriminate).
  split; [exact H1|]. split; [reflexivity|].
  destruct (updateSyncEntry_after_addSyncEntry ev0 ev0 {[ "type" := VStr "webhook" ]}
              {[ "status" := VStr "failed" ]} one_entry H1 eq_refl eq_refl)
    as (id & Hid & _ & He).
  exists id. split; [exact Hid | exact He].
Defined.

Lemma filter_status_length (h : list entry) :
  (length (List.filter (has_status "success") h)
   + length (List.filter (has_status "failed") h)
   + length (List.filter (has_status "in_progress") h) <= length h)%nat
  /\ (length (List.filter (has_status "success") h)
      + length (List.filter (has_status "failed") h)
      + length (List.filter (has_status "in_progress") h) = length h
      <-> Forall (fun e => has_status "success" e || has_status "failed" e
                           || has_status "in_progress" e = true) h).
Proof.
  induction h as [|e h [IH1 IH2]].
  { split; [reflexivity|]. split; [constructor|reflexivity]. }
  rewrite Forall_cons, <- IH2. cbn [List.filter].
  destruct (has_status "success" e) eqn:E1, (has_status "failed" e) eqn:E2,
    (has_status "in_progress" e) eqn:E3;
    unfold has_status in E1, E2, E3;
    try (apply bool_decide_eq_true in E1; apply bool_decide_eq_true in E2; congruence);
    try (apply bool_decide_eq_true in E1; apply bool_decide_eq_true in E3; congruence);
    try (apply bool_decide_eq_true in E2; apply bool_decide_eq_true in E3; congruence);
    cbn [length orb]; (split; [lia|]); intuition (try discriminate; try lia).
Qed.

Lemma find_None_filter {A} (p : A -> bool) (h : list A) :
  List.find p h = None <-> length (List.filter p h) = O.
Proof.
  induction h as [|x h IH]; cbn; [split; reflexivity|].
  destruct (p x); [split; discriminate | exact IH].
Qed.

Lemma find_Some_first {A} (p : A -> bool) (h : list A) e :
  List.find p h = Some e ->
  exists i, h !! i = Some e /\ p e = true
            /\ forall j x, (j < i)%nat -> h !! j = Some x -> p x = false.
Proof.
  induction h as [|x h IH]; cbn; [discriminate|].
  destruct (p x) eqn:Hx.
  - intros [= <-]. exists O. split; [reflexivity|]. split; [exact Hx|]. intros j ?. lia.
  - intros He. destruct (IH He) as (i & Hi & Hs & Hlt). exists (S i).
    split; [exact Hi|]. split; [exact Hs|].
    intros [|j] y Hj; cbn; [congruence|]. apply Hlt. lia.
Qed.

(** X3: [getStats] on a ledger that is an array, missing or unusable: the
    three counts never exceed the total and add up to it exactly when every
    entry has one of the three statuses; the last sync is the first entry;
    the last successful sync is the first entry with status success, and
    is null exactly when the success count is 0. The ledger file is not
    changed. *)
Theorem getStats_consistent s :
  HISTORY_FILE s <> Fs.Parsed LOther ->
  exists st,
    fst (getStats s) = Ok st
    /\ HISTORY_FILE (snd (getStats s)) = HISTORY_FILE s
    /\ total st = length (entries s)
    /\ (successful st + failed st + inProgress st <= total st)%nat
    /\ (successful st + failed st + inProgress st = total st
        <-> Forall (fun e => has_status "success" e || has_status "failed" e
                             || has_status "in_progress" e = true) (entries s))
    /\ lastSync st = head (entries s)
    /\ (lastSuccessfulSync st = None <-> successful st = O)
    /\ (forall e, lastSuccessfulSync st = Some e ->
          exists i, entries s !! i = Some e /\ has_status "success" e = true
                    /\ forall j x, (j < i)%nat -> entries s !! j = Some x ->
                                   has_status "success" x = false).
Proof.
  intros Hf. destruct (loadHistory_entries s Hf) as [lg Hl].
  unfold getStats, JS.bind. rewrite Hl. eexists. split; [reflexivity|].
  cbn [fst snd total successful failed inProgress lastSync lastSuccessfulSync HISTORY_FILE].
  destruct (filter_status_length (entries s)) as [H1 H2].
  split; [reflexivity|]. split; [reflexivity|]. split; [exact H1|]. split; [exact H2|].
  split; [reflexivity|]. split; [apply find_None_filter|]. apply find_Some_first.
Qed.

Lemma getStats_consistent_witness :
  HISTORY_FILE one_entry <> Fs.Parsed LOther
  /\ exists st, fst (getStats one_entry) = Ok st
                /\ total st = length (entries one_entry)
                /\ (successful st + failed st + inProgress st <= total st)%nat.
Proof.
  assert (H1 : HISTORY_FILE one_entry <> Fs.Parsed LOther) by (vm_compute; discriminate).
  split; [exact H1|].
  destruct (getStats_consistent one_entry H1) as (st & Hst & _ & Ht & Hle & _).
  exists st. repeat split; assumption.
Defined.

(** X4: [getRecentSyncs(limit)] returns the first [limit] entries of the
    ledger, all of them when there are fewer; a negative limit [-k] does not
    give the empty list but all entries except the last [k]; [NaN] gives the
    empty list. A missing or unusable ledger reads as empty. *)
Theorem getRecentSyncs_slice s limit :
  HISTORY_FILE s <> Fs.Parsed LOther ->
  exists l,
    fst (getRecentSyncs limit s) = Ok l
    /\ l = match limit with
           | None => []
           | Some n =>
               if (0 <=? n)%Z then take (Z.to_nat n) (entries s)
               else take (length (entries s) - Z.to_nat (- n)) (entries s)
           end
    /\ l `prefix_of` entries s
    /\ (match HISTORY_FILE s with Fs.Parsed _ => False | _ => True end -> l = []).
Proof.
  intros Hf. destruct (loadHistory_entries s Hf) as [lg Hl].
  unfold getRecentSyncs, JS.bind. rewrite Hl. eexists. split; [reflexivity|].
  assert (E : match limit with Some n => slice_to n (entries s) | None => [] end
              = match limit with
                | None => []
                | Some n =>
                    if (0 <=? n)%Z then take (Z.to_nat n) (entries s)
                    else take (length (entries s) - Z.to_nat (- n)) (entries s)
                end).
  { destruct limit as [n|]; [|reflexivity]. unfold slice_to.
    destruct (Z.leb_spec 0 n), (Z.ltb_spec n 0); try lia.
    - destruct (Z.le_gt_cases n (Z.of_nat (length (entries s)))).
      + now rewrite Z.min_l.
      + rewrite Z.min_r, Nat2Z.id by lia. rewrite !take_ge by lia. reflexivity.
    - f_equal. lia. }
  rewrite E. split; [reflexivity|]. split.
  - destruct limit as [n|]; [|apply prefix_nil].
    destruct (0 <=? n)%Z; apply prefix_take.
  - intros Hc. assert (He : entries s = []).
    { unfold entries. destruct (HISTORY_FILE s); try reflexivity. contradiction. }
    rewrite He. destruct limit as [n|]; [|reflexivity].
    destruct (0 <=? n)%Z; now rewrite take_nil.
Qed.

Lemma getRecentSyncs_slice_witness :
  HISTORY_FILE one_entry <> Fs.Parsed LOther
  /\ exists l, fst (getRecentSyncs (Some (-1)%Z) one_entry) = Ok l
               /\ l = take (length (entries one_entry) - 1) (entries one_entry).
Proof.
  assert (H1 : HISTORY_FILE one_entry <> Fs.Parsed LOther) by (vm_compute; discriminate).
  split; [exact H1|].
  destruct (getRecentSyncs_slice one_entry (Some (-1)%Z) H1) as (l & Hl & He & _).
  exists l. split; [exact Hl | exact He].
Defined.

(** X5: [clearHistory] removes the ledger file whatever it holds, also
    a file that cannot be read or parsed; afterwards the ledger reads as
    empty and the next [addSyncEntry] leaves exactly its own entry. When
    the removal fails the call throws and the file is as before. *)
Theorem clearHistory_then_add s ev e :
  let r := clearHistory false s in
  let r' := clearHistory true s in
  fst r = Ok tt
  /\ HISTORY_FILE (snd r) = Fs.Absent
  /\ (forall limit, fst (getRecentSyncs limit (snd r)) = Ok [])
  /\ fst (loadHistory (snd r)) = Ok (LArray [])
  /\ (write_fails ev = false ->
      entries (snd (addSyncEntry ev e (snd r))) = [newEntry ev e])
  /\ HISTORY_FILE (snd r') = HISTORY_FILE s
  /\ (HISTORY_FILE s <> Fs.Absent ->
      fst r' = Throw (JS.Error "EACCES: permission denied, unlink"))
  /\ (HISTORY_FILE s = Fs.Absent -> fst r' = Ok tt).
Proof.
  cbv zeta.
  assert (Hc : clearHistory false s
               = (Ok tt, JS.append_log (JS.INFO, "Sync history cleared") (set_file Fs.Absent s))).
  { unfold clearHistory, JS.try_catch, JS.bind, JS.get.
    destruct s as [[| | |d] lg]; reflexivity. }
  rewrite Hc. cbn [fst snd].
  split; [reflexivity|]. split; [reflexivity|].
  split; [intros [n|]; [cbn; unfold slice_to; now rewrite take_nil | reflexivity]|].
  split; [reflexivity|].
  split.
  - intros Hw.
    match goal with |- entries (snd (addSyncEntry ev e ?s1)) = _ =>
      destruct (addSyncEntry_run ev e s1) as [_ Hs]; [discriminate|exact Hw|] end.
    unfold entries at 1. rewrite Hs. reflexivity.
  - unfold clearHistory, JS.try_catch, JS.bind, JS.get.
    destruct s as [[| | |d] lg]; cbn; (split; [reflexivity|]);
      split; try reflexivity; try (intros; congruence); intros [=].
Qed.

End HistoryQueriesFacts.

(** ** The protection list *)

Section PinsFacts.

Import Backup Pins.
Local Open Scope Z_scope.

Definition set_protection (names : list string) (s : store) : store :=
  {| BACKUP_DIR := BACKUP_DIR s; PROTECTED_BACKUPS_FILE := Fs.Parsed (PArray names);
     unlink_calls := unlink_calls s; log := log s |}.

Lemma isBackupProtected_run s f :
  loaded s <> POther ->
  fst (isBackupProtected f s) = Ok (bool_decide (f ∈ protected_names s)).
Proof.
  intros Hp. destruct (loadProtectedBackups_spec s) as [lg Hl].
  unfold isBackupProtected, JS.bind. rewrite Hl. unfold protected_names.
  destruct (loaded s); [reflexivity|contradiction].
Qed.

(** What a call of [protectBackup] on an existing file leaves. *)
Lemma protectBackup_run ev f s :
  is_Some (files s !! f) -> loaded s <> POther ->
  exists lg,
    protectBackup ev f s
    = (Ok true,
       relog lg (if bool_decide (f ∈ protected_names s) then s
                 else if write_fails ev then s
                 else set_protection (protected_names s ++ [f]) s)).
Proof.
  intros He Hp. destruct (loadProtectedBackups_spec s) as [lg Hl].
  unfold protectBackup, JS.try_catch, JS.bind at 1, exists_, JS.gets.
  rewrite bool_decide_eq_true_2 by exact He. cbn [negb].
  unfold JS.bind at 1. rewrite Hl. unfold protected_names.
  destruct (loaded s) as [names|]; [|contradiction].
  case_bool_decide.
  - exists lg. reflexivity.
  - unfold JS.bind, saveProtectedBackups, JS.try_catch.
    destruct (write_fails ev); eexists; reflexivity.
Qed.

(** The protection list and the directory after a backup was pinned. *)
Lemma protectBackup_names ev f s :
  is_Some (files s !! f) -> loaded s <> POther -> write_fails ev = false ->
  let s1 := snd (protectBackup ev f s) in
  (forall g, g ∈ protected_names s1 <-> g = f \/ g ∈ protected_names s)
  /\ files s1 = files s /\ loaded s1 <> POther.
Proof.
  intros He Hp Hw s1.
  destruct (protectBackup_run ev f s He Hp) as [lg Hr]. rewrite Hw in Hr.
  split; [|split].
  - intros g. unfold s1. rewrite Hr. cbn [snd]. case_bool_decide as Hin.
    + change (protected_names (relog lg s)) with (protected_names s).
      split; [tauto|]. intros [->|?]; assumption.
    + change (protected_names (relog lg ?x)) with (protected_names x).
      unfold protected_names at 1, loaded. cbn. rewrite elem_of_app, list_elem_of_singleton.
      tauto.
  - unfold s1. rewrite Hr. cbn [snd]. now case_bool_decide.
  - unfold s1. rewrite Hr. cbn [snd]. case_bool_decide; [exact Hp|discriminate].
Qed.

(** X6: pinning an existing backup makes [isBackupProtected] answer true
    for it, keeps every earlier pin, touches no file of the directory, and
    a second call changes nothing. *)
Theorem protectBackup_protects ev f s :
  is_Some (files s !! f) -> loaded s <> POther -> write_fails ev = false ->
  let s1 := snd (protectBackup ev f s) in
  fst (protectBackup ev f s) = Ok true
  /\ fst (isBackupProtected f s1) = Ok true
  /\ (forall g, g ∈ protected_names s1 <-> g = f \/ g ∈ protected_names s)
  /\ files s1 = files s
  /\ PROTECTED_BACKUPS_FILE (snd (protectBackup ev f s1)) = PROTECTED_BACKUPS_FILE s1.
Proof.
  intros He Hp Hw s1.
  destruct (protectBackup_names ev f s He Hp Hw) as (Hn & Hf & Hp1).
  fold s1 in Hn, Hf, Hp1.
  assert (He1 : is_Some (files s1 !! f)) by now rewrite Hf.
  split; [now destruct (protectBackup_run ev f s He Hp) as [lg ->]|]. split.
  { rewrite (isBackupProtected_run s1 f Hp1). f_equal. apply bool_decide_eq_true.
    apply Hn. now left. }
  split; [exact Hn|]. split; [exact Hf|].
  destruct (protectBackup_run ev f s1 He1 Hp1) as [lg1 Hr1]. rewrite Hr1. cbn [snd].
  rewrite bool_decide_eq_true_2 by (apply Hn; now left). reflexivity.
Qed.

Lemma protectBackup_protects_witness :
  let f := "config-backup-2024-01-02.tar.gz"%string in
  is_Some (files three_backups !! f) /\ loaded three_backups <> POther
  /\ write_fails no_failures = false
  /\ fst (protectBackup no_failures f three_backups) = Ok true
  /\ fst (isBackupProtected f (snd (protectBackup no_failures f three_backups))) = Ok true.
Proof.
  cbv zeta.
  assert (H1 : is_Some (files three_backups !! "config-backup-2024-01-02.tar.gz"%string))
    by (exists {| mtime := 2; st_size := 10 |}; vm_compute; reflexivity).
  assert (H2 : loaded three_backups <> POther) by discriminate.
  pose proof (protectBackup_protects no_failures "config-backup-2024-01-02.tar.gz"
                three_backups H1 H2 eq_refl) as T.
  cbv zeta in T. destruct T as (T1 & T2 & _).
  repeat split; assumption.
Defined.




Lemma filter_all {A} (P : A -> Prop) `{forall x, Decision (P x)} (l : list A) :
  Forall P l -> filter P l = l.
Proof.
  induction 1 as [|x l Hx _ IH]; [reflexivity|].
  now rewrite filter_cons_True, IH.
Qed.

Lemma unprotectBackup_run ev f s :
  loaded s <> POther ->
  exists lg,
    unprotectBackup ev f s
    = (Ok true,
       relog lg (if bool_decide (f ∈ protected_names s)
                 then if write_fails ev then s
                      else set_protection (filter (fun name => name <> f) (protected_names s)) s
                 else s)).
Proof.
  intros Hp. destruct (loadProtectedBackups_spec s) as [lg Hl].
  unfold unprotectBackup, JS.try_catch, JS.bind at 1. rewrite Hl. unfold protected_names.
  destruct (loaded s) as [names|]; [|contradiction]. cbv zeta.
  assert (Hlen : (length (filter (fun name => name <> f) names) =? length names)%nat
                 = negb (bool_decide (f ∈ names))).
  { clear Hp Hl. induction names as [|x names IH]; [reflexivity|].
    rewrite filter_cons. destruct (decide (x <> f)) as [Hx|Hx].
    - cbn [length Nat.eqb]. rewrite IH. f_equal.
      apply bool_decide_ext. rewrite elem_of_cons. split; [tauto|]. intros [->|?]; tauto.
    - rewrite (bool_decide_eq_true_2 (f ∈ x :: names)) by (apply dec_stable in Hx; set_solver).
      cbn [negb length]. apply Nat.eqb_neq.
      pose proof (length_filter (fun name => name <> f) names). lia. }
  rewrite Hlen, negb_involutive. case_bool_decide.
  - unfold JS.bind, saveProtectedBackups, JS.try_catch.
    destruct (write_fails ev); eexists; reflexivity.
  - exists lg. reflexivity.
Qed.

(** X8: unpinning removes every occurrence of the name from the list, so
    that [isBackupProtected] answers false, and keeps the other pins; the
    backup need not exist. Unpinning what was pinned on a list that did not
    hold the name gives the list back. *)
Theorem unprotectBackup_unprotects ev f s :
  loaded s <> POther -> write_fails ev = false ->
  let s1 := snd (unprotectBackup ev f s) in
  fst (unprotectBackup ev f s) = Ok true
  /\ fst (isBackupProtected f s1) = Ok false
  /\ (forall g, g ∈ protected_names s1 <-> g <> f /\ g ∈ protected_names s)
  /\ files s1 = files s
  /\ (is_Some (files s !! f) -> f ∉ protected_names s ->
      protected_names (snd (unprotectBackup ev f (snd (protectBackup ev f s))))
      = protected_names s).
Proof.
  intros Hp Hw s1.
  destruct (unprotectBackup_run ev f s Hp) as [lg Hr]. rewrite Hw in Hr.
  assert (Hn : forall g, g ∈ protected_names s1 <-> g <> f /\ g ∈ protected_names s).
  { intros g. unfold s1. rewrite Hr. cbn [snd]. case_bool_decide as Hin.
    - change (protected_names (relog lg ?x)) with (protected_names x).
      unfold protected_names at 1, loaded. cbn. rewrite list_elem_of_filter. tauto.
    - change (protected_names (relog lg s)) with (protected_names s).
      split; [|tauto]. intros Hg. split; [|exact Hg]. now intros ->. }
  assert (Hp1 : loaded s1 <> POther).
  { unfold s1. rewrite Hr. cbn [snd]. case_bool_decide; [discriminate|exact Hp]. }
  split; [now rewrite Hr|]. split.
  { rewrite (isBackupProtected_run s1 f Hp1). f_equal. apply bool_decide_eq_false.
    rewrite Hn. tauto. }
  split; [exact Hn|]. split.
  { unfold s1. rewrite Hr. cbn [snd]. now case_bool_decide. }
  intros He Hin.
  destruct (protectBackup_run ev f s He Hp) as [lg1 Hr1]. rewrite Hw in Hr1.
  rewrite bool_decide_eq_false_2 in Hr1 by exact Hin. rewrite Hr1. cbn [snd].
  destruct (unprotectBackup_run ev f (relog lg1 (set_protection (protected_names s ++ [f]) s)))
    as [lg2 Hr2]; [discriminate|].
  rewrite Hr2, Hw. cbn [snd].
  change (protected_names (relog lg1 (set_protection ?l ?x))) with l.
  rewrite bool_decide_eq_true_2 by set_solver.
  change (protected_names (relog lg2 (set_protection ?l ?x))) with l.
  rewrite filter_app, filter_cons_False, filter_nil, app_nil_r by tauto.
  apply filter_all, Forall_forall. intros g Hg ->. contradiction.
Qed.

Lemma unprotectBackup_unprotects_witness :
  let f := "config-backup-2024-01-01.tar.gz"%string in
  loaded three_backups <> POther /\ write_fails no_failures = false
  /\ fst (unprotectBackup no_failures f three_backups) = Ok true
  /\ fst (isBackupProtected f (snd (unprotectBackup no_failures f three_backups))) = Ok false.
Proof.
  cbv zeta.
  assert (H2 : loaded three_backups <> POther) by discriminate.
  pose proof (unprotectBackup_unprotects no_failures "config-backup-2024-01-01.tar.gz"
                three_backups H2 eq_refl) as T.
  cbv zeta in T. destruct T as (T1 & T2 & _).
  repeat split; assumption.
Defined.

(** X9: a backup that was pinned survives every later prune, whatever the
    retention count and whatever fails during the prune. *)
Theorem protected_backup_survives_prune ev ev' n f s :
  is_Some (files s !! f) -> loaded s <> POther -> write_fails ev = false ->
  let s1 := snd (protectBackup ev f s) in
  let s2 := snd (cleanOldBackups ev' n s1) in
  fst (cleanOldBackups ev' n s1) = Ok tt
  /\ files s2 !! f = files s !! f
  /\ fst (isBackupProtected f s2) = Ok true.
Proof.
  intros He Hp Hw s1 s2.
  destruct (protectBackup_names ev f s He Hp Hw) as (Hn & Hf & _).
  fold s1 in Hn, Hf.
  destruct (cleanOldBackups_keeps_protected ev' n s1) as (Hr & Hpf & Hk). fold s2 in Hpf, Hk.
  assert (Hin : f ∈ protected_names s1) by (apply Hn; now left).
  split; [exact Hr|]. split; [now rewrite (Hk f Hin), Hf|].
  assert (Hl : loaded s2 = loaded s1) by (unfold loaded; now rewrite Hpf).
  assert (Hp1 : loaded s1 <> POther).
  { destruct (protectBackup_run ev f s He Hp) as [lg Hr1]. unfold s1. rewrite Hr1, Hw.
    cbn [snd]. case_bool_decide; [exact Hp|discriminate]. }
  rewrite isBackupProtected_run by (now rewrite Hl). f_equal.
  apply bool_decide_eq_true. unfold protected_names. rewrite Hl. exact Hin.
Qed.

Lemma protected_backup_survives_prune_witness :
  let f := "config-backup-2024-01-02.tar.gz"%string in
  let s1 := snd (protectBackup no_failures f three_backups) in
  is_Some (files three_backups !! f) /\ loaded three_backups <> POther
  /\ write_fails no_failures = false
  /\ files (snd (cleanOldBackups no_failures 0 s1)) !! f = files three_backups !! f.
Proof.
  cbv zeta.
  assert (H1 : is_Some (files three_backups !! "config-backup-2024-01-02.tar.gz"%string))
    by (exists {| mtime := 2; st_size := 10 |}; vm_compute; reflexivity).
  assert (H2 : loaded three_backups <> POther) by discriminate.
  pose proof (protected_backup_survives_prune no_failures no_failures 0
                "config-backup-2024-01-02.tar.gz" three_backups H1 H2 eq_refl) as T.
  cbv zeta in T. destruct T as (_ & T2 & _).
  repeat split; assumption.
Defined.

Lemma sequence_Throw {A B} (g : A -> JS.result B) xs x e :
  x ∈ xs -> g x = Throw e -> exists e', sequence g xs = Throw e'.
Proof.
  induction xs as [|y xs IH]; intros Hx Hg; [now apply elem_of_nil in Hx|].
  cbn. apply elem_of_cons in Hx as [<-|Hx].
  - rewrite Hg. eauto.
  - destruct (g y); [|eauto]. destruct (IH Hx Hg) as [e' ->]. eauto.
Qed.

Lemma getLatestBackup_run ev s :
  exists lg, getLatestBackup ev s = (Ok (head (listing ev s)), relog lg s).
Proof.
  destruct (listBackups_spec ev s) as [lg Hl].
  unfold getLatestBackup, JS.bind. rewrite Hl. eauto.
Qed.

(** X10: the listing is all or nothing: when [fs.stat] fails for one
    archive, [listBackups] returns the empty list although archives exist,
    [getLatestBackup] returns null, and a prune deletes nothing. *)
Theorem listBackups_all_or_nothing ev s f :
  f ∈ archives s -> f ∈ stat_fails ev ->
  fst (listBackups ev s) = Ok []
  /\ fst (getLatestBackup ev s) = Ok None
  /\ forall n, fst (cleanOldBackups ev n s) = Ok tt
               /\ files (snd (cleanOldBackups ev n s)) = files s
               /\ unlink_calls (snd (cleanOldBackups ev n s)) = unlink_calls s.
Proof.
  intros Hf Hst.
  assert (Hl : listing ev s = []).
  { unfold listing. destruct (BACKUP_DIR s); [|reflexivity].
    assert (Hrow : row_of ev s f = Throw (JS.Error "EIO: i/o error, stat")).
    { unfold row_of. pose proof Hf as Hf'. apply elem_of_archives in Hf' as [_ [st ->]].
      now rewrite bool_decide_eq_true_2 by exact Hst. }
    now destruct (sequence_Throw (row_of ev s) (archives s) f _ Hf Hrow) as [e' ->]. }
  destruct (listBackups_spec ev s) as [lg1 H1]. destruct (getLatestBackup_run ev s) as [lg2 H2].
  rewrite H1, H2, Hl. split; [reflexivity|]. split; [reflexivity|]. intros n.
  destruct (cleanOldBackups_run ev n s) as (lg & msg & ->).
  assert (HT : toRemove ev n s = []).
  { unfold toRemove, unprotectedBackups, slice. rewrite Hl, filter_nil.
    destruct (_ <=? _); [reflexivity | apply drop_nil]. }
  rewrite HT. cbn. repeat split.
Qed.

(** [fs.stat] fails for the second archive. *)
Definition second_stat_fails : env :=
  {| unlink_fails := ∅; stat_fails := {[ "config-backup-2024-01-02.tar.gz"%string ]};
     write_fails := false |}.

Lemma listBackups_all_or_nothing_witness :
  let f := "config-backup-2024-01-02.tar.gz"%string in
  f ∈ archives three_backups /\ f ∈ stat_fails second_stat_fails
  /\ fst (listBackups second_stat_fails three_backups) = Ok []
  /\ fst (getLatestBackup second_stat_fails three_backups) = Ok None.
Proof.
  cbv zeta.
  assert (H1 : "config-backup-2024-01-02.tar.gz"%string ∈ archives three_backups)
    by (apply (bool_decide_unpack _); vm_compute; exact I).
  assert (H2 : "config-backup-2024-01-02.tar.gz"%string ∈ stat_fails second_stat_fails)
    by (apply (bool_decide_unpack _); vm_compute; exact I).
  destruct (listBackups_all_or_nothing second_stat_fails three_backups
              "config-backup-2024-01-02.tar.gz" H1 H2) as (T1 & T2 & _).
  repeat split; assumption.
Defined.

(** X11: without failing [stat] calls and with a usable protection list,
    [getLatestBackup] returns null exactly when the directory holds no
    archive, and otherwise a row for an archive of the directory that no
    other archive is more recent than, with its protection flag. *)
Theorem getLatestBackup_newest ev s :
  stat_fails ev = ∅ -> loaded s <> POther ->
  match fst (getLatestBackup ev s) with
  | Ok None => archives s = []
  | Ok (Some b) =>
      name b ∈ archives s /\ path b = name b
      /\ protected b = bool_decide (name b ∈ protected_names s)
      /\ (exists st, files s !! name b = Some st /\ created b = mtime st)
      /\ forall g st, g ∈ archives s -> files s !! g = Some st -> mtime st <= created b
  | Throw _ => False
  end.
Proof.
  intros Hst Hp. destruct (getLatestBackup_run ev s) as [lg ->]. cbn [fst].
  pose proof (listing_complete ev s Hst Hp) as Hc.
  destruct (listing_facts ev s) as (Hr & _ & Hs).
  destruct (listing ev s) as [|b rest]; cbn [head].
  - symmetry in Hc. now apply Permutation_nil_r in Hc.
  - apply Forall_cons in Hr as [(Hpath & Ha & Hi & st & Hst' & Hcr) Hr].
    apply StronglySorted_inv in Hs as [_ Hs].
    split; [rewrite <- Hc; cbn; left|]. split; [exact Hpath|].
    split; [now apply includes_loaded|]. split; [eauto|].
    intros g st' Hg Hf. rewrite <- Hc in Hg. cbn in Hg.
    apply elem_of_cons in Hg as [->|Hg].
    + rewrite Hst' in Hf. injection Hf as <-. lia.
    + apply list_elem_of_fmap in Hg as (b' & -> & Hb').
      rewrite Forall_forall in Hs, Hr. specialize (Hs b' Hb').
      destruct (Hr b' Hb') as (_ & _ & _ & st2 & Hst2 & Hcr2).
      unfold newer_first in Hs. rewrite Hst2 in Hf. injection Hf as <-. lia.
Qed.

Lemma getLatestBackup_newest_witness :
  stat_fails no_failures = ∅ /\ loaded three_backups <> POther
  /\ match fst (getLatestBackup no_failures three_backups) with
     | Ok (Some b) =>
         name b ∈ archives three_backups
         /\ forall g st, g ∈ archives three_backups -> files three_backups !! g = Some st ->
                         mtime st <= created b
     | _ => archives three_backups = []
     end.
Proof.
  assert (H2 : loaded three_backups <> POther) by discriminate.
  split; [reflexivity|]. split; [exact H2|].
  pose proof (getLatestBackup_newest no_failures three_backups eq_refl H2) as T.
  destruct (fst (getLatestBackup no_failures three_backups)) as [[b|]|e].
  - destruct T as (T1 & _ & _ & _ & T5). split; assumption.
  - exact T.
  - destruct T.
Defined.

Lemma deleteBackup_cases ev f s :
  (is_Some (files s !! f)
   /\ exists lg, deleteBackup ev f s = (Ok true, relog lg (deleted [f] [f] s)))
  \/ (is_Some (files s !! f)
      /\ exists e lg, deleteBackup ev f s = (Throw e, relog lg (deleted [] [f] s)))
  \/ (files s !! f = None
      /\ exists lg, deleteBackup ev f s
                    = (Throw (JS.Error ("Backup not found: " ++ f)), relog lg s)).
Proof.
  destruct (files s !! f) as [st|] eqn:Hf.
  - assert (He : is_Some (files s !! f)) by (rewrite Hf; eauto). rewrite <- Hf.
    destruct (unlink_cases ev f s) as [Hu|[e Hu]]; [left|right; left];
      (split; [exact He|]);
      unfold deleteBackup, JS.try_catch, JS.bind at 1, exists_, JS.gets;
      rewrite bool_decide_eq_true_2 by exact He; cbn [negb];
      unfold JS.bind at 1; rewrite Hu; do 2 eexists; reflexivity.
  - right. right. split; [reflexivity|].
    unfold deleteBackup, JS.try_catch, JS.bind at 1, exists_, JS.gets.
    rewrite Hf, bool_decide_eq_false_2 by (intros [? ?]; discriminate).
    eexists. cbn. destruct s; reflexivity.
Qed.

(** X12: for the name of an archive, [deleteBackup] removes the file and
    returns true, or throws and leaves every file in place; when the
    directory holds no file of that name it throws "Backup not found"
    without calling [fs.unlink], and the route answers 500 with that
    message. The protection list is not changed. *)
Theorem deleteBackup_all_or_nothing ev f s :
  archive_name f ->
  let r := deleteBackup ev f s in
  match fst r with
  | Ok b => b = true /\ is_Some (files s !! f) /\ files (snd r) = delete f (files s)
  | Throw e => files (snd r) = files s
  end
  /\ PROTECTED_BACKUPS_FILE (snd r) = PROTECTED_BACKUPS_FILE s
  /\ (files s !! f = None ->
      fst r = Throw (JS.Error ("Backup not found: " ++ f))
      /\ unlink_calls (snd r) = unlink_calls s
      /\ fst (delete_route ev f s) = Ok (Json500 ("Backup not found: " ++ f))).
Proof.
  intros _. cbv zeta. unfold delete_route, JS.try_catch at 1, JS.bind at 1.
  destruct (deleteBackup_cases ev f s)
    as [(He & lg & ->)|[(He & e & lg & ->)|(Hn & lg & ->)]]; cbn [fst snd].
  - split; [|split; [reflexivity|]].
    + split; [reflexivity|]. split; [exact He|]. apply map_eq. intros k.
      change (files (relog lg ?x)) with (files x). rewrite files_deleted.
      destruct (decide (k = f)) as [->|Hk].
      * rewrite decide_True by set_solver. now rewrite lookup_delete_eq.
      * rewrite decide_False by set_solver. now rewrite lookup_delete_ne.
    + intros Hn. rewrite Hn in He. now destruct He.
  - split; [|split; [reflexivity|]].
    + apply map_eq. intros k. change (files (relog lg ?x)) with (files x).
      rewrite files_deleted. now rewrite decide_False by set_solver.
    + intros Hn. rewrite Hn in He. now destruct He.
  - repeat split.
Qed.

Lemma deleteBackup_all_or_nothing_witness :
  let f := "config-backup-2024-01-09.tar.gz"%string in
  archive_name f /\ files three_backups !! f = None
  /\ fst (deleteBackup no_failures f three_backups)
     = Throw (JS.Error ("Backup not found: " ++ f))
  /\ fst (delete_route no_failures f three_backups)
     = Ok (Json500 ("Backup not found: " ++ f)).
Proof.
  cbv zeta.
  assert (Ha : archive_name "config-backup-2024-01-09.tar.gz") by (split; reflexivity).
  assert (Hn : files three_backups !! "config-backup-2024-01-09.tar.gz"%string = None)
    by (vm_compute; reflexivity).
  pose proof (deleteBackup_all_or_nothing no_failures "config-backup-2024-01-09.tar.gz"
                three_backups Ha) as T.
  cbv zeta in T. destruct T as (_ & _ & T3). destruct (T3 Hn) as (T4 & _ & T6).
  split; [exact Ha|]. split; [exact Hn|]. split; [exact T4 | exact T6].
Defined.

End PinsFacts.

(** ** What a tracked sync leaves *)

Section TrackedSyncRuns.

Import TrackedSync.

(** The target after the copy of [f] was tried. *)
Definition copy_ok (ev : env) (f : string) : bool :=
  negb (bool_decide (f ∈ copy_fails ev)) && bool_decide (is_Some (source ev !! f)).

Definition copy_one (ev : env) (t : gmap string string) (f : string) : gmap string string :=
  if copy_ok ev f then
    match source ev !! f with Some c => <[f := c]> t | None => t end
  else t.

(** The target after the deletion of [e] was tried. *)
Definition delete_one (ev : env) (t : gmap string string) (e : element) : gmap string string :=
  match e with
  | EString f => if bool_decide (f ∈ unlink_fails ev) then t else delete f t
  | EOther => t
  end.

Definition put (t : gmap string string) (lg : list (JS.level * string)) (s : store) : store :=
  {| target := t; STATE_FILE := STATE_FILE s; log := lg |}.

Lemma bind_Ok {S A B} (m : JS.M S A) (k : A -> JS.M S B) s a s' :
  m s = (Ok a, s') -> JS.bind m k s = k a s'.
Proof. intros H. unfold JS.bind. now rewrite H. Qed.

Lemma bind_Throw {S A B} (m : JS.M S A) (k : A -> JS.M S B) s e s' :
  m s = (Throw e, s') -> JS.bind m k s = (Throw e, s').
Proof. intros H. unfold JS.bind. now rewrite H. Qed.

Lemma try_catch_Ok {S A} (m : JS.M S A) h s a s' :
  m s = (Ok a, s') -> JS.try_catch m h s = (Ok a, s').
Proof. intros H. unfold JS.try_catch. now rewrite H. Qed.

Lemma try_catch_Throw {S A} (m : JS.M S A) h s e s' :
  m s = (Throw e, s') -> JS.try_catch m h s = h e s'.
Proof. intros H. unfold JS.try_catch. now rewrite H. Qed.

Definition copy_body (ev : env) (relativeFile : string) (c : nat * nat)
  : JS.M store (nat * nat) :=
  JS.try_catch
    (JS.bind (copyFile ev relativeFile) (fun _ => JS.ret (S (fst c), snd c)))
    (fun error =>
       JS.bind (JS.log_error ("Failed to copy " +:+ relativeFile +:+ ": "
                              +:+ JS.message error))
               (fun _ => JS.ret (fst c, S (snd c)))).

Lemma copy_body_run ev f c s :
  exists lg,
    copy_body ev f c s
    = (Ok (if copy_ok ev f then (S (fst c), snd c) else (fst c, S (snd c))),
       put (copy_one ev (target s) f) lg s).
Proof.
  unfold copy_body, copyFile, copy_one, copy_ok, JS.try_catch, JS.bind.
  case_bool_decide as Hc; cbn [negb andb].
  - destruct s; eexists; reflexivity.
  - destruct (source ev !! f) as [c0|] eqn:Hs.
    + rewrite bool_decide_eq_true_2 by eauto. destruct s; eexists; reflexivity.
    + rewrite bool_decide_eq_false_2 by (intros [? ?]; discriminate).
      destruct s; eexists; reflexivity.
Qed.

Lemma copy_loop_run ev files : forall c s,
  exists lg,
    JS.fold_of files (copy_body ev) c s
    = (Ok (fst c + length (List.filter (copy_ok ev) files),
           snd c + length (List.filter (fun f => negb (copy_ok ev f)) files)),
       put (foldl (copy_one ev) (target s) files) lg s).
Proof.
  induction files as [|f files IH]; intros c s.
  - exists (log s). cbn. rewrite !Nat.add_0_r. destruct c, s; reflexivity.
  - cbn [JS.fold_of]. unfold JS.bind at 1.
    destruct (copy_body_run ev f c s) as [lg ->].
    destruct (IH (if copy_ok ev f then (S (fst c), snd c) else (fst c, S (snd c)))
                 (put (copy_one ev (target s) f) lg s)) as [lg' ->].
    exists lg'. cbn [List.filter foldl target put].
    destruct (copy_ok ev f); cbn [negb length fst snd];
      rewrite ?Nat.add_succ_r, ?Nat.add_succ_l; reflexivity.
Qed.

Definition delete_body (ev : env) (relativeFile : element) (deletedCount : nat)
  : JS.M store nat :=
  match relativeFile with
  | EOther => JS.throw (JS.TypeError "The path argument must be of type string")
  | EString f =>
      JS.try_catch
        (JS.bind (exists_ f) (fun present =>
         if present then
           JS.bind (unlink ev f) (fun _ =>
           JS.bind (JS.log_info ("Deleted: " +:+ f)) (fun _ =>
           JS.ret (S deletedCount)))
         else JS.ret deletedCount))
        (fun error =>
           JS.bind (JS.log_error ("Failed to delete: " +:+ JS.message error))
                   (fun _ => JS.ret deletedCount))
  end.

(** Whether the deletion of [e] counts: the file is there and [unlink] works. *)
Definition delete_ok (ev : env) (t : gmap string string) (e : element) : bool :=
  match e with
  | EString f => bool_decide (is_Some (t !! f)) && negb (bool_decide (f ∈ unlink_fails ev))
  | EOther => false
  end.

Lemma delete_body_run ev f n s :
  exists lg,
    delete_body ev (EString f) n s
    = (Ok (if delete_ok ev (target s) (EString f) then S n else n),
       put (if delete_ok ev (target s) (EString f)
            then delete_one ev (target s) (EString f) else target s) lg s).
Proof.
  unfold delete_body, delete_one, delete_ok, unlink, exists_, JS.try_catch, JS.bind,
    JS.gets, JS.get.
  case_bool_decide as He; cbn [andb]; [|destruct s; eexists; reflexivity].
  case_bool_decide as Hu; cbn [negb]; [destruct s; eexists; reflexivity|].
  rewrite bool_decide_eq_true_2 by exact He. destruct s; eexists; reflexivity.
Qed.

Lemma delete_one_absent ev t e :
  delete_ok ev t e = false -> delete_one ev t e = t.
Proof.
  destruct e as [f|]; cbn; [|reflexivity].
  case_bool_decide as He; case_bool_decide as Hu; cbn; try discriminate; try reflexivity.
  intros _. apply delete_id. destruct (t !! f) eqn:E; [|reflexivity].
  exfalso. apply He. eauto.
Qed.

(** The elements the deletion loop reaches: those before the first one
    that is no string. *)
Fixpoint reached (l : list element) : list element :=
  match l with
  | EString f :: l' => EString f :: reached l'
  | _ => []
  end.

(** What [path.join] throws for an element that is no string. *)
Definition path_error : JS.error :=
  JS.TypeError "The path argument must be of type string".

#[local] Instance element_eq_dec : EqDecision element.
Proof. solve_decision. Defined.

Lemma reached_strings l : EOther ∉ l -> reached l = l.
Proof.
  induction l as [|[f|] l IH]; intros H; [reflexivity| |].
  - cbn. rewrite IH; [reflexivity|]. intros Hin. apply H. now apply list_elem_of_further.
  - exfalso. apply H. apply list_elem_of_here.
Qed.

Lemma delete_loop_run ev (l : list element) : forall n s,
  exists lg m,
    JS.fold_of l (delete_body ev) n s
    = (if bool_decide (EOther ∈ l) then Throw path_error else Ok m,
       put (foldl (delete_one ev) (target s) (reached l)) lg s)
    /\ (n <= m <= n + length l)%nat.
Proof.
  induction l as [|e l IH]; intros n s.
  - exists (log s), n. split; [destruct s; reflexivity|cbn; lia].
  - destruct e as [f|].
    + cbn [JS.fold_of]. unfold JS.bind at 1.
      destruct (delete_body_run ev f n s) as [lg ->].
      match goal with |- context [JS.fold_of l _ ?n1 ?s1] =>
        destruct (IH n1 s1) as (lg' & m & -> & Hm) end.
      exists lg', m. split.
      * rewrite (bool_decide_ext (EOther ∈ EString f :: l) (EOther ∈ l))
          by (rewrite elem_of_cons; split; [intros [[=]|?]; assumption | auto]).
        unfold put. cbn [reached foldl target STATE_FILE]. do 2 f_equal.
        destruct (delete_ok ev (target s) (EString f)) eqn:Hd; [reflexivity|].
        now rewrite delete_one_absent.
      * destruct (delete_ok ev (target s) (EString f)); cbn [length]; lia.
    + exists (log s), n. split; [|cbn [length]; lia].
      rewrite bool_decide_eq_true_2 by apply list_elem_of_here.
      destruct s; reflexivity.
Qed.

(** A state file [loadSyncedFiles] reads as an array of strings: one that
    holds such an array, or is missing, unreadable or no JSON. *)
Definition strings_only (d : Fs.file state_doc) : Prop :=
  loaded_state d <> DOther /\ EOther ∉ elements_of d.

(** [f.split('/')] *)
Fixpoint segments (f : string) : list string :=
  match f with
  | EmptyString => [EmptyString]
  | String c rest =>
      if Ascii.eqb c "/" then EmptyString :: segments rest
      else match segments rest with
           | seg :: segs => String c seg :: segs
           | [] => [String c EmptyString]
           end
  end.

(** The relative paths that [path.join(dir, f)] puts below [dir] as they
    are: no segment is empty, [.] or [..]. Two of them that differ name
    different files. *)
Definition plain_path (f : string) : bool :=
  forallb (fun seg => negb (String.eqb seg "" || String.eqb seg "." || String.eqb seg ".."))
    (segments f).

Definition plain_paths (names : list string) : Prop :=
  Forall (fun f => plain_path f = true) names.

Lemma strings_only_saved (files : list string) :
  strings_only (Fs.Parsed (DArray (EString <$> files))).
Proof.
  split; [discriminate|]. unfold elements_of. cbn.
  intros H. apply list_elem_of_fmap in H as (f & [=] & _).
Qed.

Lemma other_filesToDelete previous0 files :
  EOther ∈ filesToDelete previous0 files <-> EOther ∈ previous0.
Proof. unfold filesToDelete. rewrite list_elem_of_filter. cbn. tauto. Qed.

(** One run with a working [git ls-files] and a state file that reads as
    an array: it returns, or throws at the first element to delete that is
    no string. *)
Lemma trackedSync_unfold ev files s :
  currentGitFiles ev = Ok files -> loaded_state (STATE_FILE s) <> DOther ->
  let toDelete := filesToDelete (elements_of (STATE_FILE s)) files in
  let copies := foldl (copy_one ev) (target s) files in
  exists lg n,
    trackedSync ev s
    = (if bool_decide (EOther ∈ elements_of (STATE_FILE s))
       then (Throw path_error,
             {| target := foldl (delete_one ev) copies (reached toDelete);
                STATE_FILE := STATE_FILE s;
                log := lg |})
       else (Ok {| copied := length (List.filter (copy_ok ev) files);
                   deleted := n;
                   skipped := length (List.filter (fun f => negb (copy_ok ev f)) files);
                   tracked := length files |},
             {| target := foldl (delete_one ev) copies toDelete;
                STATE_FILE := if write_fails ev then STATE_FILE s
                              else Fs.Parsed (DArray (EString <$> files));
                log := lg |}))
    /\ (n <= length toDelete)%nat.
Proof.
  intros Hg Hd toDelete copies.
  pose proof (getGitTrackedFiles_run ev files s Hg) as H1.
  destruct (loadSyncedFiles_run
              (JS.append_log (JS.INFO, "Found files tracked in Git repository") s))
    as [lg1 H2].
  set (s2 := JS.append_log (JS.INFO, "Copying files from Git to target...")
               (with_log lg1 (JS.append_log (JS.INFO, "Found files tracked in Git repository") s))).
  destruct (copy_loop_run ev files (O, O) s2) as [lg2 H3].
  set (s3 := put (foldl (copy_one ev) (target s2) files) lg2 s2) in *.
  unfold toDelete, copies, elements_of.
  change (STATE_FILE (JS.append_log _ s)) with (STATE_FILE s) in H2.
  destruct (loaded_state (STATE_FILE s)) as [previous0|]; [|contradiction].
  set (D := filesToDelete previous0 files).
  assert (H4 : exists lg3, (if (0 <? length D)%nat
                            then JS.log_info "Removing file(s) that were deleted from Git..."
                            else JS.ret tt) s3
                           = (Ok tt, put (target s3) lg3 s3)).
  { destruct (0 <? length D)%nat; eexists; reflexivity. }
  destruct H4 as [lg3 H4].
  destruct (delete_loop_run ev D O (put (target s3) lg3 s3)) as (lg4 & n & H5 & Hn).
  rewrite (bool_decide_ext (EOther ∈ D) (EOther ∈ previous0)) in H5
    by apply other_filesToDelete.
  unfold delete_body in H5.
  destruct (bool_decide (EOther ∈ previous0)) eqn:Hb.
  - exists (lg4 ++ [(JS.ERROR, "Tracked sync failed: The path argument must be of type string")]), n.
    split; [|cbn in Hn; lia].
    unfold trackedSync. erewrite try_catch_Throw.
    2:{ rewrite (bind_Ok _ _ _ _ _ H1), (bind_Ok _ _ _ _ _ H2).
        rewrite (bind_Ok (JS.log_info "Copying files from Git to target...") _ _ tt s2 eq_refl).
        unfold copy_body in H3. rewrite (bind_Ok _ _ _ _ _ H3).
        cbv zeta. fold D. rewrite (bind_Ok _ _ _ _ _ H4).
        rewrite (bind_Throw _ _ _ _ _ H5). reflexivity. }
    reflexivity.
  - exists (((lg4 ++ [if write_fails ev
                      then (JS.ERROR, "Failed to save synced files state: ENOSPC: no space left on device")
                      else (JS.INFO, "Saved state for tracked files")])
             ++ [(JS.INFO, "Tracked sync complete")])
            ++ [(JS.INFO, "Files NOT in Git repository are preserved and untouched")]), n.
    split; [|cbn in Hn; lia].
    assert (Hr : reached D = D).
    { apply reached_strings. apply bool_decide_eq_false in Hb.
      intros Hin. apply Hb. now apply other_filesToDelete in Hin. }
    unfold trackedSync. apply try_catch_Ok.
    rewrite (bind_Ok _ _ _ _ _ H1), (bind_Ok _ _ _ _ _ H2).
    rewrite (bind_Ok (JS.log_info "Copying files from Git to target...") _ _ tt s2 eq_refl).
    unfold copy_body in H3. rewrite (bind_Ok _ _ _ _ _ H3).
    cbv zeta. fold D. rewrite (bind_Ok _ _ _ _ _ H4).
    rewrite (bind_Ok _ _ _ _ _ H5). rewrite Hr.
    unfold JS.bind, saveSyncedFiles, JS.try_catch, JS.bind.
    destruct (write_fails ev); reflexivity.
Qed.

(** One run with a working [git ls-files] and a state file that reads as
    an array of strings. *)
Lemma trackedSync_run ev files s :
  currentGitFiles ev = Ok files -> strings_only (STATE_FILE s) ->
  let toDelete := filesToDelete (elements_of (STATE_FILE s)) files in
  exists lg n,
    trackedSync ev s
    = (Ok {| copied := length (List.filter (copy_ok ev) files);
             deleted := n;
             skipped := length (List.filter (fun f => negb (copy_ok ev f)) files);
             tracked := length files |},
       {| target := foldl (delete_one ev) (foldl (copy_one ev) (target s) files) toDelete;
          STATE_FILE := if write_fails ev then STATE_FILE s
                        else Fs.Parsed (DArray (EString <$> files));
          log := lg |})
    /\ (n <= length toDelete)%nat.
Proof.
  intros Hg [Hd Hs] toDelete.
  destruct (trackedSync_unfold ev files s Hg Hd) as (lg & n & Hr & Hn).
  rewrite bool_decide_eq_false_2 in Hr by exact Hs. eauto.
Qed.

Lemma foldl_copy_lookup ev files : forall t k,
  foldl (copy_one ev) t files !! k
  = if bool_decide (k ∈ files) && copy_ok ev k then source ev !! k else t !! k.
Proof.
  induction files as [|f files IH]; intros t k; [reflexivity|].
  cbn [foldl]. rewrite IH.
  destruct (decide (k ∈ files)) as [Hk|Hk].
  - rewrite !(bool_decide_eq_true_2 (k ∈ f :: files)) by set_solver.
    rewrite (bool_decide_eq_true_2 (k ∈ files)) by exact Hk. cbn [andb].
    destruct (copy_ok ev k) eqn:Hc; [reflexivity|].
    unfold copy_one. destruct (copy_ok ev f) eqn:Hf; [|reflexivity].
    destruct (source ev !! f); [|reflexivity].
    rewrite lookup_insert_ne; [reflexivity|]. intros ->. congruence.
  - rewrite (bool_decide_eq_false_2 (k ∈ files)) by exact Hk. cbn [andb].
    destruct (decide (k = f)) as [->|Hne].
    + rewrite bool_decide_eq_true_2 by set_solver. cbn [andb].
      unfold copy_one. destruct (copy_ok ev f) eqn:Hf; [|reflexivity].
      destruct (source ev !! f) eqn:Hs; [now rewrite lookup_insert_eq|].
      unfold copy_ok in Hf. rewrite Hs in Hf.
      rewrite (bool_decide_eq_false_2 (is_Some None)) in Hf by (intros [? ?]; discriminate).
      now rewrite andb_false_r in Hf.
    + rewrite bool_decide_eq_false_2 by set_solver. cbn [andb].
      unfold copy_one. destruct (copy_ok ev f); [|reflexivity].
      destruct (source ev !! f); [|reflexivity]. now rewrite lookup_insert_ne.
Qed.

Lemma foldl_delete_lookup ev (D : list element) : forall t k,
  foldl (delete_one ev) t D !! k
  = if bool_decide (EString k ∈ D) && negb (bool_decide (k ∈ unlink_fails ev))
    then None else t !! k.
Proof.
  induction D as [|e D IH]; intros t k; [reflexivity|].
  cbn [foldl]. rewrite IH.
  destruct (decide (k ∈ unlink_fails ev)) as [Hu|Hu].
  - rewrite !(bool_decide_eq_true_2 (k ∈ unlink_fails ev)) by exact Hu.
    cbn [negb]. rewrite !andb_false_r.
    destruct e as [g|]; cbn [delete_one]; [|reflexivity].
    destruct (decide (g ∈ unlink_fails ev)) as [Hg|Hg].
    + now rewrite bool_decide_eq_true_2 by exact Hg.
    + rewrite bool_decide_eq_false_2 by exact Hg.
      rewrite lookup_delete_ne; [reflexivity|]. now intros ->.
  - rewrite !(bool_decide_eq_false_2 (k ∈ unlink_fails ev)) by exact Hu.
    cbn [negb]. rewrite !andb_true_r.
    destruct (decide (EString k ∈ D)) as [Hk|Hk].
    + rewrite (bool_decide_eq_true_2 (EString k ∈ D)) by exact Hk.
      rewrite (bool_decide_eq_true_2 (EString k ∈ e :: D)) by (now apply list_elem_of_further).
      reflexivity.
    + rewrite (bool_decide_eq_false_2 (EString k ∈ D)) by exact Hk.
      destruct e as [g|]; cbn [delete_one].
      * destruct (decide (g = k)) as [->|Hne].
        -- rewrite (bool_decide_eq_true_2 (EString k ∈ EString k :: D)) by (apply list_elem_of_here).
           rewrite bool_decide_eq_false_2 by exact Hu. apply lookup_delete_eq.
        -- rewrite (bool_decide_eq_false_2 (EString k ∈ EString g :: D))
             by (rewrite elem_of_cons; intros [[=]|?]; congruence).
           case_bool_decide; [reflexivity|]. now rewrite lookup_delete_ne.
      * rewrite (bool_decide_eq_false_2 (EString k ∈ EOther :: D))
          by (rewrite elem_of_cons; intros [[=]|?]; congruence).
        reflexivity.
Qed.

Lemma filter_negb_length {A} (p : A -> bool) (l : list A) :
  (length (List.filter p l) + length (List.filter (fun x => negb (p x)) l) = length l)%nat.
Proof.
  induction l as [|x l IH]; [reflexivity|]. cbn. destruct (p x); cbn; lia.
Qed.

Lemma elem_of_filesToDelete previous0 files k :
  EString k ∈ filesToDelete previous0 files <-> EString k ∈ previous0 /\ k ∉ files.
Proof.
  unfold filesToDelete. rewrite list_elem_of_filter. cbn.
  rewrite bool_decide_eq_false. tauto.
Qed.

(** X13: for the file names a run reads from the listing and a state
    file that reads as an array of strings, all of them plain relative
    paths, the summary adds up: every name
    is counted as copied or as skipped, the copied ones being those whose
    copy did not fail, and no more files are counted as deleted than were
    recorded by the previous run and dropped from the listing. *)
Theorem trackedSync_counts ev files s :
  currentGitFiles ev = Ok files -> strings_only (STATE_FILE s) ->
  plain_paths (files ++ previous s) ->
  exists r,
    fst (trackedSync ev s) = Ok r
    /\ tracked r = length files
    /\ (copied r + skipped r = tracked r)%nat
    /\ copied r = length (List.filter (copy_ok ev) files)
    /\ (deleted r <= length (filesToDelete (elements_of (STATE_FILE s)) files))%nat.
Proof.
  intros Hg Hd _. destruct (trackedSync_run ev files s Hg Hd) as (lg & n & -> & Hn).
  eexists. split; [reflexivity|]. cbn [tracked copied skipped deleted].
  split; [reflexivity|]. split; [apply filter_negb_length|]. split; [reflexivity|exact Hn].
Qed.

Lemma config0_plain :
  plain_paths (["configuration.yaml"; "automations.yaml"]%string ++ previous config0).
Proof. repeat constructor. Qed.

Lemma trackedSync_counts_witness :
  let files := ["configuration.yaml"; "automations.yaml"]%string in
  currentGitFiles clone1 = Ok files /\ strings_only (STATE_FILE config0)
  /\ plain_paths (files ++ previous config0)
  /\ exists r, fst (trackedSync clone1 config0) = Ok r
               /\ tracked r = length files
               /\ (copied r + skipped r = tracked r)%nat.
Proof.
  cbv zeta.
  assert (H2 : strings_only (STATE_FILE config0))
    by (split; [discriminate | apply not_elem_of_nil]).
  split; [reflexivity|]. split; [exact H2|]. split; [exact config0_plain|].
  destruct (trackedSync_counts clone1 ["configuration.yaml"; "automations.yaml"]%string
              config0 eq_refl H2 config0_plain) as (r & Hr & Ht & Hc & _).
  exists r. split; [exact Hr|]. split; [exact Ht | exact Hc].
Defined.

(** What a run leaves at the path [k] of the target, and in the state
    file. *)
Lemma trackedSync_lookup ev files s k :
  currentGitFiles ev = Ok files -> strings_only (STATE_FILE s) ->
  let s' := snd (trackedSync ev s) in
  target s' !! k
  = (if bool_decide (k ∈ previous s /\ k ∉ files) && negb (bool_decide (k ∈ unlink_fails ev))
     then None
     else if bool_decide (k ∈ files) && copy_ok ev k then source ev !! k
     else target s !! k)
  /\ (write_fails ev = false -> previous s' = files)
  /\ (write_fails ev = true -> STATE_FILE s' = STATE_FILE s)
  /\ strings_only (STATE_FILE s').
Proof.
  intros Hg Hd s'. unfold s'.
  destruct (trackedSync_run ev files s Hg Hd) as (lg & n & -> & _). cbn [snd target STATE_FILE].
  split; [|split; [|split; [|destruct (write_fails ev);
                              [exact Hd | apply strings_only_saved]]]].
  - rewrite foldl_delete_lookup, foldl_copy_lookup.
    rewrite (bool_decide_ext (EString k ∈ filesToDelete (elements_of (STATE_FILE s)) files)
               (k ∈ previous s /\ k ∉ files)); [reflexivity|].
    rewrite elem_of_filesToDelete, previous_elements. tauto.
  - intros ->. unfold previous. cbn. apply previous_saved.
  - now intros ->.
Qed.




Lemma filesToDelete_same files : filesToDelete (EString <$> files) files = [].
Proof.
  unfold filesToDelete.
  assert (H : forall l, l ⊆ files ->
                filter (fun e => includes files e = false) (EString <$> l) = []).
  { induction l as [|g l IH]; intros Hl; [reflexivity|]. cbn [fmap list_fmap].
    rewrite filter_cons_False.
    - apply IH. set_solver.
    - cbn. rewrite bool_decide_eq_true_2 by set_solver. discriminate. }
  now apply H.
Qed.

(** X16: a second run that reads the same names and finds the same clone
    changes nothing, when the state file of the first run reads as an array
    of strings and all names are plain relative paths: the target and the state file are as the first run left
    them, and when the first run could save its state the second deletes
    nothing. *)
Theorem trackedSync_idempotent ev files s :
  currentGitFiles ev = Ok files -> strings_only (STATE_FILE s) ->
  plain_paths (files ++ previous s) ->
  let s1 := snd (trackedSync ev s) in
  let s2 := snd (trackedSync ev s1) in
  target s2 = target s1
  /\ STATE_FILE s2 = STATE_FILE s1
  /\ (write_fails ev = false ->
      exists r, fst (trackedSync ev s1) = Ok r /\ deleted r = O).
Proof.
  intros Hg Hd _ s1 s2.
  pose proof (fun k => trackedSync_lookup ev files s k Hg Hd) as T1. fold s1 in T1.
  assert (Hd1 : strings_only (STATE_FILE s1)) by (apply (T1 ""%string)).
  pose proof (fun k => trackedSync_lookup ev files s1 k Hg Hd1) as T2. fold s2 in T2.
  destruct (T1 ""%string) as (_ & Hw1 & Hf1 & _).
  destruct (T2 ""%string) as (_ & Hw2 & Hf2 & _).
  assert (Hs1 : STATE_FILE s1 = if write_fails ev then STATE_FILE s
                                else Fs.Parsed (DArray (EString <$> files))).
  { unfold s1. now destruct (trackedSync_run ev files s Hg Hd) as (lg & n & -> & _). }
  assert (Hs2 : STATE_FILE s2 = if write_fails ev then STATE_FILE s1
                                else Fs.Parsed (DArray (EString <$> files))).
  { unfold s2. now destruct (trackedSync_run ev files s1 Hg Hd1) as (lg & n & -> & _). }
  split; [|split].
  - apply map_eq. intros k. destruct (T1 k) as [E1 _], (T2 k) as [E2 _].
    rewrite E2. destruct (write_fails ev) eqn:Hw.
    + assert (Hp : previous s1 = previous s) by (unfold previous; now rewrite Hs1).
      rewrite Hp. rewrite E1.
      destruct (bool_decide (k ∈ previous s /\ k ∉ files)
                && negb (bool_decide (k ∈ unlink_fails ev))); [reflexivity|].
      now destruct (bool_decide (k ∈ files) && copy_ok ev k).
    + rewrite (Hw1 eq_refl).
      rewrite (bool_decide_eq_false_2 (k ∈ files /\ k ∉ files)) by tauto. cbn [andb].
      destruct (bool_decide (k ∈ files)) eqn:Hk; cbn [andb]; [|reflexivity].
      destruct (copy_ok ev k); [|reflexivity].
      rewrite E1. apply bool_decide_eq_true in Hk.
      now rewrite (bool_decide_eq_false_2 (k ∈ previous s /\ k ∉ files)) by tauto.
  - rewrite Hs2, Hs1. now destruct (write_fails ev).
  - intros Hw. destruct (trackedSync_run ev files s1 Hg Hd1) as (lg & n & Hr & Hn).
    rewrite Hr. eexists. split; [reflexivity|]. cbn [deleted].
    assert (HD : filesToDelete (elements_of (STATE_FILE s1)) files = []).
    { rewrite Hs1, Hw. apply filesToDelete_same. }
    rewrite HD in Hn. cbn in Hn. lia.
Qed.

Lemma trackedSync_idempotent_witness :
  let s1 := snd (trackedSync clone1 config0) in
  currentGitFiles clone1 = Ok ["configuration.yaml"; "automations.yaml"]%string
  /\ strings_only (STATE_FILE config0)
  /\ plain_paths (["configuration.yaml"; "automations.yaml"]%string ++ previous config0)
  /\ target (snd (trackedSync clone1 s1)) = target s1
  /\ STATE_FILE (snd (trackedSync clone1 s1)) = STATE_FILE s1.
Proof.
  cbv zeta.
  assert (H2 : strings_only (STATE_FILE config0))
    by (split; [discriminate | apply not_elem_of_nil]).
  split; [reflexivity|]. split; [exact H2|]. split; [exact config0_plain|].
  pose proof (trackedSync_idempotent clone1 ["configuration.yaml"; "automations.yaml"]%string
                config0 eq_refl H2 config0_plain) as T.
  cbv zeta in T. destruct T as (T1 & T2 & _).
  split; [exact T1 | exact T2].
Defined.

(** X17: a file name that one run read from the listing and that the
    next run no longer reads is absent from the target after that next run,
    provided the state file of the first run reads as an array of strings,
    all names are plain relative paths, the first run could save its state
    and the [unlink] does not fail. *)
Theorem trackedSync_removes_dropped ev1 ev2 files1 files2 s f :
  currentGitFiles ev1 = Ok files1 -> currentGitFiles ev2 = Ok files2 ->
  strings_only (STATE_FILE s) -> plain_paths (files1 ++ files2 ++ previous s) ->
  write_fails ev1 = false ->
  f ∈ files1 -> f ∉ files2 -> f ∉ unlink_fails ev2 ->
  let s1 := snd (trackedSync ev1 s) in
  let s2 := snd (trackedSync ev2 s1) in
  (copy_ok ev1 f = true -> target s1 !! f = source ev1 !! f)
  /\ target s2 !! f = None.
Proof.
  intros Hg1 Hg2 Hd _ Hw Hf1 Hf2 Hu s1 s2.
  destruct (trackedSync_lookup ev1 files1 s f Hg1 Hd) as (E1 & Hp & _ & Hd1). fold s1 in E1, Hp, Hd1.
  destruct (trackedSync_lookup ev2 files2 s1 f Hg2 Hd1) as (E2 & _). fold s2 in E2.
  split.
  - intros Hc. rewrite E1, Hc.
    rewrite (bool_decide_eq_false_2 (f ∈ previous s /\ f ∉ files1)) by tauto.
    now rewrite (bool_decide_eq_true_2 (f ∈ files1)) by exact Hf1.
  - rewrite E2, (Hp Hw).
    rewrite (bool_decide_eq_true_2 (f ∈ files1 /\ f ∉ files2)) by tauto.
    now rewrite (bool_decide_eq_false_2 (f ∈ unlink_fails ev2)) by exact Hu.
Qed.

Lemma trackedSync_removes_dropped_witness :
  let f := "automations.yaml"%string in
  let files1 := ["configuration.yaml"; "automations.yaml"]%string in
  let files2 := ["configuration.yaml"]%string in
  currentGitFiles clone1 = Ok files1 /\ currentGitFiles clone2 = Ok files2
  /\ strings_only (STATE_FILE config0)
  /\ plain_paths (files1 ++ files2 ++ previous config0)
  /\ write_fails clone1 = false
  /\ f ∈ files1 /\ (f ∉ files2) /\ (f ∉ unlink_fails clone2)
  /\ target (snd (trackedSync clone2 (snd (trackedSync clone1 config0)))) !! f = None.
Proof.
  cbv zeta.
  assert (H3 : strings_only (STATE_FILE config0))
    by (split; [discriminate | apply not_elem_of_nil]).
  assert (H4 : plain_paths (["configuration.yaml"; "automations.yaml"]%string
                            ++ ["configuration.yaml"]%string ++ previous config0))
    by (repeat constructor).
  assert (H5 : "automations.yaml"%string ∈ ["configuration.yaml"; "automations.yaml"]%string)
    by (apply (bool_decide_unpack _); vm_compute; exact I).
  assert (H6 : "automations.yaml"%string ∉ ["configuration.yaml"]%string)
    by (apply (bool_decide_unpack _); vm_compute; exact I).
  assert (H7 : "automations.yaml"%string ∉ unlink_fails clone2)
    by (apply (bool_decide_unpack _); vm_compute; exact I).
  pose proof (trackedSync_removes_dropped clone1 clone2
                ["configuration.yaml"; "automations.yaml"]%string
                ["configuration.yaml"]%string config0 "automations.yaml"
                eq_refl eq_refl H3 H4 eq_refl H5 H6 H7) as T.
  cbv zeta in T. destruct T as (_ & T2).
  split; [reflexivity|]. split; [reflexivity|]. split; [exact H3|]. split; [exact H4|].
  split; [reflexivity|].
  split; [exact H5|]. split; [exact H6|]. split; [exact H7 | exact T2].
Defined.

End TrackedSyncRuns.

(** ** Sequences of restart calls *)

Section RestartTraceFacts.

Import Restart RestartTrace.
Local Open Scope Z_scope.

(** The configuration under which [scheduleRestart] arms a timer:
    [AUTO_RESTART] is 'true' and [SUPERVISOR_TOKEN] is not empty. *)
Definition can_restart (ev : env) : bool :=
  bool_decide (AUTO_RESTART ev = Some "true")
  && match SUPERVISOR_TOKEN ev with
     | Some (String _ _) => true
     | _ => false
     end.

Lemma can_restart_true ev :
  can_restart ev = true ->
  AUTO_RESTART ev = Some "true"
  /\ exists token, SUPERVISOR_TOKEN ev = Some token /\ token <> ""%string.
Proof.
  unfold can_restart. intros H. apply andb_prop in H as [Ha Ht].
  apply bool_decide_eq_true in Ha. split; [exact Ha|].
  destruct (SUPERVISOR_TOKEN ev) as [[|c token]|]; try discriminate.
  exists (String c token). split; [reflexivity|discriminate].
Qed.

Lemma alter_last {A} (f : A -> A) (l : list A) (x : A) :
  alter f (length l) (l ++ [x]) = l ++ [f x].
Proof.
  rewrite <- (Nat.add_0_r (length l)) at 1. now rewrite alter_app_r.
Qed.

(** What a call that arms a timer leaves. *)
Lemma scheduleRestart_armed ev d s token :
  AUTO_RESTART ev = Some "true" -> SUPERVISOR_TOKEN ev = Some token -> token <> ""%string ->
  let p := length (promises s) in
  let s1 := snd (scheduleRestart ev d s) in
  restartTimer s1 = Some p
  /\ restartScheduledTime s1 = Some (Date_now ev + d * 1000)
  /\ armed s1 = <[p := token]> (match restartTimer s with
                                | Some t => delete t (armed s)
                                | None => armed s
                                end)
  /\ restart_requests s1 = restart_requests s
  /\ notifications s1 = notifications s ++ ["Home Assistant Restart Scheduled"%string]
  /\ promises s1 = promises s ++ [Fulfilled (Scheduled false (Some d))].
Proof.
  intros Ha Ht Hne p s1. unfold s1, scheduleRestart, JS.bind, JS.get, JS.modify,
    JS.log_info, JS.ret, clearTimeout.
  rewrite Ha, Ht. rewrite bool_decide_eq_true_2 by reflexivity. cbn [negb].
  destruct token as [|c token]; [contradiction|].
  destruct (restartTimer s) as [t|]; cbn; repeat split; rewrite alter_last; reflexivity.
Qed.

(** What a call that arms no timer leaves. *)
Lemma scheduleRestart_skipped ev d s :
  can_restart ev = false ->
  let s1 := snd (scheduleRestart ev d s) in
  restartTimer s1 = restartTimer s /\ restartScheduledTime s1 = restartScheduledTime s
  /\ armed s1 = armed s /\ restart_requests s1 = restart_requests s
  /\ notifications s1 = notifications s
  /\ exists reason, promises s1 = promises s ++ [Fulfilled (NotScheduled reason)].
Proof.
  intros Hn s1. unfold s1, scheduleRestart, JS.bind, JS.get, JS.modify,
    JS.log_info, JS.log_warn, JS.ret. unfold can_restart in Hn.
  case_bool_decide as Ha; cbn [negb andb] in *.
  - destruct (SUPERVISOR_TOKEN ev) as [[|c token]|] eqn:Ht; try discriminate; cbn;
      repeat split; eexists; rewrite alter_last; reflexivity.
  - cbn. repeat split; eexists; rewrite alter_last; reflexivity.
Qed.

(** X18: after a call that scheduled a restart in [d >= 0] seconds,
    [getRestartStatus] reports it as scheduled with the whole seconds left,
    rounded up: [d] minus the whole seconds elapsed, never negative and
    never more than [d], and 0 once the delay has passed while the timeout
    has not run yet. *)
Theorem getRestartStatus_after_schedule ev ev' d s :
  can_restart ev = true -> 0 <= d -> Date_now ev <= Date_now ev' ->
  let s1 := snd (scheduleRestart ev d s) in
  let elapsed := Date_now ev' - Date_now ev in
  exists r,
    fst (getRestartStatus ev' s1) = Ok (Some r)
    /\ r = Z.max 0 (d - elapsed / 1000)
    /\ 0 <= r <= d
    /\ (r = 0 <-> d * 1000 <= elapsed)
    /\ snd (getRestartStatus ev' s1) = s1.
Proof.
  intros Hcan Hd Hnow s1 elapsed.
  destruct (can_restart_true ev Hcan) as (Ha & token & Ht & Hne).
  destruct (scheduleRestart_armed ev d s token Ha Ht Hne) as (Hrt & Hst & _).
  fold s1 in Hrt, Hst.
  unfold getRestartStatus, JS.bind, JS.get. rewrite Hrt, Hst. cbn [default JS.ret fst snd].
  eexists. split; [reflexivity|].
  assert (E : Z.opp (Z.div (Z.opp (Date_now ev + d * 1000 - Date_now ev')) 1000)
              = d - elapsed / 1000).
  { unfold elapsed. Z.div_mod_to_equations. lia. }
  unfold id. rewrite E. split; [reflexivity|]. split; [|split; [|reflexivity]].
  - assert (0 <= elapsed / 1000) by (apply Z.div_pos; unfold elapsed; lia). lia.
  - unfold elapsed in *. Z.div_mod_to_equations. lia.
Qed.

(** The surroundings of a call made 2.5 seconds after [restart_enabled]. *)
Definition a_little_later : env :=
  {| AUTO_RESTART := Some "true"%string; SUPERVISOR_TOKEN := Some "token"%string;
     Date_now := 3500 |}.

Lemma getRestartStatus_after_schedule_witness :
  can_restart restart_enabled = true /\ 0 <= 10
  /\ Date_now restart_enabled <= Date_now a_little_later
  /\ exists r, fst (getRestartStatus a_little_later
                      (snd (scheduleRestart restart_enabled 10 initial))) = Ok (Some r)
               /\ r = Z.max 0 (10 - (Date_now a_little_later - Date_now restart_enabled) / 1000).
Proof.
  assert (H2 : 0 <= 10) by lia.
  assert (H3 : Date_now restart_enabled <= Date_now a_little_later) by (vm_compute; discriminate).
  split; [reflexivity|]. split; [exact H2|]. split; [exact H3|].
  destruct (getRestartStatus_after_schedule restart_enabled a_little_later 10 initial
              eq_refl H2 H3) as (r & Hr & He & _).
  exists r. split; [exact Hr | exact He].
Defined.

(** X19: cancelling a scheduled restart returns [cancelled: true], clears
    the timer so that the status is "not scheduled", and the cancelled
    timeout does nothing when its time comes: no restart request goes out.
    One notification was sent for the schedule and one for the cancel. A
    second cancel returns [cancelled: false] and changes nothing. *)
Theorem cancelRestart_prevents_restart ev ev' d s outcome :
  can_restart ev = true ->
  let p := length (promises s) in
  let s1 := snd (scheduleRestart ev d s) in
  let s2 := snd (cancelRestart s1) in
  fst (cancelRestart s1) = Ok true
  /\ restartTimer s2 = None
  /\ fst (getRestartStatus ev' s2) = Ok None
  /\ snd (fire p outcome s2) = s2
  /\ restart_requests s2 = restart_requests s
  /\ notifications s2
     = notifications s ++ ["Home Assistant Restart Scheduled"; "Restart Cancelled"]%string
  /\ cancelRestart s2 = (Ok false, s2).
Proof.
  intros Hcan p s1 s2.
  destruct (can_restart_true ev Hcan) as (Ha & token & Ht & Hne).
  destruct (scheduleRestart_armed ev d s token Ha Ht Hne) as (Hrt & Hst & Harm & Hreq & Hnot & _).
  fold s1 p in Hrt, Hst, Harm, Hreq, Hnot.
  assert (Hc : cancelRestart s1
               = (Ok true,
                  notify "Restart Cancelled"
                    (JS.append_log (JS.INFO, "Home Assistant restart cancelled"%string)
                       (set_timer None None (set_armed (delete p) s1))))).
  { unfold cancelRestart, JS.bind, JS.get, clearTimeout, JS.modify, JS.log_info. now rewrite Hrt. }
  unfold s2. rewrite Hc. cbn [fst snd].
  split; [reflexivity|]. split; [reflexivity|]. split; [reflexivity|].
  split; [|split; [exact Hreq|split; [|reflexivity]]].
  - unfold fire, JS.bind, JS.get. cbn [armed notify JS.append_log state_logging set_timer set_armed].
    now rewrite lookup_delete_eq.
  - cbn [notifications notify JS.append_log state_logging set_timer set_armed].
    rewrite Hnot, <- app_assoc. reflexivity.
Qed.

Lemma cancelRestart_prevents_restart_witness :
  let s2 := snd (cancelRestart (snd (scheduleRestart restart_enabled 10 initial))) in
  can_restart restart_enabled = true
  /\ restartTimer s2 = None
  /\ snd (fire (length (promises initial)) (Ok tt) s2) = s2
  /\ restart_requests s2 = restart_requests initial.
Proof.
  cbv zeta.
  pose proof (cancelRestart_prevents_restart restart_enabled a_little_later 10 initial
                (Ok tt) eq_refl) as T.
  cbv zeta in T. destruct T as (_ & T2 & _ & T4 & T5 & _).
  split; [reflexivity|]. split; [exact T2|]. split; [exact T4 | exact T5].
Defined.

(** The timeout that is armed, if any, is the one [restartTimer] names. *)
Definition one_timer (s : state) : Prop :=
  forall t, is_Some (armed s !! t) <-> restartTimer s = Some t.

(** The calls of [scheduleRestart] among [events] that arm a timeout. *)
Definition arming (e : event) : bool :=
  match e with
  | Schedule ev _ => can_restart ev
  | _ => false
  end.

Definition pending (s : state) : nat :=
  match restartTimer s with Some _ => 1 | None => 0 end.

Lemma step_one_timer s e :
  one_timer s ->
  one_timer (step s e)
  /\ (length (restart_requests (step s e)) + pending (step s e)
      <= length (restart_requests s) + pending s + (if arming e then 1 else 0))%nat.
Proof.
  intros Hs. destruct e as [ev d| |ev|t outcome]; cbn [step arming].
  - destruct (can_restart ev) eqn:Hcan.
    + destruct (can_restart_true ev Hcan) as (Ha & token & Ht & Hne).
      destruct (scheduleRestart_armed ev d s token Ha Ht Hne) as (Hrt & _ & Harm & Hreq & _).
      split.
      * intros t. rewrite Hrt, Harm. split.
        -- intros Ht'. destruct (decide (t = length (promises s))) as [->|Hne']; [reflexivity|].
           rewrite lookup_insert_ne in Ht' by congruence. exfalso.
           destruct (restartTimer s) as [t0|] eqn:Hr.
           ++ destruct (decide (t = t0)) as [->|Hn0].
              ** rewrite lookup_delete_eq in Ht'. now destruct Ht'.
              ** rewrite lookup_delete_ne in Ht' by congruence.
                 apply Hs in Ht'. congruence.
           ++ apply Hs in Ht'. congruence.
        -- intros [= <-]. rewrite lookup_insert_eq. eauto.
      * unfold pending. rewrite Hrt, Hreq. destruct (restartTimer s); lia.
    + destruct (scheduleRestart_skipped ev d s Hcan) as (Hrt & _ & Harm & Hreq & _).
      split.
      * intros t. rewrite Hrt, Harm. apply Hs.
      * unfold pending. rewrite Hrt, Hreq. lia.
  - unfold cancelRestart, JS.bind, JS.get, clearTimeout, JS.modify, JS.log_info.
    destruct (restartTimer s) as [t0|] eqn:Hr; cbn.
    + split; [|unfold pending; cbn; rewrite Hr; lia].
      intros t. cbn. split; [|discriminate]. intros Ht'.
      destruct (decide (t = t0)) as [->|Hn0].
      * rewrite lookup_delete_eq in Ht'. now destruct Ht'.
      * rewrite lookup_delete_ne in Ht' by congruence. apply Hs in Ht'. congruence.
    + split; [exact Hs|lia].
  - unfold getRestartStatus, JS.bind, JS.get. destruct (restartTimer s); cbn; (split; [exact Hs|lia]).
  - pose proof (fire_effect t outcome s) as [Hf _].
    destruct (armed s !! t) as [token|] eqn:Ha.
    + destruct Hf as (Hreq & Harm & Hrt). split.
      * intros t'. rewrite Hrt, Harm. split; [|discriminate]. intros Ht'.
        destruct (decide (t' = t)) as [->|Hn0].
        -- rewrite lookup_delete_eq in Ht'. now destruct Ht'.
        -- rewrite lookup_delete_ne in Ht' by congruence. apply Hs in Ht'.
           assert (Hst : restartTimer s = Some t) by (apply Hs; rewrite Ha; eauto).
           congruence.
      * assert (Hst : restartTimer s = Some t) by (apply Hs; rewrite Ha; eauto).
        unfold pending. rewrite Hrt, Hreq, Hst, length_app. cbn. lia.
    + rewrite Hf. split; [exact Hs|lia].
Qed.

(** X20: whatever calls are made and timeouts fire, one after the other,
    at most one timeout is armed at any time, namely the one the module
    variable [restartTimer] holds, and the restart requests sent so far,
    plus the one still pending, never exceed the calls of [scheduleRestart]
    that armed a timeout. *)
Theorem restart_one_timer events :
  let s := run events in
  (forall t, is_Some (armed s !! t) <-> restartTimer s = Some t)
  /\ (forall t t', is_Some (armed s !! t) -> is_Some (armed s !! t') -> t = t')
  /\ (length (restart_requests s) + pending s <= length (List.filter arming events))%nat.
Proof.
  cbv zeta. unfold run.
  assert (H : forall evs s0,
            one_timer s0 ->
            one_timer (foldl step s0 evs)
            /\ (length (restart_requests (foldl step s0 evs)) + pending (foldl step s0 evs)
                <= length (restart_requests s0) + pending s0
                   + length (List.filter arming evs))%nat).
  { induction evs as [|e evs IH]; intros s0 H0; [split; [exact H0|cbn; lia]|].
    cbn [foldl List.filter]. destruct (step_one_timer s0 e H0) as [H1 Hc].
    destruct (IH _ H1) as [H2 Hc2]. split; [exact H2|].
    destruct (arming e); cbn [length]; lia. }
  destruct (H events initial) as [H1 H2].
  { intros t. cbn. rewrite lookup_empty. split; [intros [? [=]]|discriminate]. }
  split; [exact H1|]. split; [|exact H2].
  intros t t' Ht Ht'. apply H1 in Ht, Ht'. congruence.
Qed.

End RestartTraceFacts.

(** ** Runs of the pipeline *)

Section PipelineRuns.

Import Pipeline.













(** *** A run in which nothing fails *)

(** The places a run works on, but for the backups, the timer and the log. *)
Definition at_ (tgt : tree) (tmp val : option tree) (notes : list string)
    (F : Fs.file History.ledger) (w : world) : Prop :=
  target w = tgt /\ tempDir w = tmp /\ validationDir w = val
  /\ notifications w = notes /\ History.HISTORY_FILE (history w) = F.





Lemma zoom_run {S T A} (proj : S -> T) (upd : T -> S -> S) (m : JS.M T A) s :
  JS.zoom proj upd m s = (fst (m (proj s)), upd (snd (m (proj s))) s).
Proof. unfold JS.zoom. now destruct (m (proj s)). Qed.



(** The files an [rsync] run that finishes leaves out: those its quick
    check found in the destination with the size and time of the source. *)
Definition skipped (outcome : rsync_outcome) (dst : tree) (f : string) : bool :=
  match outcome with
  | UpToDate same => bool_decide (f ∈ same) && bool_decide (is_Some (dst !! f))
  | _ => false
  end.




(** The ledger file after [addSyncEntry], also when the write fails. *)
Lemma addSyncEntry_file ev e s :
  History.HISTORY_FILE s <> Fs.Parsed History.LOther ->
  fst (History.addSyncEntry ev e s) = Ok (History.newEntry ev e !! "id")
  /\ History.HISTORY_FILE (snd (History.addSyncEntry ev e s))
     = if History.write_fails ev then History.HISTORY_FILE s
       else Fs.Parsed (History.LArray
              (take History.MAX_HISTORY_ENTRIES (History.newEntry ev e :: History.entries s))).
Proof.
  intros Hf. destruct (loadHistory_entries s Hf) as [lg Hl].
  unfold History.addSyncEntry, JS.bind. rewrite Hl.
  unfold History.saveHistory, JS.try_catch.
  destruct (History.write_fails ev); split; reflexivity.
Qed.



(** The entry the pipeline adds to the ledger when it starts. *)
Definition started_entry (ev : env) : History.entry :=
  {[ "type" := History.VStr (syncType ev);
     "branch" := History.VStr (branch ev);
     "commits" := History.VNum (commits ev);
     "message" := History.VStr "Sync started";
     "status" := History.VStr "in_progress" ]}.







Lemma removeDirectory_fails ev dirPath get remove w :
  get w = true -> dirPath ∈ rm_fails ev ->
  removeDirectory ev dirPath get remove w
  = (Throw (JS.Error "Failed to remove directory: EBUSY: resource busy or locked, rm"), w).
Proof.
  intros Hg Hf. unfold removeDirectory, JS.try_catch, JS.bind, JS.gets.
  rewrite Hg. now rewrite bool_decide_eq_true_2 by exact Hf.
Qed.

(** X23: when a temporary directory left by an earlier run cannot be
    removed, the run fails in step 1, and its failure handler fails in turn
    on the same removal: the run throws the removal error, the ledger entry
    it added is never updated and stays at status in_progress, and no
    failure notification is sent. The files below the sync path are as
    before. *)
Theorem syncFromGitHub_cleanup_failure ev w :
  temp_exists w = true -> TEMP ∈ rm_fails ev ->
  History.HISTORY_FILE (history w) <> Fs.Parsed History.LOther ->
  let r := syncFromGitHub ev w in
  fst r = Throw (JS.Error "Failed to remove directory: EBUSY: resource busy or locked, rm")
  /\ target (snd r) = target w /\ tempDir (snd r) = tempDir w
  /\ notifications (snd r) = notifications w ++ ["GitHub Sync Started"%string]
  /\ history (snd r)
     = snd (History.addSyncEntry (started ev) (started_entry ev) (history w))
  /\ (History.write_fails (started ev) = false ->
      exists e, History.entries (history (snd r)) !! O = Some e
                /\ e !! "status" = Some (History.VStr "in_progress")).
Proof.
  intros Ht Hf Hhist r.
  destruct (addSyncEntry_file (started ev) (started_entry ev) (history w) Hhist) as [Hr Hfile].
  set (h1 := snd (History.addSyncEntry (started ev) (started_entry ev) (history w))) in *.
  set (w1 := JS.append_log (JS.INFO, "Starting GitHub sync..."%string) w).
  set (w2 := set_history h1 w1).
  set (w3 := snd (sendNotification "GitHub Sync Started" w2)).
  set (w4 := JS.append_log (JS.INFO, "Cleaning up previous temp directory..."%string) w3).
  set (err := JS.Error "Failed to remove directory: EBUSY: resource busy or locked, rm").
  set (w5 := JS.append_log (JS.ERROR, "Sync failed: " +:+ JS.message err) w4).
  assert (Hrun : syncFromGitHub ev w = (Throw err, w5)).
  { unfold syncFromGitHub. fold (started_entry ev).
    rewrite (bind_Ok (JS.log_info "Starting GitHub sync...") _ w tt w1 eq_refl).
    erewrite (bind_Ok (in_history _) _ w1 _ w2).
    2:{ unfold in_history. rewrite zoom_run. cbn [history w1 JS.append_log world_logging].
        fold h1. rewrite Hr. reflexivity. }
    rewrite (bind_Ok (sendNotification "GitHub Sync Started") _ w2 tt w3 eq_refl).
    erewrite try_catch_Throw with (e := err) (s' := w4).
    2:{ rewrite (bind_Ok (JS.gets temp_exists) _ w3 true w3) by (unfold JS.gets; now rewrite <- Ht).
        erewrite bind_Throw; [reflexivity|].
        rewrite (bind_Ok (JS.log_info "Cleaning up previous temp directory...") _ w3 tt w4 eq_refl).
        now apply removeDirectory_fails. }
    rewrite (bind_Ok (JS.log_error ("Sync failed: " +:+ JS.message err)) _ w4 tt w5 eq_refl).
    rewrite (bind_Ok (JS.gets temp_exists) _ w5 true w5) by (unfold JS.gets; now rewrite <- Ht).
    erewrite bind_Throw; [reflexivity|]. now apply removeDirectory_fails. }
  unfold r. rewrite Hrun. cbn [fst snd].
  split; [reflexivity|]. split; [reflexivity|]. split; [reflexivity|]. split; [reflexivity|].
  split; [reflexivity|].
  intros Hw. change (history w5) with h1. unfold History.entries. rewrite Hfile, Hw.
  cbn. eexists. split; [reflexivity|]. rewrite newEntry_lookup. reflexivity.
Qed.

(** The temporary directory cannot be removed. *)
Definition temp_busy : env :=
  {| BACKUP_ENABLED := true; branch := "main"; commits := 1; syncType := "webhook";
     started := ev0; finished := ev0; duration := 1200; rm_fails := {[ TEMP ]};
     tar := Ok ("config-backup-2024-01-04.tar.gz"%string,
                {| Backup.mtime := 4; Backup.st_size := 10 |});
     tar_leftover := None;
     clone := Ok {[ "configuration.yaml" := "homeassistant: v2"%string ]};
     rsync_current := Completed; rsync_new := Completed; rsync_apply := Completed;
     prune := no_failures; BACKUP_RETENTION := 5; restart_env := restart_enabled |}.

(** An earlier run left its temporary directory behind. *)
Definition stale_temp : world := set_tempDir (Some ∅) world0.

Lemma syncFromGitHub_cleanup_failure_witness :
  temp_exists stale_temp = true /\ TEMP ∈ rm_fails temp_busy
  /\ History.HISTORY_FILE (history stale_temp) <> Fs.Parsed History.LOther
  /\ fst (syncFromGitHub temp_busy stale_temp)
     = Throw (JS.Error "Failed to remove directory: EBUSY: resource busy or locked, rm")
  /\ notifications (snd (syncFromGitHub temp_busy stale_temp))
     = notifications stale_temp ++ ["GitHub Sync Started"%string].
Proof.
  assert (H1 : temp_exists stale_temp = true) by reflexivity.
  assert (H2 : TEMP ∈ rm_fails temp_busy)
    by (apply (bool_decide_unpack _); vm_compute; exact I).
  assert (H3 : History.HISTORY_FILE (history stale_temp) <> Fs.Parsed History.LOther)
    by discriminate.
  pose proof (syncFromGitHub_cleanup_failure temp_busy stale_temp H1 H2 H3) as T.
  cbv zeta in T. destruct T as (T1 & _ & _ & T4 & _).
  repeat split; assumption.
Defined.

End PipelineRuns.

(** ** Rollback *)

Section RollbackFacts.

Import Pipeline Rollback.
Local Open Scope js_scope.






(** Since [w0]: the files below the sync path, the backup directory and
    the notifications are as they were. *)
Definition unchanged (w0 w : world) : Prop :=
  target w = target w0 /\ notifications w = notifications w0
  /\ exists lg, backups w = relog lg (backups w0).


Lemma unchanged_log w0 w l : unchanged w0 w -> unchanged w0 (JS.append_log l w).
Proof. intros H. exact H. Qed.













(** A rollback whose safety backup fails, [tar] leaving a part of it. *)
Definition safety_fails : env :=
  {| sync :=
       {| BACKUP_ENABLED := true; branch := "main"; commits := 1; syncType := "webhook";
          started := ev0; finished := ev0; duration := 1200; rm_fails := ∅;
          tar := Throw (JS.Error "tar: write error: No space left on device");
          tar_leftover := Some ("config-backup-2024-01-04.tar.gz"%string,
                                {| Backup.mtime := 4; Backup.st_size := 3 |});
          clone := Throw (JS.Error "Authentication failed");
          rsync_current := Completed; rsync_new := Completed; rsync_apply := Completed;
          prune := no_failures; BACKUP_RETENTION := 5; restart_env := restart_enabled |};
     archive_content := fun _ => {[ "configuration.yaml"%string := "homeassistant: v0"%string ]};
     tar_x := Extracted |}.


Example failed_safety_backup_stays :
  let f := "config-backup-2024-01-02.tar.gz"%string in
  let r := rollbackToBackup safety_fails (Some f) world0 in
  fst r = Throw (JS.Error "tar: write error: No space left on device")
  /\ target (snd r) = target world0
  /\ Backup.files (backups (snd r)) !! "config-backup-2024-01-04.tar.gz"%string
     = Some {| Backup.mtime := 4; Backup.st_size := 3 |}
  /\ Backup.files (backups world0) !! "config-backup-2024-01-04.tar.gz"%string = None.
Proof. vm_compute. repeat split. Qed.





End RollbackFacts.

(** ** The webhook route *)

Section ServerFacts.

Import Webhook Pipeline Server.
Local Open Scope Z_scope.

(** Everything but the log is as in [w0]. *)
Definition only_logged (w0 w : world) : Prop :=
  target w = target w0 /\ tempDir w = tempDir w0 /\ validationDir w = validationDir w0
  /\ history w = history w0 /\ backups w = backups w0 /\ restart w = restart w0
  /\ notifications w = notifications w0.

(** The requests the webhook route starts the pipeline for. *)
Definition accepted (ev : Pipeline.env) (secret : option jsstring) (req : webhook_request)
  : Prop :=
  verifyGitHubSignature (signed req) secret = Ok true
  /\ x_github_event req = Some "push"%string
  /\ exists s, payload_ref req = RefString s
               /\ replace_first "refs/heads/" s = branch ev.

Lemma substring_all s : substring 0 (String.length s) s = s.
Proof. induction s as [|a s IH]; cbn; [reflexivity|]. now rewrite IH. Qed.

Lemma prefix_app p b : String.prefix p (p ++ b) = true.
Proof.
  induction p as [|a p IH].
  - destruct b; reflexivity.
  - change (String a p ++ b)%string with (String a (p ++ b)). cbn [String.prefix].
    destruct (ascii_dec a a); [exact IH | congruence].
Qed.

Lemma substring_app p n b : substring (String.length p) n (p ++ b) = substring 0 n b.
Proof.
  induction p as [|a p IH]; [reflexivity|].
  change (String a p ++ b)%string with (String a (p ++ b)). cbn. exact IH.
Qed.

Lemma length_app_sub p b :
  (String.length (p ++ b) - String.length p)%nat = String.length b.
Proof.
  induction p as [|a p IH]; [exact (Nat.sub_0_r (String.length b))|].
  change (String a p ++ b)%string with (String a (p ++ b)). cbn. exact IH.
Qed.

Lemma replace_first_prefix a p b :
  replace_first (String a p) (String a p ++ b) = b.
Proof.
  unfold replace_first.
  assert (Hi : index 0 (String a p) (String a p ++ b) = Some 0%nat).
  { change (String a p ++ b)%string with (String a (p ++ b)). cbn [index].
    change (String a (p ++ b)) with (String a p ++ b)%string.
    now rewrite prefix_app. }
  rewrite Hi. rewrite Nat.add_0_l, substring_app, length_app_sub, substring_all.
  change (String a p ++ b)%string with (String a (p ++ b)). reflexivity.
Qed.

Lemma only_logged_refl w : only_logged w w.
Proof. repeat split. Qed.

Lemma only_logged_log l w0 w : only_logged w0 w -> only_logged w0 (JS.append_log l w).
Proof. intros H. exact H. Qed.

(** A push to [branch_name] as GitHub sends it: the event header, the ref
    of the branch, and the signature under [secret] of the body [buf] as
    the server records it. *)
Definition github_push (branch_name : string) (secret : jsstring) (buf : buffer)
    (count : Z) : webhook_request :=
  {| signed := json_request (Some (calculatedSignature secret (Buffer_toString buf))) buf;
     x_github_event := Some "push"%string;
     payload_ref := RefString ("refs/heads/" ++ branch_name);
     payload_commits := count |}.

(** X26: the webhook route starts the pipeline for exactly the accepted
    requests, and then answers 202 whatever the pipeline does; every other
    request gets another answer and changes nothing but the log. *)
Theorem webhook_route_filter ev secret req w :
  let r := webhook_route ev secret req w in
  (accepted ev secret req ->
     fst r = Ok (Reply 202 "Sync started")
     /\ exists w1 w2,
          only_logged w w1
          /\ w2 = snd (syncFromGitHub (triggered ev "webhook" (payload_commits req)) w1)
          /\ only_logged w2 (snd r))
  /\ (~ accepted ev secret req ->
        (exists status text, fst r = Ok (Reply status text) /\ status <> 202)
        /\ only_logged w (snd r)).
Proof.
  intros r. subst r. unfold accepted, webhook_route.
  remember (syncFromGitHub (triggered ev "webhook" (payload_commits req))) as pipeline eqn:Hp.
  unfold JS.try_catch, JS.bind, JS.log_info, JS.log_error, JS.modify, JS.ret, JS.throw.
  destruct (verifyGitHubSignature (signed req) secret) as [[|]|e] eqn:Hv.
  - destruct (bool_decide (x_github_event req = Some "push"%string)) eqn:He.
    + apply bool_decide_eq_true in He. cbn [negb].
      destruct (payload_ref req) as [|s|] eqn:Hr; cbn [pushed_branch].
      * rewrite bool_decide_eq_false_2 by discriminate. cbn. split.
        -- intros (_ & _ & s & Hs & _). discriminate.
        -- intros _. split; [exists 200, "Branch ignored"%string; split; [reflexivity|lia]|].
           repeat split.
      * destruct (bool_decide (Some (replace_first "refs/heads/" s) = Some (branch ev))) eqn:Hb.
        -- apply bool_decide_eq_true in Hb. cbn [negb]. split.
           ++ intros _.
              destruct (pipeline (JS.append_log (JS.INFO, "Processing push"%string)
                          (JS.append_log (JS.INFO, "GitHub event"%string)
                             (JS.append_log (JS.INFO, "Received webhook request"%string) w))))
                as [[v|e] w2] eqn:Hrun; cbn.
              ** split; [reflexivity|]. eexists _, w2. split; [|split].
                 --- apply only_logged_log, only_logged_log, only_logged_log, only_logged_refl.
                 --- now rewrite Hrun.
                 --- repeat split.
              ** split; [reflexivity|]. eexists _, w2. split; [|split].
                 --- apply only_logged_log, only_logged_log, only_logged_log, only_logged_refl.
                 --- now rewrite Hrun.
                 --- repeat split.
           ++ intros Hn. exfalso. apply Hn. split; [reflexivity|]. split; [exact He|].
              exists s. split; [reflexivity|]. congruence.
        -- apply bool_decide_eq_false in Hb. cbn. split.
           ++ intros (_ & _ & s' & Hs & Hs'). exfalso. apply Hb. congruence.
           ++ intros _. split; [exists 200, "Branch ignored"%string; split; [reflexivity|lia]|].
              repeat split.
      * cbn. split.
        -- intros (_ & _ & s & Hs & _). discriminate.
        -- intros _. split; [exists 500, "Internal server error"%string; split; [reflexivity|lia]|].
           repeat split.
    + apply bool_decide_eq_false in He. cbn. split.
      * intros (_ & He' & _). contradiction.
      * intros _. split; [exists 200, "Event ignored"%string; split; [reflexivity|lia]|].
        repeat split.
  - cbn. split.
    + intros (Hv' & _). discriminate.
    + intros _. split; [exists 401, "Invalid signature"%string; split; [reflexivity|lia]|].
      repeat split.
  - cbn. split.
    + intros (Hv' & _). discriminate.
    + intros _. split; [exists 500, "Internal server error"%string; split; [reflexivity|lia]|].
      repeat split.
Qed.

Lemma verify_signed secret buf :
  secret <> [] ->
  verifyGitHubSignature
    (json_request (Some (calculatedSignature secret (Buffer_toString buf))) buf)
    (Some secret) = Ok true.
Proof.
  intros Hs. destruct secret as [|k secret]; [contradiction|]. clear Hs.
  unfold json_request.
  remember (calculatedSignature (k :: secret) (Buffer_toString buf)) as expected eqn:E.
  assert (Hlen : length expected = 71%nat)
    by (rewrite E; apply calculatedSignature_length).
  assert (Hasc : Forall is_ascii expected)
    by (rewrite E; apply calculatedSignature_ascii).
  destruct expected as [|c e]; [discriminate|].
  rewrite verifyGitHubSignature_unfold, timingSafeEqual_true, <- E.
  now apply Buffer_from_ascii.
Qed.

(** X27: a push event as GitHub sends it, signed with the secret: the pipeline
    runs when the pushed branch is the configured one, and the answer is
    202 whatever the pipeline does; a push to any other branch is answered
    with "Branch ignored" and changes nothing but the log. *)
Theorem webhook_route_push ev secret buf count b w :
  secret <> [] ->
  let r := webhook_route ev (Some secret) (github_push b secret buf count) w in
  (b = branch ev ->
     fst r = Ok (Reply 202 "Sync started")
     /\ exists w1,
          only_logged w w1
          /\ only_logged (snd (syncFromGitHub (triggered ev "webhook" count) w1)) (snd r))
  /\ (b <> branch ev ->
        fst r = Ok (Reply 200 "Branch ignored") /\ only_logged w (snd r)).
Proof.
  intros Hs r. subst r. unfold webhook_route, github_push.
  cbn [signed x_github_event payload_ref payload_commits pushed_branch].
  rewrite (verify_signed secret buf Hs).
  change "refs/heads/"%string with (String "r" "efs/heads/") at 2.
  rewrite replace_first_prefix.
  remember (syncFromGitHub (triggered ev "webhook" count)) as pipeline eqn:Hp.
  unfold JS.try_catch, JS.bind, JS.log_info, JS.log_error, JS.modify, JS.ret, JS.throw.
  rewrite bool_decide_eq_true_2 by reflexivity. cbn [negb].
  split.
  - intros ->. rewrite bool_decide_eq_true_2 by reflexivity. cbn [negb].
    destruct (pipeline (JS.append_log (JS.INFO, "Processing push"%string)
                (JS.append_log (JS.INFO, "GitHub event"%string)
                   (JS.append_log (JS.INFO, "Received webhook request"%string) w))))
      as [[v|e] w2] eqn:Hrun; cbn.
    + split; [reflexivity|]. eexists. split.
      * apply only_logged_log, only_logged_log, only_logged_log, only_logged_refl.
      * rewrite Hrun. repeat split.
    + split; [reflexivity|]. eexists. split.
      * apply only_logged_log, only_logged_log, only_logged_log, only_logged_refl.
      * rewrite Hrun. repeat split.
  - intros Hb. rewrite bool_decide_eq_false_2 by congruence. cbn.
    split; [reflexivity|]. repeat split.
Qed.

Lemma webhook_route_push_witness :
  js "secret" <> []
  /\ fst (webhook_route clone_works (Some (js "secret"))
            (github_push "main" (js "secret") [0x7B; 0x7D] 1) world0)
     = Ok (Reply 202 "Sync started")
  /\ fst (webhook_route clone_works (Some (js "secret"))
            (github_push "develop" (js "secret") [0x7B; 0x7D] 1) world0)
     = Ok (Reply 200 "Branch ignored").
Proof.
  assert (H : js "secret" <> []) by discriminate.
  split; [exact H|]. split.
  - exact (proj1 (proj1 (webhook_route_push clone_works (js "secret") [0x7B; 0x7D] 1
                           "main" world0 H) eq_refl)).
  - assert (Hb : "develop"%string <> branch clone_works) by discriminate.
    exact (proj1 (proj2 (webhook_route_push clone_works (js "secret") [0x7B; 0x7D] 1
                           "develop" world0 H) Hb)).
Defined.

End ServerFacts.
